(** * A shallow embedding of the dictionary builder and its search front end

    The development follows [converter.go] (frequency parsing, gloss
    extraction, the reverse index) and [main.go] (tiered search and the
    search history).

    Text is modelled as the sequence of code points a Go [range] loop, the
    [regexp] package and SQLite's LIKE all see: a string is a list of runes,
    a rune is an integer.  Maps are stdpp's [gmap]. *)

From stdpp Require Import gmap list sorting.
From Stdlib Require Import ZArith Lia.

Abbreviation rune := Z (only parsing).
Abbreviation gostring := (list Z) (only parsing).

(** ** Package [unicode] and [strings] *)

(** [unicode.IsSpace]: the White_Space property. *)
Definition IsSpace (r : rune) : bool :=
  ((9 <=? r) && (r <=? 13) || (r =? 32) || (r =? 133) || (r =? 160)
   || (r =? 5760) || (8192 <=? r) && (r <=? 8202) || (r =? 8232)
   || (r =? 8233) || (r =? 8239) || (r =? 8287) || (r =? 12288))%Z.

Fixpoint TrimLeft (f : rune -> bool) (s : gostring) : gostring :=
  match s with
  | [] => []
  | c :: s' => if f c then TrimLeft f s' else s
  end.

Definition TrimRight (f : rune -> bool) (s : gostring) : gostring :=
  rev (TrimLeft f (rev s)).

(** [strings.TrimSpace]: leading and trailing white space removed. *)
Definition TrimSpace (s : gostring) : gostring :=
  TrimRight IsSpace (TrimLeft IsSpace s).

(** ** Package [strconv] *)

Definition isDigit (c : rune) : bool := ((48 <=? c) && (c <=? 57))%Z.

Fixpoint digitsVal (acc : Z) (s : gostring) : option Z :=
  match s with
  | [] => Some acc
  | c :: s' => if isDigit c then digitsVal (acc * 10 + (c - 48))%Z s' else None
  end.

(** [int] is 64 bits wide. *)
Definition maxInt : Z := (2 ^ 63 - 1)%Z.
Definition minInt : Z := (- 2 ^ 63)%Z.

(** [strconv.Atoi]: an optional sign, then decimal digits, at least one;
    [None] stands for a non-nil error (syntax or range). *)
Definition Atoi (s : gostring) : option Z :=
  let '(neg, body) :=
    match s with
    | c :: s' =>
        if (c =? 43)%Z then (false, s')
        else if (c =? 45)%Z then (true, s')
        else (false, s)
    | [] => (false, s)
    end in
  match body with
  | [] => None
  | _ :: _ =>
      match digitsVal 0 body with
      | None => None
      | Some v =>
          let n := if neg : bool then (- v)%Z else v in
          if ((minInt <=? n) && (n <=? maxInt))%Z then Some n else None
      end
  end.

(** ** [parseBNC] *)

(** [1 << 30] *)
Definition unranked : Z := Z.shiftl 1 30.

Definition parseBNC (bnc : gostring) : Z :=
  let bnc := TrimSpace bnc in
  match bnc with
  | [] => unranked
  | _ :: _ =>
      match Atoi bnc with
      | None => unranked
      | Some n => if (n =? 0)%Z then unranked else n
      end
  end.

(** The strings that the comment of [parseBNC] calls empty, invalid or 0. *)
Definition noRank (bnc : gostring) : Prop :=
  TrimSpace bnc = [] \/ Atoi (TrimSpace bnc) = None \/ Atoi (TrimSpace bnc) = Some 0%Z.

(** A string with a valid positive rank [n]. *)
Definition hasRank (bnc : gostring) (n : Z) : Prop :=
  Atoi (TrimSpace bnc) = Some n /\ (0 < n)%Z.

(** ** Package [regexp]: the two expressions of [extractChineseWords] *)

(** Scanner state of [bracketRegex], whose two alternatives are a '[', any
    runes but ']', a ']', and a '(', any runes but ')', a ')': either looking
    for the start of a match, or inside a match and looking for the rune that
    closes it. *)
Inductive bracketState : Type :=
  | Outside
  | Inside (close : rune).

(** [bracketRegex.ReplaceAllString] with the empty replacement.  Matches are
    leftmost and do not overlap.  A match starts at '[' (91) when a ']' (93)
    follows somewhere, and ends at the first one, since the runes in between
    exclude ']'; likewise for '(' (40) and ')' (41).  An opening bracket that
    is never closed starts no match and stays. *)
Fixpoint bracketReplace (st : bracketState) (s : gostring) : gostring :=
  match s with
  | [] => []
  | c :: s' =>
      match st with
      | Inside close =>
          if (c =? close)%Z then bracketReplace Outside s'
          else bracketReplace (Inside close) s'
      | Outside =>
          if ((c =? 91) && existsb (Z.eqb 93) s')%Z then bracketReplace (Inside 93%Z) s'
          else if ((c =? 40) && existsb (Z.eqb 41) s')%Z then bracketReplace (Inside 41%Z) s'
          else c :: bracketReplace Outside s'
      end
  end.

(** The class of [separators]: ',' '，' '、' ';' '；' and the white space of
    the expression syntax, which is tab, newline, form feed, carriage return
    and space. *)
Definition isSeparator (c : rune) : bool :=
  ((c =? 44) || (c =? 65292) || (c =? 12289) || (c =? 59) || (c =? 65307)
   || (c =? 9) || (c =? 10) || (c =? 12) || (c =? 13) || (c =? 32))%Z.

(** [re.Split(s, -1)] for [re] the class [sep] followed by [+]: the pieces
    between the maximal runs of [sep]; a run at either end of [s] leaves an
    empty piece there, and the empty string gives one empty piece.  [inRun]
    tells that the rune before [s] belongs to a run. *)
Fixpoint splitRuns (sep : rune -> bool) (inRun : bool) (s : gostring) : list gostring :=
  match s with
  | [] => [[]]
  | c :: s' =>
      if sep c then
        if inRun then splitRuns sep true s' else [] :: splitRuns sep true s'
      else
        match splitRuns sep false s' with
        | piece :: pieces => (c :: piece) :: pieces
        | [] => [[c]]
        end
  end.

(** ** The gloss extractor *)

(** [unicode.Han]: the range table comes with the Go release; the
    development is parametric in it. *)
Class UnicodeTables := { Han : rune -> bool }.

(** The runes a gloss may consist of: Han, '·' (U+00B7) and '—' (U+2014). *)
Definition glossRune `{UnicodeTables} (r : rune) : bool :=
  (Han r || (r =? 183) || (r =? 8212))%Z.

Fixpoint allGlossRunes `{UnicodeTables} (text : gostring) : bool :=
  match text with
  | [] => true
  | r :: text' =>
      if (negb (Han r) && negb (r =? 183) && negb (r =? 8212))%Z then false
      else allGlossRunes text'
  end.

Definition isAllChinese `{UnicodeTables} (text : gostring) : bool :=
  match text with
  | [] => false
  | _ :: _ => allGlossRunes text
  end.

(** The loop over [parts]; [chineseWords] is the slice appended to. *)
Fixpoint collectChinese `{UnicodeTables}
    (parts : list gostring) (chineseWords : list gostring) : list gostring :=
  match parts with
  | [] => chineseWords
  | part :: parts' =>
      let part := TrimSpace part in
      match part with
      | [] => collectChinese parts' chineseWords
      | _ :: _ =>
          if isAllChinese part then collectChinese parts' (chineseWords ++ [part])
          else collectChinese parts' chineseWords
      end
  end.

Definition extractChineseWords `{UnicodeTables} (translation : gostring) : list gostring :=
  let cleanTranslation := bracketReplace Outside translation in
  let parts := splitRuns isSeparator false cleanTranslation in
  collectChinese parts [].

(** *** The extractor as the specification words it *)

(** The closing bracket of an opening one: ']' for '[' and ')' for '('. *)
Definition closingBracket (c : rune) : option rune :=
  if (c =? 91)%Z then Some 93%Z else if (c =? 40)%Z then Some 41%Z else None.

(** The text after the first [close] of [s], when [s] holds one. *)
Fixpoint afterFirst (close : rune) (s : gostring) : option gostring :=
  match s with
  | [] => None
  | c :: s' => if (c =? close)%Z then Some s' else afterFirst close s'
  end.

(** The annotation spans removed, from left to right.  A span is an opening
    bracket, the runes up to the next closing bracket of its kind, and that
    bracket; an opening bracket that no closing bracket of its kind follows
    opens no span.  Every round consumes a rune or a span, so [fuel] as large
    as the text is enough. *)
Fixpoint removeSpans (fuel : nat) (s : gostring) : gostring :=
  match fuel, s with
  | S fuel', c :: s' =>
      match closingBracket c ≫= (fun close => afterFirst close s') with
      | Some rest => removeSpans fuel' rest
      | None => c :: removeSpans fuel' s'
      end
  | _, _ => s
  end.

Definition withoutAnnotations (s : gostring) : gostring := removeSpans (length s) s.

(** The comma variants ',' '，' '、' and the semicolon variants ';' '；'. *)
Definition commaVariant (c : rune) : bool :=
  ((c =? 44) || (c =? 65292) || (c =? 12289))%Z.

Definition semicolonVariant (c : rune) : bool := ((c =? 59) || (c =? 65307))%Z.

(** The white space of the syntax of regular expressions: tab, newline,
    form feed, carriage return and space. *)
Definition regexpSpace (c : rune) : bool :=
  ((c =? 9) || (c =? 10) || (c =? 12) || (c =? 13) || (c =? 32))%Z.

(** The text cut at every separator; [current] is the fragment being read.
    A run of separators leaves empty fragments, which are not kept. *)
Fixpoint fragments (separator : rune -> bool) (current s : gostring) : list gostring :=
  match s with
  | [] => [current]
  | c :: s' =>
      if separator c then current :: fragments separator [] s'
      else fragments separator (current ++ [c]) s'
  end.

(** The pieces of a split with [current] put before the first. *)
Definition attach (current : gostring) (pieces : list gostring) : list gostring :=
  match pieces with
  | [] => [current]
  | piece :: pieces' => (current ++ piece) :: pieces'
  end.

(** A fragment that is kept: not empty, and every rune a gloss rune. *)
Definition keptFragment `{UnicodeTables} (fragment : gostring) : bool :=
  negb (bool_decide (fragment = [])) && forallb glossRune fragment.

(** Remove the annotation spans, split on the comma variants, the semicolon
    variants and white space, trim each fragment, keep the fragments that
    qualify.  [space] says which runes are white space: [IsSpace] is that of
    Unicode. *)
Definition glossFragments `{UnicodeTables} (space : rune -> bool) (translation : gostring)
    : list gostring :=
  filter (fun fragment => keptFragment fragment = true)
    (map TrimSpace
       (fragments (fun c => commaVariant c || semicolonVariant c || space c) []
          (withoutAnnotations translation))).

(** The core ideographs, U+3400..U+4DBF and U+4E00..U+9FFF, which every
    release of the table contains; used to run the extractor on examples. *)
Definition coreHan : UnicodeTables :=
  {| Han := fun r => ((13312 <=? r) && (r <=? 19903) || (19968 <=? r) && (r <=? 40959))%Z |}.

(** ** The search history ([main.go]) *)

Definition maxHistorySize : nat := 20.

(** The scan of [addToHistory]: the first entry equal to [word] is spliced
    out, and the scan stops there. *)
Fixpoint spliceOut (word : gostring) (searchHistory : list gostring) : list gostring :=
  match searchHistory with
  | [] => []
  | w :: rest => if decide (w = word) then rest else w :: spliceOut word rest
  end.

(** [addToHistory], from the history before the call to the one after. *)
Definition addToHistory (word : gostring) (searchHistory : list gostring) : list gostring :=
  let searchHistory := spliceOut word searchHistory in
  let searchHistory := word :: searchHistory in
  if decide (maxHistorySize < length searchHistory)
  then take maxHistorySize searchHistory
  else searchHistory.

(** The history after a sequence of calls, oldest call first, from the empty
    history the program starts with. *)
Definition historyAfter (words : list gostring) : list gostring :=
  foldl (fun h w => addToHistory w h) [] words.

(** The first occurrence of every element, in order. *)
Fixpoint firstOccurrences (l : list gostring) : list gostring :=
  match l with
  | [] => []
  | x :: l' => x :: filter (fun y => y <> x) (firstOccurrences l')
  end.

(** The invariant of the history: no entry twice, at most twenty entries. *)
Definition historyInv (h : list gostring) : Prop :=
  NoDup h /\ length h <= maxHistorySize.

(** ** The store's text matching (SQLite) *)

(** Upper-case ASCII letters folded to lower case. *)
Definition toLowerASCII (c : rune) : rune :=
  if ((65 <=? c) && (c <=? 90))%Z then (c + 32)%Z else c.

(** Two runes are the same for LIKE when they are equal, or are both ASCII
    and equal up to the case of letters. *)
Definition likeRune (c d : rune) : bool :=
  ((c =? d) || ((c <? 128) && (d <? 128) && (toLowerASCII c =? toLowerASCII d)))%Z.

(** A rune as SQLite's reader of UTF-8 returns it: U+FFFE and U+FFFF come
    out as U+FFFD, the replacement character. *)
Definition utf8Read (c : rune) : rune :=
  if ((c =? 65534) || (c =? 65535))%Z then 65533%Z else c.

(** The text that LIKE compares.  The function takes its two operands as C
    strings, so each ends before its first U+0000, and reads them rune by
    rune. *)
Fixpoint cString (s : gostring) : gostring :=
  match s with
  | [] => []
  | c :: s' => if (c =? 0)%Z then [] else utf8Read c :: cString s'
  end.

(** The comparison behind LIKE, no ESCAPE clause: '%' (37) matches any run
    of runes, '_' (95) any single rune, every other rune itself up to ASCII
    case. *)
Fixpoint patternCompare (pattern s : gostring) : bool :=
  match pattern with
  | [] => match s with [] => true | _ :: _ => false end
  | c :: pattern' =>
      if (c =? 37)%Z then
        (fix anyRun (s : gostring) : bool :=
           patternCompare pattern' s
           || match s with [] => false | _ :: s' => anyRun s' end) s
      else
        match s with
        | [] => false
        | d :: s' => (likeRune c d || (c =? 95)%Z) && patternCompare pattern' s'
        end
  end.

(** [s LIKE pattern] *)
Definition like (pattern s : gostring) : bool :=
  patternCompare (cString pattern) (cString s).

(** A table as the searches see it: the key column ([word], [chinese]) of its
    rows in the order the store enumerates them, and, for the three queries of
    a search, whether the query returns an error. *)
Record Table : Type := {
  rows : list gostring;
  queryFails : nat -> bool
}.

(** [SELECT (DISTINCT) key FROM table WHERE cond LIMIT limit], the [tier]-th
    query of a search; [None] is a non-nil error. *)
Definition query (db : Table) (distinct : bool) (tier : nat)
    (cond : gostring -> bool) (limit : nat) : option (list gostring) :=
  if queryFails db tier then None
  else
    let matching := filter (fun k => cond k = true) (rows db) in
    Some (take limit (if distinct then firstOccurrences matching else matching)).

(** The loop over [rows.Next()]: a key not yet seen is appended and marked. *)
Fixpoint scanRows (found : list gostring) (results : list gostring) (seen : gset gostring)
    : list gostring * gset gostring :=
  match found with
  | [] => (results, seen)
  | word :: found' =>
      if decide (word ∈ seen) then scanRows found' results seen
      else scanRows found' (results ++ [word]) ({[word]} ∪ seen)
  end.

(** One tier: run the query, and scan its rows unless it failed. *)
Definition runTier (q : option (list gostring)) (st : list gostring * gset gostring)
    : list gostring * gset gostring :=
  match q with
  | Some found => scanRows found st.1 st.2
  | None => st
  end.

(** The state between tiers: the results so far are duplicate-free and
    [seen] is their set. *)
Definition searchInv (st : list gostring * gset gostring) : Prop :=
  NoDup st.1 /\ st.2 = list_to_set st.1.

(** The body shared by [searchEnglish] and [searchChinese]; the two differ in
    the table, the column and DISTINCT. *)
Definition tieredSearch (db : Table) (distinct : bool) (keyword : gostring) : list gostring :=
  let limit := 100 in
  (* 1: key = keyword *)
  let st := runTier (query db distinct 1 (fun k => bool_decide (k = keyword)) limit) ([], ∅) in
  if decide (limit <= length st.1) then st.1 else
  (* 2: key LIKE keyword% AND key != keyword *)
  let remaining := limit - length st.1 in
  let st := runTier (query db distinct 2
                       (fun k => like (keyword ++ [37%Z]) k && negb (bool_decide (k = keyword)))
                       remaining) st in
  if decide (limit <= length st.1) then st.1 else
  (* 3: key LIKE %keyword% AND key NOT LIKE keyword% *)
  let remaining := limit - length st.1 in
  let st := runTier (query db distinct 3
                       (fun k => like (37%Z :: keyword ++ [37%Z]) k && negb (like (keyword ++ [37%Z]) k))
                       remaining) st in
  st.1.

Definition searchEnglish (englishDB : Table) (keyword : gostring) : list gostring :=
  tieredSearch englishDB false keyword.

Definition searchChinese (chineseDB : Table) (keyword : gostring) : list gostring :=
  tieredSearch chineseDB true keyword.

(** *** The tiers as the specification words them *)

(** [k] starts with [q], rune for rune. *)
Fixpoint startsWith (q k : gostring) : bool :=
  match q, k with
  | [], _ => true
  | c :: q', d :: k' => (c =? d)%Z && startsWith q' k'
  | _ :: _, [] => false
  end.

(** [k] contains [q]. *)
Fixpoint containsStr (q k : gostring) : bool :=
  startsWith q k || match k with [] => false | _ :: k' => containsStr q k' end.

Definition exactMatch (q k : gostring) : Prop := k = q.
Definition prefixOnly (q k : gostring) : Prop := startsWith q k = true /\ k <> q.
Definition substringOnly (q k : gostring) : Prop :=
  containsStr q k = true /\ startsWith q k = false.

(** Every key of class [P] comes before every key of class [Q]. *)
Definition allBefore (P Q : gostring -> Prop) (results : list gostring) : Prop :=
  forall i j ki kj,
    results !! i = Some ki -> results !! j = Some kj -> P ki -> Q kj -> i < j.

Definition tierOrdered (q : gostring) (results : list gostring) : Prop :=
  allBefore (exactMatch q) (prefixOnly q) results
  /\ allBefore (prefixOnly q) (substringOnly q) results
  /\ allBefore (exactMatch q) (substringOnly q) results.

(** The same tiers with the letters of ASCII compared without regard to
    case, as LIKE compares them. *)
Fixpoint startsWithFold (q k : gostring) : bool :=
  match q, k with
  | [], _ => true
  | c :: q', d :: k' => likeRune c d && startsWithFold q' k'
  | _ :: _, [] => false
  end.

Fixpoint containsFold (q k : gostring) : bool :=
  startsWithFold q k || match k with [] => false | _ :: k' => containsFold q k' end.

Definition prefixOnlyFold (q k : gostring) : Prop := startsWithFold q k = true /\ k <> q.
Definition substringOnlyFold (q k : gostring) : Prop :=
  containsFold q k = true /\ startsWithFold q k = false.

Definition tierOrderedFold (q : gostring) (results : list gostring) : Prop :=
  allBefore (exactMatch q) (prefixOnlyFold q) results
  /\ allBefore (prefixOnlyFold q) (substringOnlyFold q) results
  /\ allBefore (exactMatch q) (substringOnlyFold q) results.

(** The keyword is matched rune for rune: none of its runes is a LIKE
    wildcard, U+0000, or one of U+FFFD, U+FFFE and U+FFFF. *)
Definition literalKeyword (q : gostring) : Prop :=
  Forall (fun c => c <> 37%Z /\ c <> 95%Z /\ c <> 0%Z /\ ~ (65533 <= c <= 65535)%Z) q.

(** A key that LIKE reads as it is written, with no rune of ASCII: every
    rune is U+0080 or above and none is U+FFFD, U+FFFE or U+FFFF. *)
Definition plainKey (k : gostring) : Prop :=
  Forall (fun d => (128 <= d)%Z /\ ~ (65533 <= d <= 65535)%Z) k.

(** ** Reading the corpus ([encoding/csv]) *)

(** What one [reader.Read()] after the header returns before [io.EOF]: a
    record, or an error other than [io.EOF] (a malformed row, or a row whose
    number of fields differs from the header's). *)
Inductive csvRead : Type :=
  | ReadRecord (record : list gostring)
  | ReadError.

(** [record[i]]; the builders index only records of 13 fields or more. *)
Definition field (record : list gostring) (i : nat) : gostring :=
  default [] (record !! i).

(** The reading loop of [CreateEnglishDB]; the end of the list is [io.EOF]. *)
Fixpoint readEnglish (input : list csvRead) (allRecords : list (list gostring))
    : list (list gostring) :=
  match input with
  | [] => allRecords
  | ReadError :: input' => readEnglish input' allRecords
  | ReadRecord record :: input' =>
      if decide (13 <= length record) then readEnglish input' (allRecords ++ [record])
      else readEnglish input' allRecords
  end.

(** The reading loop of [CreateChineseDB]. *)
Fixpoint readChinese (input : list csvRead) (allRecords : list (list gostring))
    : list (list gostring) :=
  match input with
  | [] => allRecords
  | ReadError :: input' => readChinese input' allRecords
  | ReadRecord record :: input' =>
      if decide (13 <= length record /\ field record 3 <> [])
      then readChinese input' (allRecords ++ [record])
      else readChinese input' allRecords
  end.

(** The rows read without error, in order. *)
Definition recordsOf (input : list csvRead) : list (list gostring) :=
  omap (fun r => match r with ReadRecord record => Some record | ReadError => None end) input.

(** A row of the table [words]. *)
Record Word : Type := {
  Word_ : gostring;
  Phonetic : gostring;
  Definition_ : gostring;
  Translation : gostring;
  Bnc : gostring
}.

(** The arguments of the INSERT of [CreateEnglishDB] for one record. *)
Definition insertArgs (record : list gostring) : Word :=
  {| Word_ := field record 0;
     Phonetic := field record 1;
     Definition_ := field record 2;
     Translation := field record 3;
     Bnc := field record 8 |}.

(** The rows [CreateEnglishDB] hands to the INSERT statement, in corpus
    order.  The workers commit their batches in no fixed order, which is not
    modelled. *)
Definition englishRows (input : list csvRead) : list Word :=
  map insertArgs (readEnglish input []).

(** ** Iteration order and sorting *)

Section Order.
Context {A : Type}.

Fixpoint insertAt (n : nat) (x : A) (l : list A) : list A :=
  match n, l with
  | 0, _ => x :: l
  | S n', y :: l' => y :: insertAt n' x l'
  | S _, [] => [x]
  end.

(** A reordering of [l] directed by a list of choices, one per element:
    the position at which the element goes into the reordered rest.  Every
    order of [l] is the result of some choices. *)
Fixpoint reorder (choices : list nat) (l : list A) : list A :=
  match l with
  | [] => []
  | x :: l' => insertAt (hd 0 choices) x (reorder (tl choices) l')
  end.

Variable less : A -> A -> bool.

Fixpoint insertSorted (x : A) (l : list A) : list A :=
  match l with
  | [] => [x]
  | y :: l' => if less y x then y :: insertSorted x l' else x :: y :: l'
  end.

(** [sort.Slice]: the elements in an order in which [less] never puts a
    later one before an earlier one.  The sort promises no stability: which
    such order comes out is selected by [choices]; with no choices it is the
    insertion sort that keeps equal elements in the order it finds them. *)
Definition sortSlice (choices : list nat) (l : list A) : list A :=
  foldr insertSorted [] (reorder choices l).
End Order.

(** [for k, v := range m]: the entries of the map in an order that the
    language leaves open; [choices] selects it.  A release of the runtime
    yields only some of these orders, so what holds for every choice holds
    for every run, while an order is a run's only if the runtime produces
    it. *)
Definition rangeMap {V : Type} (choices : list nat) (m : gmap (list Z) V)
    : list (list Z * V) :=
  reorder choices (map_to_list m).

(** ** The reverse index ([CreateChineseDB]) *)

Record engInfo : Type := {
  word : gostring;
  def : gostring;
  bnc : Z
}.

(** [strings.Join] *)
Fixpoint Join (elems : list gostring) (sep : gostring) : gostring :=
  match elems with
  | [] => []
  | e :: rest =>
      match rest with
      | [] => e
      | _ :: _ => e ++ sep ++ Join rest sep
      end
  end.

(** The segment of one word: the word, then its translation between '（'
    (U+FF08) and '）' (U+FF09). *)
Definition formatEntry (info : engInfo) : gostring :=
  word info ++ [65288%Z] ++ def info ++ [65289%Z].

(** The choices that a run of the builder leaves to the map iteration and
    to the sort: the order of the glosses, and per gloss the order of its
    words and the sort's treatment of equal ranks. *)
Record Schedule : Type := {
  glossOrder : list nat;
  wordOrder : gostring -> list nat;
  sortOrder : gostring -> list nat
}.

Section ReverseIndex.
Context `{UnicodeTables}.

(** The body of the loop over [chineseWords]. *)
Definition addGloss (englishWord translation : gostring)
    (chineseMap : gmap (list Z) (gmap (list Z) (list Z))) (chWord : gostring)
    : gmap (list Z) (gmap (list Z) (list Z)) :=
  let chineseMap :=
    match chineseMap !! chWord with
    | None => <[chWord := ∅]> chineseMap
    | Some _ => chineseMap
    end in
  let engMap := default ∅ (chineseMap !! chWord) in
  match engMap !! englishWord with
  | Some _ => chineseMap
  | None => <[chWord := <[englishWord := translation]> engMap]> chineseMap
  end.

(** The translation stored for the pair ([chWord], [englishWord]). *)
Definition stored (chineseMap : gmap (list Z) (gmap (list Z) (list Z)))
    (chWord englishWord : gostring) : option gostring :=
  chineseMap !! chWord ≫= (fun engMap => engMap !! englishWord).

Definition addRecord (chineseMap : gmap (list Z) (gmap (list Z) (list Z)))
    (record : list gostring) : gmap (list Z) (gmap (list Z) (list Z)) :=
  let englishWord := field record 0 in
  let translation := field record 3 in
  foldl (addGloss englishWord translation) chineseMap (extractChineseWords translation).

Definition buildChineseMap (allRecords : list (list gostring))
    : gmap (list Z) (gmap (list Z) (list Z)) :=
  foldl addRecord ∅ allRecords.

Definition addBnc (bncMap : gmap (list Z) Z) (record : list gostring) : gmap (list Z) Z :=
  let englishWord := field record 0 in
  match bncMap !! englishWord with
  | Some _ => bncMap
  | None => <[englishWord := parseBNC (field record 8)]> bncMap
  end.

Definition buildBncMap (allRecords : list (list gostring)) : gmap (list Z) Z :=
  foldl addBnc ∅ allRecords.

(** The element appended to [engList] for one entry of [engMap]. *)
Definition mkInfo (bncMap : gmap (list Z) Z) (entry : list Z * list Z) : engInfo :=
  let '(engWord, cnTranslation) := entry in
  {| word := engWord;
     def := cnTranslation;
     bnc := default unranked (bncMap !! engWord) |}.

(** [engList] of one gloss after the sort. *)
Definition rankedWords (sched : Schedule) (bncMap : gmap (list Z) Z)
    (chWord : gostring) (engMap : gmap (list Z) (list Z)) : list engInfo :=
  let engList := map (mkInfo bncMap) (rangeMap (wordOrder sched chWord) engMap) in
  sortSlice (fun a b => (bnc a <? bnc b)%Z) (sortOrder sched chWord) engList.

(** The row written for one gloss: [chWord] and [englishWords]. *)
Definition glossRow (sched : Schedule) (bncMap : gmap (list Z) Z)
    (entry : list Z * gmap (list Z) (list Z)) : gostring * gostring :=
  let '(chWord, engMap) := entry in
  let englishEntries := map formatEntry (rankedWords sched bncMap chWord engMap) in
  (chWord, Join englishEntries [10%Z]).

(** The rows [CreateChineseDB] inserts into a table [chinese_words] that
    starts empty, in the order of the inserts. *)
Definition CreateChineseDB (input : list csvRead) (sched : Schedule)
    : list (gostring * gostring) :=
  let allRecords := readChinese input [] in
  let chineseMap := buildChineseMap allRecords in
  let bncMap := buildBncMap allRecords in
  map (glossRow sched bncMap) (rangeMap (glossOrder sched) chineseMap).

(** The ranked words behind the row of [chWord]; empty when there is no
    such row. *)
Definition indexEntries (input : list csvRead) (sched : Schedule) (chWord : gostring)
    : list engInfo :=
  let allRecords := readChinese input [] in
  match buildChineseMap allRecords !! chWord with
  | Some engMap => rankedWords sched (buildBncMap allRecords) chWord engMap
  | None => []
  end.

(** *** The corpus as the specification sees it *)

(** The record is an observation of the pair ([chWord], [englishWord]). *)
Definition observes (chWord englishWord : gostring) (record : list gostring) : Prop :=
  field record 0 = englishWord /\ chWord ∈ extractChineseWords (field record 3).

(** The translations observed for the pair, in corpus order. *)
Definition observations (allRecords : list (list gostring)) (chWord englishWord : gostring)
    : list gostring :=
  map (fun record => field record 3) (filter (observes chWord englishWord) allRecords).

(** The source words of a gloss in the order of their first observation. *)
Definition firstObserved (allRecords : list (list gostring)) (chWord : gostring)
    : list gostring :=
  firstOccurrences
    (map (fun record => field record 0)
       (filter (fun record => chWord ∈ extractChineseWords (field record 3)) allRecords)).

(** The FrequencyRank of a source word: that of its first record. *)
Definition frequencyRank (allRecords : list (list gostring)) (englishWord : gostring)
    : option Z :=
  (fun record => parseBNC (field record 8))
    <$> head (filter (fun record => field record 0 = englishWord) allRecords).

(** Position of a word in a list of words. *)
Fixpoint position (w : gostring) (l : list gostring) : nat :=
  match l with
  | [] => 0
  | x :: l' => if decide (x = w) then 0 else S (position w l')
  end.

(** Words of equal rank stand in the order of their first observation. *)
Definition tiesInObservedOrder (allRecords : list (list gostring)) (chWord : gostring)
    (entries : list engInfo) : Prop :=
  forall i j a b,
    entries !! i = Some a -> entries !! j = Some b -> bnc a = bnc b ->
    position (word a) (firstObserved allRecords chWord)
      < position (word b) (firstObserved allRecords chWord) ->
    i < j.
End ReverseIndex.

(** A record of 13 fields with the given word, translation and frequency. *)
Definition mkRecord (w t f : gostring) : list gostring :=
  [w; []; []; t; []; []; []; []; f; []; []; []; []].

(** No reordering: all choices 0. *)
Definition plainSchedule : Schedule :=
  {| glossOrder := []; wordOrder := fun _ => []; sortOrder := fun _ => [] |}.

(** ** Data of the examples *)

(** The table of the counterexample: "Aa" and "ab", no failing query. *)
Definition tableAaab : Table :=
  {| rows := [[65; 97]; [97; 98]]%Z; queryFails := fun _ => false |}.

(** The words of the scenario: like, likely, dislike. *)
Definition tableLike : Table :=
  {| rows := [[100; 105; 115; 108; 105; 107; 101]; [108; 105; 107; 101];
              [108; 105; 107; 101; 108; 121]]%Z;
     queryFails := fun _ => false |}.

(** "a" translated 好 with frequency 25, a failed read, "b" translated
    好,美 with frequency 3, and "a" again, translated 美好, frequency 7. *)
Definition corpusAB : list csvRead :=
  [ReadRecord (mkRecord [97] [22909] [50; 53]); ReadError;
   ReadRecord (mkRecord [98] [22909; 44; 32654] [51]);
   ReadRecord (mkRecord [97] [32654; 22909] [55])]%Z.

(** A row of 13 fields whose translation is empty. *)
Definition untranslated : list gostring := mkRecord [122]%Z [] [49]%Z.

(** The corpus of the counterexample: "a" and "b", both translated 好, both
    of frequency 5, "a" first. *)
Definition corpusTie : list csvRead :=
  [ReadRecord (mkRecord [97] [22909] [53]); ReadRecord (mkRecord [98] [22909] [53])]%Z.

(** The row of 好 for [corpusTie] when "b" comes first: "b（好）", a
    newline, "a（好）". *)
Definition rowTie : gostring :=
  [98; 65288; 22909; 65289; 10; 97; 65288; 22909; 65289]%Z.

(** A corpus with two different ranks among three words: "a" of frequency
    3, "b" and "c" of frequency 5, all translated 好. *)
Definition corpusRanks : list csvRead :=
  [ReadRecord (mkRecord [97] [22909] [51]); ReadRecord (mkRecord [98] [22909] [53]);
   ReadRecord (mkRecord [99] [22909] [53])]%Z.

(** Two runs that differ in the order in which the words of a gloss are
    visited; neither leaves the sort a choice. *)
Definition scheduleBA : Schedule :=
  {| glossOrder := []; wordOrder := fun _ => [0; 0]; sortOrder := fun _ => [] |}.

Definition scheduleAB : Schedule :=
  {| glossOrder := []; wordOrder := fun _ => [1; 0]; sortOrder := fun _ => [] |}.

(** The row of 好 for [corpusAB]: "b（好,美）", a newline, "a（好）". *)
Definition rowHao : gostring :=
  [98; 65288; 22909; 44; 32654; 65289; 10; 97; 65288; 22909; 65289]%Z.


(** * Further parts of the program *)

(** ** Choosing the index ([main.go]) *)

(** [isChinese]: some rune of the text is Han. *)
Fixpoint isChinese `{UnicodeTables} (text : gostring) : bool :=
  match text with
  | [] => false
  | r :: text' => if Han r then true else isChinese text'
  end.

(** The search of the input field's change handler: nothing for a text that
    is empty after trimming (the list then shows the history or random
    words); otherwise the gloss index for a text with a Han rune and the
    word index for any other. *)
Definition searchResultsFor `{UnicodeTables} (englishDB chineseDB : Table) (text : gostring)
    : option (list gostring) :=
  let searchText := TrimSpace text in
  match searchText with
  | [] => None
  | _ :: _ =>
      Some (if isChinese searchText then searchChinese chineseDB searchText
            else searchEnglish englishDB searchText)
  end.

(** The rows that a query returns before LIMIT: the matching keys in the
    store's order, each once under DISTINCT. *)
Definition matching (db : Table) (distinct : bool) (cond : gostring -> bool)
    : list gostring :=
  let found := filter (fun k => cond k = true) (rows db) in
  if distinct then firstOccurrences found else found.

(** The answer of a search that is not cut short: the keys equal to the
    keyword, then the other keys that match the keyword followed by '%',
    then the keys that match only with a '%' before the keyword too, as the
    three queries match and order them. *)
Definition uncapped (db : Table) (distinct : bool) (keyword : gostring) : list gostring :=
  matching db distinct (fun k => bool_decide (k = keyword))
  ++ matching db distinct
       (fun k => like (keyword ++ [37%Z]) k && negb (bool_decide (k = keyword)))
  ++ matching db distinct
       (fun k => like (37%Z :: keyword ++ [37%Z]) k && negb (like (keyword ++ [37%Z]) k)).

(** ** What the extractor leaves behind *)

(** [bracketRegex] has a match in [s]: a '[' with a ']' somewhere after it,
    or a '(' with a ')' somewhere after it. *)
Fixpoint hasAnnotation (s : gostring) : bool :=
  match s with
  | [] => false
  | c :: s' =>
      ((c =? 91) && existsb (Z.eqb 93) s')%Z
      || ((c =? 40) && existsb (Z.eqb 41) s')%Z
      || hasAnnotation s'
  end.

(** The gloss table after a build from [corpusAB], in the order of the
    inserts, with no failing query. *)
Definition tableAB : Table :=
  {| rows := (@CreateChineseDB coreHan corpusAB plainSchedule).*1;
     queryFails := fun _ => false |}.

(** ** The forward index ([CreateEnglishDB]) *)

(** The loop that sends the batches: [allRecords[i:end]] for [i] = 0,
    [batchSize], twice that and so on while [i] is below the number of
    records.  With a positive [batchSize] the loop ends within as many rounds
    as there are records, which is the [fuel] given by [recordBatches]. *)
Fixpoint sendBatches (fuel batchSize i : nat) (allRecords : list (list gostring))
    : list (list (list gostring)) :=
  match fuel with
  | 0 => []
  | S fuel' =>
      if decide (i < length allRecords) then
        let end_ :=
          if decide (length allRecords < i + batchSize) then length allRecords
          else i + batchSize in
        take (end_ - i) (drop i allRecords)
          :: sendBatches fuel' batchSize (i + batchSize) allRecords
      else []
  end.

Definition recordBatches (batchSize : nat) (allRecords : list (list gostring))
    : list (list (list gostring)) :=
  sendBatches (length allRecords) batchSize 0 allRecords.

(** What the store does with the inserts of a build, per batch in the order
    of sending: whether the transaction can be begun and its statement
    prepared, whether the INSERT of the [i]-th record of the batch succeeds,
    and whether the commit succeeds. *)
Record InsertStore : Type := {
  batchOpens : nat -> bool;
  rowInserts : nat -> nat -> bool;
  batchCommits : nat -> bool
}.

(** The loop over the records of a batch: the rows whose INSERT succeeded;
    [batchCount] is their number. *)
Fixpoint execRows (ok : nat -> bool) (i : nat) (batch : list (list gostring)) : list Word :=
  match batch with
  | [] => []
  | record :: batch' =>
      if ok i then insertArgs record :: execRows ok (S i) batch'
      else execRows ok (S i) batch'
  end.

(** One round of a worker for the [n]-th batch: the rows that reach the
    table, and the [batchCount] added to [totalCount].  The result of the
    commit is not looked at: the rows of a failed commit are counted. *)
Definition insertBatch (store : InsertStore) (n : nat) (batch : list (list gostring))
    : list Word * nat :=
  if batchOpens store n then
    let inserted := execRows (rowInserts store n) 0 batch in
    (if batchCommits store n then inserted else [], length inserted)
  else ([], 0).

Fixpoint workBatches (store : InsertStore) (n : nat) (batches : list (list (list gostring)))
    : list (list Word * nat) :=
  match batches with
  | [] => []
  | batch :: batches' => insertBatch store n batch :: workBatches store (S n) batches'
  end.

(** [CreateEnglishDB] once the header is read: the rows of the table [words]
    after the build, in the order of their insertion, and [totalCount].  The
    file is opened for reading, writing and creation and the table is created
    only if it does not exist, so the rows that the table [words] holds when
    the build starts stay, and the build adds to them.  The workers hold the
    lock from begin to commit, so the batches reach the table one after the
    other, in an order that the scheduling decides and [commitOrder]
    selects. *)
Definition CreateEnglishDB (words : list Word) (input : list csvRead) (store : InsertStore)
    (commitOrder : list nat) : list Word * nat :=
  let allRecords := readEnglish input [] in
  let batchSize := 1000 in
  let done := reorder commitOrder (workBatches store 0 (recordBatches batchSize allRecords)) in
  (words ++ concat (map fst done), foldr Nat.add 0 (map snd done)).

(** A store on which nothing fails. *)
Definition soundStore : InsertStore :=
  {| batchOpens := fun _ => true; rowInserts := fun _ _ => true; batchCommits := fun _ => true |}.


(** ** The detail view ([main.go]) *)

(** [strings.ReplaceAll(s, old, new)] for a non-empty [old], scanning from
    the left: where [old] starts, [new] is put out and the runes of [old]
    are skipped ([skip] counts those still to skip); matches do not
    overlap. *)
Fixpoint replaceFrom (old new : gostring) (skip : nat) (s : gostring) : gostring :=
  match s with
  | [] => []
  | c :: s' =>
      match skip with
      | S skip' => replaceFrom old new skip' s'
      | 0 =>
          if startsWith old s then new ++ replaceFrom old new (length old - 1) s'
          else c :: replaceFrom old new 0 s'
      end
  end.

(** [strings.ReplaceAll]; with an empty [old], [new] goes in front of the
    string and after each of its runes. *)
Definition ReplaceAll (s old new : gostring) : gostring :=
  match old with
  | [] => new ++ concat (map (fun c => c :: new) s)
  | _ :: _ => replaceFrom old new 0 s
  end.

(** [cleanNewlines]: the two-rune escapes written backslash-r and
    backslash-n, alone or as a pair, become '；' (U+FF1B); then the string is
    trimmed.  Backslash is 92, 'n' is 110, 'r' is 114. *)
Definition cleanNewlines (s : gostring) : gostring :=
  let s := ReplaceAll s [92; 114; 92; 110]%Z [65307%Z] in
  let s := ReplaceAll s [92; 110]%Z [65307%Z] in
  let s := ReplaceAll s [92; 114]%Z [65307%Z] in
  TrimSpace s.

(** [strings.Split(s, sep)] for a non-empty [sep]: the pieces between the
    occurrences of [sep], found from the left without overlap; always at
    least one piece. *)
Fixpoint splitFrom (sep : gostring) (skip : nat) (s : gostring) : list gostring :=
  match s with
  | [] => [[]]
  | c :: s' =>
      match skip with
      | S skip' => splitFrom sep skip' s'
      | 0 =>
          if startsWith sep s then [] :: splitFrom sep (length sep - 1) s'
          else
            match splitFrom sep 0 s' with
            | piece :: pieces => (c :: piece) :: pieces
            | [] => [[c]]
            end
      end
  end.

(** [strings.Split]; an empty [sep] splits after each rune. *)
Definition Split (s sep : gostring) : list gostring :=
  match sep with
  | [] => map (fun c => [c]) s
  | _ :: _ => splitFrom sep 0 s
  end.

(** The decimal digits of a number, as the verb [%d] prints them. *)
Fixpoint uintRunes (d : Decimal.uint) : gostring :=
  match d with
  | Decimal.Nil => []
  | Decimal.D0 d' => 48%Z :: uintRunes d'
  | Decimal.D1 d' => 49%Z :: uintRunes d'
  | Decimal.D2 d' => 50%Z :: uintRunes d'
  | Decimal.D3 d' => 51%Z :: uintRunes d'
  | Decimal.D4 d' => 52%Z :: uintRunes d'
  | Decimal.D5 d' => 53%Z :: uintRunes d'
  | Decimal.D6 d' => 54%Z :: uintRunes d'
  | Decimal.D7 d' => 55%Z :: uintRunes d'
  | Decimal.D8 d' => 56%Z :: uintRunes d'
  | Decimal.D9 d' => 57%Z :: uintRunes d'
  end.

Definition formatInt (n : nat) : gostring := uintRunes (Nat.to_uint n).

(** The texts of [showChineseDetail], in the order of the source: the prefix
    of an error, the text of [sql.ErrNoRows], the opening of the title line,
    the closing tag, the heading of the words, the two parts of the format of
    a numbered line, and the line for a gloss without words. *)
Definition errPrefix : gostring := [26597; 35810; 20986; 38169; 58; 32]%Z.
Definition errNoRows : gostring :=
  [115; 113; 108; 58; 32; 110; 111; 32; 114; 111; 119; 115; 32; 105; 110; 32;
   114; 101; 115; 117; 108; 116; 32; 115; 101; 116]%Z.
Definition titleOpen : gostring :=
  [91; 121; 101; 108; 108; 111; 119; 93; 20013; 25991; 58; 91; 45; 93; 32;
   91; 119; 104; 105; 116; 101; 58; 58; 98; 93]%Z.
Definition tagClose : gostring := [91; 45; 93]%Z.
Definition wordsHeading : gostring :=
  [91; 121; 101; 108; 108; 111; 119; 93; 23545; 24212; 30340; 33521; 25991;
   21333; 35789; 58; 91; 45; 93]%Z.
Definition numOpen : gostring := [91; 103; 114; 101; 101; 110; 93]%Z.
Definition numClose : gostring := [46; 91; 45; 93; 32; 91; 99; 121; 97; 110; 93]%Z.
Definition notFound : gostring :=
  [91; 114; 101; 100; 93; 26410; 25214; 21040; 23545; 24212; 30340; 33521;
   25991; 21333; 35789; 91; 45; 93]%Z.

(** The line of the [n]-th word. *)
Definition numberedLine (n : nat) (word : gostring) : gostring :=
  numOpen ++ formatInt n ++ numClose ++ word ++ tagClose.

(** The loop over [words]; [i] is the index of the first of them. *)
Fixpoint numberWords (i : nat) (words : list gostring) (details : list gostring)
    : list gostring :=
  match words with
  | [] => details
  | word :: words' =>
      let word := TrimSpace word in
      match word with
      | [] => numberWords (S i) words' details
      | _ :: _ =>
          let word := cleanNewlines word in
          numberWords (S i) words' (details ++ [numberedLine (i + 1) word])
      end
  end.

(** [QueryRow] with [Scan] on the table [chinese_words]: the list of words
    of the first row of the gloss; [None] is [sql.ErrNoRows]. *)
Definition queryEnglishWords (table : list (gostring * gostring)) (chinese : gostring)
    : option gostring :=
  snd <$> head (filter (fun row => row.1 = chinese) table).

(** The lines of [showChineseDetail] for a gloss that has a row. *)
Definition chineseDetails (chinese englishWords : gostring) : list gostring :=
  let details := [titleOpen ++ chinese ++ tagClose; []; wordsHeading; []] in
  let words := Split englishWords [10%Z] in
  let details := numberWords 0 words details in
  if decide (length words = 0) then details ++ [notFound] else details.

(** [showChineseDetail] over the rows of the table [chinese_words]. *)
Definition showChineseDetail (table : list (gostring * gostring)) (chinese : gostring)
    : gostring :=
  match queryEnglishWords table chinese with
  | None => errPrefix ++ errNoRows
  | Some englishWords => Join (chineseDetails chinese englishWords) [10%Z]
  end.

(** The texts of [showEnglishDetail]: the opening of the title line, the
    label of the phonetic line, the headings of the definitions and of the
    translations, the bullet, and the label of the frequency line. *)
Definition wordOpen : gostring :=
  [91; 121; 101; 108; 108; 111; 119; 93; 21333; 35789; 58; 91; 45; 93; 32;
   91; 119; 104; 105; 116; 101; 58; 58; 98; 93]%Z.
Definition phoneticOpen : gostring :=
  [91; 121; 101; 108; 108; 111; 119; 93; 38899; 26631; 58; 91; 45; 93; 32]%Z.
Definition definitionHeading : gostring :=
  [91; 121; 101; 108; 108; 111; 119; 93; 33521; 25991; 37322; 20041; 58; 91; 45; 93]%Z.
Definition translationHeading : gostring :=
  [91; 121; 101; 108; 108; 111; 119; 93; 20013; 25991; 37322; 20041; 58; 91; 45; 93]%Z.
Definition bullet : gostring :=
  [32; 32; 91; 103; 114; 101; 101; 110; 93; 8226; 91; 45; 93; 32]%Z.
Definition bncOpen : gostring :=
  [91; 121; 101; 108; 108; 111; 119; 93; 66; 78; 67; 35789; 39057; 58; 91; 45; 93; 32]%Z.

(** The loop over the lines of a definition or translation: a bullet for
    every line that is not blank. *)
Fixpoint bulletLines (defs : list gostring) (details : list gostring) : list gostring :=
  match defs with
  | [] => details
  | def :: defs' =>
      match TrimSpace def with
      | [] => bulletLines defs' details
      | _ :: _ => bulletLines defs' (details ++ [bullet ++ TrimSpace def])
      end
  end.

(** One block of [showEnglishDetail]: the heading, the text with its
    backslash-n escapes turned into newlines and split at the newlines, and
    an empty line. *)
Definition detailBlock (heading text : gostring) (details : list gostring) : list gostring :=
  let details := details ++ [heading] in
  let defText := ReplaceAll text [92; 110]%Z [10%Z] in
  let defs := Split defText [10%Z] in
  bulletLines defs details ++ [[]].

(** The lines of [showEnglishDetail] for the row found. *)
Definition englishDetails (w : Word) : list gostring :=
  let details := [wordOpen ++ Word_ w ++ tagClose; []] in
  let details :=
    match Phonetic w with
    | [] => details
    | _ :: _ => details ++ [phoneticOpen ++ Phonetic w; []]
    end in
  let details :=
    match Definition_ w with
    | [] => details
    | _ :: _ => detailBlock definitionHeading (Definition_ w) details
    end in
  let details :=
    match Translation w with
    | [] => details
    | _ :: _ => detailBlock translationHeading (Translation w) details
    end in
  if decide (Bnc w <> [] /\ Bnc w <> [48%Z]) then details ++ [bncOpen ++ Bnc w]
  else details.

(** [QueryRow] with [Scan] on the table [words]: the first row of the word;
    [None] is [sql.ErrNoRows]. *)
Definition queryWord (table : list Word) (word : gostring) : option Word :=
  head (filter (fun row => Word_ row = word) table).

Definition showEnglishDetail (table : list Word) (word : gostring) : gostring :=
  match queryWord table word with
  | None => errPrefix ++ errNoRows
  | Some w => Join (englishDetails w) [10%Z]
  end.
(** * Results *)

(** ** Frequency parsing *)

Example parseBNC_25 : parseBNC [32; 50; 53; 10]%Z = 25%Z.
Proof. reflexivity. Qed.

Example parseBNC_empty : parseBNC [32; 9]%Z = 1073741824%Z.
Proof. reflexivity. Qed.

Example parseBNC_word : parseBNC [110; 47; 97]%Z = 1073741824%Z.
Proof. reflexivity. Qed.

Example parseBNC_huge :
  parseBNC [57; 57; 57; 57; 57; 57; 57; 57; 57; 57; 57; 57; 57; 57; 57; 57; 57; 57; 57; 57]%Z
  = 1073741824%Z.
Proof. reflexivity. Qed.

Lemma unranked_value : unranked = 1073741824%Z.
Proof. reflexivity. Qed.

Lemma Atoi_nonempty s n : Atoi s = Some n -> s <> [].
Proof. intros H ->. discriminate H. Qed.

Lemma parseBNC_noRank bnc : noRank bnc -> parseBNC bnc = unranked.
Proof.
  unfold noRank, parseBNC.
  intros [H | [H | H]]; rewrite H; [reflexivity | | ].
  - destruct (TrimSpace bnc); reflexivity.
  - destruct (TrimSpace bnc); reflexivity.
Qed.

Lemma parseBNC_parsed bnc n :
  Atoi (TrimSpace bnc) = Some n -> n <> 0%Z -> parseBNC bnc = n.
Proof.
  intros H Hn. unfold parseBNC.
  pose proof (Atoi_nonempty _ _ H) as Hne.
  rewrite H. destruct (TrimSpace bnc); [congruence |].
  destruct (Z.eqb_spec n 0); [contradiction | reflexivity].
Qed.

(** C4.  The code breaks the claim, and the comment of [parseBNC], which
    says that an empty, invalid or zero value counts as the maximum and sorts
    last.  The string "2000000000" holds a valid positive rank; the empty
    string has no rank and gets the sentinel [1 << 30], which is the smaller
    of the two: the string without a rank sorts first, not last. *)
Lemma parseBNC_sentinel_not_last :
  let big := [50; 48; 48; 48; 48; 48; 48; 48; 48; 48]%Z in
  noRank [] /\ hasRank big 2000000000
  /\ parseBNC [] = unranked /\ parseBNC big = 2000000000%Z
  /\ ~ (parseBNC big < parseBNC [])%Z.
Proof.
  cbv zeta. split_and!; try reflexivity.
  - left. reflexivity.
  - split; reflexivity.
  - intros Hlt. vm_compute in Hlt. discriminate Hlt.
Qed.

(** What the sentinel does achieve.  A string that is empty after trimming,
    or does not parse, or parses to 0, gets the one sentinel [1 << 30], which
    is 1073741824, and no error arises; it sorts after every string with a
    valid positive rank below the sentinel. *)
Theorem parseBNC_unranked bnc :
  noRank bnc ->
  parseBNC bnc = unranked
  /\ unranked = (2 ^ 30)%Z
  /\ (forall bnc' n,
        hasRank bnc' n -> (n < 2 ^ 30)%Z -> (parseBNC bnc' < parseBNC bnc)%Z).
Proof.
  intros Hno. split; [by apply parseBNC_noRank |]. split; [reflexivity |].
  intros bnc' n [Hn Hpos] Hlt.
  rewrite (parseBNC_noRank _ Hno), (parseBNC_parsed _ _ Hn) by lia.
  exact Hlt.
Qed.

Lemma parseBNC_unranked_witness :
  parseBNC [48]%Z = unranked
  /\ unranked = (2 ^ 30)%Z
  /\ (forall bnc' n,
        hasRank bnc' n -> (n < 2 ^ 30)%Z -> (parseBNC bnc' < parseBNC [48]%Z)%Z).
Proof.
  apply (parseBNC_unranked [48]%Z). right. right. reflexivity.
Defined.

(** C9. A string whose trimmed form parses as a negative integer [n] gets
    the rank [n] itself, not the sentinel; it sorts strictly before every
    string with a valid positive rank and before every string without one. *)
Theorem parseBNC_negative bnc n :
  Atoi (TrimSpace bnc) = Some n -> (n < 0)%Z ->
  parseBNC bnc = n /\ parseBNC bnc <> unranked /\
  (forall bnc' m, hasRank bnc' m -> (parseBNC bnc < parseBNC bnc')%Z) /\
  (forall bnc', noRank bnc' -> (parseBNC bnc < parseBNC bnc')%Z).
Proof.
  intros H Hneg.
  assert (Hn : parseBNC bnc = n) by (apply parseBNC_parsed; [exact H | lia]).
  rewrite Hn. split; [reflexivity |]. split.
  - rewrite unranked_value. lia.
  - split.
    + intros bnc' m [Hm Hpos]. rewrite (parseBNC_parsed _ _ Hm) by lia. lia.
    + intros bnc' Hno. rewrite (parseBNC_noRank _ Hno), unranked_value. lia.
Qed.

Lemma parseBNC_negative_witness :
  parseBNC [45; 55]%Z = (-7)%Z /\ parseBNC [45; 55]%Z <> unranked /\
  (forall bnc' m, hasRank bnc' m -> (parseBNC [45; 55]%Z < parseBNC bnc')%Z) /\
  (forall bnc', noRank bnc' -> (parseBNC [45; 55]%Z < parseBNC bnc')%Z).
Proof. apply (parseBNC_negative [45; 55]%Z (-7)%Z); [reflexivity | lia]. Defined.

(** ** The two expressions *)

(** The rest of [s] after the first [close], if there is one. *)
Lemma bracketReplace_inside close s :
  bracketReplace (Inside close) s
  = match list_find (fun c => c = close) s with
    | Some (i, _) => bracketReplace Outside (drop (S i) s)
    | None => []
    end.
Proof.
  induction s as [| c s IH]; [reflexivity |]. simpl.
  destruct (Z.eqb_spec c close) as [-> | Hne].
  - by rewrite decide_True.
  - rewrite decide_False by done. rewrite IH.
    destruct (list_find _ s) as [[i x] |]; reflexivity.
Qed.

Lemma bracketReplace_sublist st s : bracketReplace st s `sublist_of` s.
Proof.
  revert st. induction s as [| c s IH]; intros st; [destruct st; reflexivity |].
  destruct st as [| close]; simpl.
  - destruct (_ && _); [apply sublist_cons, IH |].
    destruct (_ && _); [apply sublist_cons, IH | apply sublist_skip, IH].
  - destruct (c =? close)%Z; apply sublist_cons, IH.
Qed.

Lemma existsb_eqb_false close (s : gostring) :
  existsb (Z.eqb close) s = false -> close ∉ s.
Proof.
  induction s as [| c s IH]; simpl; [intros _ ?%elem_of_nil; done |].
  intros [Hc Hs]%orb_false_iff. apply Z.eqb_neq in Hc.
  apply not_elem_of_cons. split; [done | by apply IH].
Qed.

(** No span is left: after an opening bracket that stays, no closing
    bracket of its kind follows. *)
Lemma bracketReplace_no_span st s l1 l2 open close :
  (open = 91%Z /\ close = 93%Z) \/ (open = 40%Z /\ close = 41%Z) ->
  bracketReplace st s = l1 ++ open :: l2 -> close ∉ l2.
Proof.
  intros Hkind. revert st l1. induction s as [| c s IH]; intros st l1 Heq.
  { destruct st, l1; discriminate. }
  destruct st as [| cl]; simpl in Heq.
  - destruct ((c =? 91)%Z && existsb (Z.eqb 93) s) eqn:E1; [by eapply IH |].
    destruct ((c =? 40)%Z && existsb (Z.eqb 41) s) eqn:E2; [by eapply IH |].
    destruct l1 as [| d l1]; [| injection Heq as _ Heq; by eapply IH].
    injection Heq as -> Heq.
    assert (Hnone : close ∉ s).
    { destruct Hkind as [[-> ->] | [-> ->]]; simpl in *; by apply existsb_eqb_false. }
    intros Hin. apply Hnone. eapply elem_of_sublist; [exact Hin |].
    rewrite <- Heq. apply bracketReplace_sublist.
  - destruct (c =? cl)%Z; by eapply IH.
Qed.

(** The pieces hold no separator, and hold all the other runes in order. *)
Lemma splitRuns_pieces sep inRun s :
  Forall (Forall (fun c => sep c = false)) (splitRuns sep inRun s)
  /\ concat (splitRuns sep inRun s) = filter (fun c => sep c = false) s.
Proof.
  revert inRun. induction s as [| c s IH]; intros inRun; simpl.
  - split; [repeat constructor | reflexivity].
  - rewrite filter_cons. destruct (sep c) eqn:Ec.
    + rewrite decide_False by done.
      destruct inRun; [apply IH |]. destruct (IH true) as [Hf Hc].
      split; [by constructor | exact Hc].
    + rewrite decide_True by done. destruct (IH false) as [Hf Hc].
      destruct (splitRuns sep false s) as [| piece pieces]; simpl in *.
      * split; [repeat constructor; done | by rewrite <- Hc].
      * apply Forall_cons in Hf as [Hp Hps].
        split; [constructor; [by constructor | done] | by rewrite <- Hc].
Qed.

(** ** The gloss extractor *)

Section Extractor.
Context `{UnicodeTables}.

Lemma allGlossRunes_forallb text : allGlossRunes text = forallb glossRune text.
Proof.
  induction text as [| r text IH]; [reflexivity |].
  simpl. rewrite IH. unfold glossRune.
  destruct (Han r), (r =? 183)%Z, (r =? 8212)%Z; reflexivity.
Qed.

Lemma isAllChinese_kept text : isAllChinese text = keptFragment text.
Proof.
  destruct text as [| r text]; [reflexivity |].
  unfold isAllChinese, keptFragment. rewrite allGlossRunes_forallb.
  rewrite bool_decide_eq_false_2 by discriminate. reflexivity.
Qed.

Lemma isAllChinese_spec text :
  isAllChinese text = true <-> text <> [] /\ Forall (fun r => glossRune r = true) text.
Proof.
  rewrite isAllChinese_kept. unfold keptFragment.
  rewrite andb_true_iff, negb_true_iff, bool_decide_eq_false, forallb_forall.
  rewrite Forall_forall. split; intros [H1 H2]; (split; [exact H1 |]).
  - intros x Hx. apply H2. by apply list_elem_of_In.
  - intros x Hx. apply H2. by apply list_elem_of_In.
Qed.

Lemma collectChinese_filter parts acc :
  collectChinese parts acc
  = acc ++ filter (fun fragment => keptFragment fragment = true) (map TrimSpace parts).
Proof.
  revert acc. induction parts as [| part parts IH]; intros acc; simpl.
  - by rewrite app_nil_r.
  - rewrite filter_cons. destruct (TrimSpace part) as [| c frag] eqn:Et.
    + rewrite IH. by rewrite decide_False by (cbn; discriminate).
    + rewrite isAllChinese_kept.
      destruct (keptFragment (c :: frag)) eqn:Ek.
      * rewrite IH, decide_True by reflexivity. by rewrite <- app_assoc.
      * rewrite IH. by rewrite decide_False by discriminate.
Qed.

(** Every gloss the extractor emits passed [isAllChinese]. *)
Lemma extractChineseWords_all translation :
  Forall (fun g => isAllChinese g = true) (extractChineseWords translation).
Proof.
  unfold extractChineseWords. rewrite collectChinese_filter. simpl.
  apply Forall_forall. intros g Hg. apply list_elem_of_filter in Hg as [Hk _].
  by rewrite isAllChinese_kept.
Qed.

(** *** The steps of the specification and those of the code *)

Lemma afterFirst_existsb close (s : gostring) :
  existsb (Z.eqb close) s = bool_decide (is_Some (afterFirst close s)).
Proof.
  induction s as [| c s IH]; [reflexivity |]. simpl. rewrite Z.eqb_sym.
  destruct (c =? close)%Z; [| exact IH].
  symmetry. by apply bool_decide_eq_true.
Qed.

Lemma afterFirst_length close (s rest : gostring) :
  afterFirst close s = Some rest -> length rest < length s.
Proof.
  revert rest. induction s as [| c s IH]; intros rest; [discriminate |]. simpl.
  destruct (c =? close)%Z.
  - intros [= ->]. lia.
  - intros Hr%IH. lia.
Qed.

Lemma bracketReplace_afterFirst close (s : gostring) :
  bracketReplace (Inside close) s
  = match afterFirst close s with
    | Some rest => bracketReplace Outside rest
    | None => []
    end.
Proof.
  induction s as [| c s IH]; [reflexivity |]. simpl.
  by destruct (c =? close)%Z.
Qed.

(** The spans that the specification removes are the matches that the
    expression replaces. *)
Lemma removeSpans_bracketReplace fuel (s : gostring) :
  length s <= fuel -> removeSpans fuel s = bracketReplace Outside s.
Proof.
  revert s. induction fuel as [| fuel IH]; intros [| c s] Hlen; try reflexivity.
  { simpl in Hlen. lia. }
  simpl in Hlen. cbn [removeSpans bracketReplace].
  rewrite !afterFirst_existsb, !bracketReplace_afterFirst. unfold closingBracket.
  destruct (Z.eqb_spec c 91) as [-> | H91]; simpl.
  - destruct (afterFirst 93 s) as [rest |] eqn:E.
    + rewrite bool_decide_eq_true_2 by done.
      apply IH. apply afterFirst_length in E. lia.
    + rewrite bool_decide_eq_false_2 by (by intros [? ?]). simpl.
      f_equal. apply IH. lia.
  - destruct (Z.eqb_spec c 40) as [-> | H40]; simpl.
    + destruct (afterFirst 41 s) as [rest |] eqn:E.
      * rewrite bool_decide_eq_true_2 by done.
        apply IH. apply afterFirst_length in E. lia.
      * rewrite bool_decide_eq_false_2 by (by intros [? ?]).
        f_equal. apply IH. lia.
    + f_equal. apply IH. lia.
Qed.

Lemma withoutAnnotations_bracketReplace (s : gostring) :
  withoutAnnotations s = bracketReplace Outside s.
Proof. by apply removeSpans_bracketReplace. Qed.

Lemma isSeparator_variants c :
  isSeparator c = commaVariant c || semicolonVariant c || regexpSpace c.
Proof.
  unfold isSeparator, commaVariant, semicolonVariant, regexpSpace.
  by rewrite !orb_assoc.
Qed.

Lemma regexpSpace_IsSpace c : regexpSpace c = true -> IsSpace c = true.
Proof.
  unfold regexpSpace. rewrite !orb_true_iff, !Z.eqb_eq.
  intros [[[[-> | ->] | ->] | ->] | ->]; reflexivity.
Qed.

Lemma fragments_ext (sep1 sep2 : rune -> bool) (current s : gostring) :
  Forall (fun c => sep1 c = sep2 c) s ->
  fragments sep1 current s = fragments sep2 current s.
Proof.
  intros Hs. revert current. induction Hs as [| c s Hc _ IH]; intros current; [done |].
  simpl. rewrite Hc. destruct (sep2 c); by rewrite IH.
Qed.

Lemma splitRuns_inRun sep (s : gostring) :
  splitRuns sep false s = splitRuns sep true s
  \/ splitRuns sep false s = [] :: splitRuns sep true s.
Proof. destruct s as [| c s]; [by left |]. simpl. destruct (sep c); [by right | by left]. Qed.

Lemma attach_nil sep inRun (s : gostring) :
  attach [] (splitRuns sep inRun s) = splitRuns sep inRun s.
Proof.
  destruct (splitRuns sep inRun s) as [| piece pieces] eqn:E; [| done].
  exfalso. revert inRun E. induction s as [| c s IH]; intros inRun; [discriminate |].
  simpl. destruct (sep c).
  - destruct inRun; [apply IH | discriminate].
  - by destruct (splitRuns sep false s).
Qed.

Lemma attach_cons (current : gostring) c sep (s : gostring) :
  attach current (match splitRuns sep false s with
                  | piece :: pieces => (c :: piece) :: pieces
                  | [] => [[c]]
                  end)
  = attach (current ++ [c]) (splitRuns sep false s).
Proof.
  destruct (splitRuns sep false s) as [| piece pieces] eqn:E; simpl.
  - destruct s as [| d s]; [discriminate |]. simpl in E.
    destruct (sep d); [discriminate |]. by destruct (splitRuns sep false s).
  - by rewrite <- app_assoc.
Qed.

(** Cutting at every separator and cutting at every run of separators leave
    the same fragments once the empty ones are dropped. *)
Lemma fragments_splitRuns (keep : gostring -> bool) sep (current s : gostring) :
  keep (TrimSpace []) = false ->
  filter (fun fragment => keep fragment = true) (map TrimSpace (fragments sep current s))
  = filter (fun fragment => keep fragment = true)
      (map TrimSpace (attach current (splitRuns sep false s))).
Proof.
  intros Hempty. revert current. induction s as [| c s IH]; intros current.
  - simpl. by rewrite app_nil_r.
  - cbn [fragments splitRuns]. destruct (sep c).
    + cbn [attach map]. rewrite app_nil_r, !filter_cons. rewrite IH.
      assert (E : filter (fun fragment => keep fragment = true)
                    (map TrimSpace (attach [] (splitRuns sep false s)))
                  = filter (fun fragment => keep fragment = true)
                      (map TrimSpace (splitRuns sep true s))).
      { destruct (splitRuns_inRun sep s) as [-> | ->].
        - destruct (splitRuns sep true s); [| done].
          cbn [attach map]. rewrite filter_cons, decide_False; [done |].
          rewrite Hempty. discriminate.
        - cbn [attach map app]. rewrite filter_cons, decide_False; [done |].
          rewrite Hempty. discriminate. }
      by rewrite E.
    + rewrite IH. by rewrite attach_cons.
Qed.

(** C5, as stated, fails.  The ideographic space U+3000 is white space, and
    so is the vertical tab U+000B, but the expression that splits knows
    neither: "好", such a rune, "人" stays one fragment, which is not kept,
    where the claim splits it into the glosses 好 and 人. *)
Lemma extractChineseWords_ideographic_space :
  @extractChineseWords coreHan [22909; 12288; 20154]%Z = []
  /\ @glossFragments coreHan IsSpace [22909; 12288; 20154]%Z = [[22909]; [20154]]%Z
  /\ @extractChineseWords coreHan [22909; 11; 20154]%Z = []
  /\ @glossFragments coreHan IsSpace [22909; 11; 20154]%Z = [[22909]; [20154]]%Z
  /\ @extractChineseWords coreHan [22909; 12288; 20154]%Z
     <> @glossFragments coreHan IsSpace [22909; 12288; 20154]%Z.
Proof. by vm_compute. Qed.

(** C5, amended.  The extractor's output is the list of kept fragments: the
    annotation spans removed, each from an opening square or round bracket
    to the next closing bracket of its kind; the rest split at the comma
    variants, the semicolon variants and the white space of the expression,
    which is tab, newline, form feed, carriage return and space; each
    fragment trimmed; and exactly the fragments kept, in order and with
    repetitions, that are not empty and consist of Han runes, '·' and '—'
    only.  On a translation whose white space is all of these five runes the
    claim holds as it is worded, with the white space of Unicode. *)
Theorem extractChineseWords_glossFragments translation :
  extractChineseWords translation = glossFragments regexpSpace translation
  /\ (Forall (fun c => IsSpace c = true -> regexpSpace c = true) translation ->
      extractChineseWords translation = glossFragments IsSpace translation).
Proof.
  assert (E : extractChineseWords translation = glossFragments regexpSpace translation).
  { unfold extractChineseWords, glossFragments. cbv zeta.
    rewrite collectChinese_filter, withoutAnnotations_bracketReplace. cbn [app].
    rewrite <- (fragments_ext isSeparator)
      by (apply Forall_forall; intros c _; apply isSeparator_variants).
    rewrite (fragments_splitRuns keptFragment) by reflexivity.
    by rewrite attach_nil. }
  split; [exact E |].
  intros Hspace. rewrite E. unfold glossFragments. f_equal. f_equal.
  apply fragments_ext, Forall_forall. intros c Hc. f_equal.
  assert (Hin : c ∈ translation).
  { eapply elem_of_sublist; [exact Hc |].
    rewrite withoutAnnotations_bracketReplace. apply bracketReplace_sublist. }
  rewrite Forall_forall in Hspace. specialize (Hspace c Hin).
  destruct (IsSpace c) eqn:Es.
  - by apply Hspace.
  - destruct (regexpSpace c) eqn:Er; [| done].
    apply regexpSpace_IsSpace in Er. congruence.
Qed.
End Extractor.

Lemma extractChineseWords_glossFragments_witness :
  @extractChineseWords coreHan [22909; 44; 32; 22909; 32; 91; 26041; 93; 59; 32; 32654]%Z
  = @glossFragments coreHan IsSpace
      [22909; 44; 32; 22909; 32; 91; 26041; 93; 59; 32; 32654]%Z.
Proof.
  apply (proj2 (@extractChineseWords_glossFragments coreHan
                  [22909; 44; 32; 22909; 32; 91; 26041; 93; 59; 32; 32654]%Z)).
  repeat constructor; vm_compute; congruence.
Defined.

(** "好, 好 [方]; ok (口) 美好" gives 好, 好, 美好: repetitions stay, the
    annotations and the Latin fragment go. *)
Example extractChineseWords_run :
  @extractChineseWords coreHan
    [22909; 44; 32; 22909; 32; 91; 26041; 93; 59; 32; 111; 107; 32; 40; 21475; 41; 32; 32654; 22909]%Z
  = [[22909]; [22909]; [32654; 22909]]%Z.
Proof. reflexivity. Qed.

(** An unclosed bracket is not an annotation; nested brackets end at the
    first closing one. *)
Example bracketReplace_run :
  bracketReplace Outside [40; 97; 40; 98; 41; 99; 41; 91; 100]%Z = [99; 41; 91; 100]%Z.
Proof. reflexivity. Qed.

Example splitRuns_run :
  splitRuns isSeparator false [44; 97; 44; 32; 98; 59]%Z = [[]; [97]; [98]; []]%Z.
Proof. reflexivity. Qed.

(** ** The search history *)

Lemma spliceOut_absent word (h : list gostring) : word ∉ h -> spliceOut word h = h.
Proof.
  induction h as [| w h IH]; [reflexivity |].
  intros Hn. apply not_elem_of_cons in Hn as [Hne Hn]. simpl.
  rewrite decide_False by congruence. by rewrite IH.
Qed.

Lemma spliceOut_sublist word (h : list gostring) : spliceOut word h `sublist_of` h.
Proof.
  induction h as [| w h IH]; [reflexivity |]. simpl.
  destruct (decide (w = word)); [by apply sublist_cons | by apply sublist_skip].
Qed.

Lemma spliceOut_present word (h : list gostring) :
  word ∈ h -> S (length (spliceOut word h)) = length h.
Proof.
  induction h as [| w h IH]; [by intros ?%elem_of_nil |].
  intros Hin. simpl. destruct (decide (w = word)) as [-> | Hne]; [reflexivity |].
  apply elem_of_cons in Hin as [-> | Hin]; [congruence |].
  simpl. by rewrite IH.
Qed.

Lemma spliceOut_filter word (h : list gostring) :
  NoDup h -> spliceOut word h = filter (fun w => w <> word) h.
Proof.
  induction 1 as [| w h Hw Hnd IH]; [reflexivity |]. simpl.
  rewrite filter_cons. destruct (decide (w = word)) as [-> | Hne].
  - rewrite decide_False by (intros Hc; by apply Hc).
    rewrite <- IH. symmetry. by apply spliceOut_absent.
  - rewrite decide_True by exact Hne. by rewrite IH.
Qed.

Lemma spliceOut_gone word (h : list gostring) : NoDup h -> word ∉ spliceOut word h.
Proof.
  intros Hnd. rewrite spliceOut_filter by exact Hnd.
  intros [Hne _]%list_elem_of_filter. by apply Hne.
Qed.

Lemma addToHistory_unfold word (h : list gostring) :
  addToHistory word h = take maxHistorySize (word :: spliceOut word h).
Proof.
  unfold addToHistory. case_decide as Hlen; [reflexivity |].
  symmetry. apply take_ge. lia.
Qed.

(** C7. [addToHistory] keeps the history free of duplicates and at most
    twenty entries long, and puts the added word in front.  A word already
    present moves to the front, the others keep their order and the length
    stays; a word that is new to a full history of twenty leaves twenty
    entries, the first nineteen of before behind it, and the last entry, the
    one added longest ago, is gone. *)
Theorem addToHistory_invariant word (h : list gostring) :
  historyInv h ->
  historyInv (addToHistory word h)
  /\ head (addToHistory word h) = Some word
  /\ (word ∈ h ->
        addToHistory word h = word :: filter (fun w => w <> word) h
        /\ length (addToHistory word h) = length h)
  /\ (word ∉ h -> length h < maxHistorySize -> addToHistory word h = word :: h)
  /\ (word ∉ h -> length h = maxHistorySize ->
        addToHistory word h = word :: take (maxHistorySize - 1) h
        /\ length (addToHistory word h) = maxHistorySize
        /\ forall oldest, last h = Some oldest -> oldest ∉ addToHistory word h).
Proof.
  intros [Hnd Hlen]. rewrite addToHistory_unfold. unfold historyInv, maxHistorySize in *.
  assert (Hnd' : NoDup (word :: spliceOut word h)).
  { apply NoDup_cons. split; [by apply spliceOut_gone |].
    eapply sublist_NoDup; [exact Hnd | apply spliceOut_sublist]. }
  split; [| split; [| split; [| split]]].
  - split.
    + eapply sublist_NoDup; [exact Hnd' | apply sublist_take].
    + rewrite length_take. lia.
  - reflexivity.
  - intros Hin. pose proof (spliceOut_present _ _ Hin) as Hl.
    rewrite take_ge by (simpl; lia).
    rewrite <- spliceOut_filter by exact Hnd. split; [reflexivity | simpl; lia].
  - intros Hout Hl. rewrite spliceOut_absent by exact Hout.
    apply take_ge. simpl. lia.
  - intros Hout Hl. rewrite spliceOut_absent by exact Hout.
    split; [reflexivity |]. split; [simpl; rewrite length_take; lia |].
    intros oldest Hlast Hmem.
    destruct h as [| x h0] using rev_ind; [discriminate Hlen || (simpl in Hl; lia) |].
    clear IHh0. rewrite last_snoc in Hlast. injection Hlast as ->.
    rewrite length_app in Hl. simpl in Hl.
    change (take 20 (word :: h0 ++ [oldest])) with (word :: take 19 (h0 ++ [oldest])) in Hmem.
    rewrite take_app_le in Hmem by lia. rewrite take_ge in Hmem by lia.
    apply NoDup_app in Hnd as (_ & Hdisj & _).
    apply elem_of_cons in Hmem as [-> | Hmem].
    + apply Hout. apply elem_of_app. right. by apply list_elem_of_singleton.
    + apply (Hdisj oldest Hmem). by apply list_elem_of_singleton.
Qed.

Lemma addToHistory_invariant_witness :
  let h := [[97]; [98]; [99]]%Z in
  let word := [98]%Z in
  historyInv (addToHistory word h)
  /\ head (addToHistory word h) = Some word
  /\ (word ∈ h ->
        addToHistory word h = word :: filter (fun w => w <> word) h
        /\ length (addToHistory word h) = length h)
  /\ (word ∉ h -> length h < maxHistorySize -> addToHistory word h = word :: h)
  /\ (word ∉ h -> length h = maxHistorySize ->
        addToHistory word h = word :: take (maxHistorySize - 1) h
        /\ length (addToHistory word h) = maxHistorySize
        /\ forall oldest, last h = Some oldest -> oldest ∉ addToHistory word h).
Proof.
  apply (addToHistory_invariant [98]%Z [[97]; [98]; [99]]%Z).
  split; [| vm_compute; lia].
  apply (bool_decide_unpack _). vm_compute. exact I.
Defined.

Example addToHistory_front : addToHistory [98]%Z [[97]; [98]; [99]]%Z = [[98]; [97]; [99]]%Z.
Proof. reflexivity. Qed.

(** Twenty-one distinct words, 1 first: the history holds 21 down to 2. *)
Example historyAfter_21 :
  historyAfter (map (fun n => [Z.of_nat n]) (seq 1 21))
  = map (fun n => [Z.of_nat n]) (rev (seq 2 20)).
Proof. vm_compute. reflexivity. Qed.

Lemma filter_ne_absent word (l : list gostring) :
  word ∉ l -> filter (fun w => w <> word) l = l.
Proof.
  induction l as [| x l IH]; [reflexivity |].
  intros [Hne Hn]%not_elem_of_cons. rewrite filter_cons.
  rewrite decide_True by congruence. by rewrite IH.
Qed.

Lemma NoDup_firstOccurrences l : NoDup (firstOccurrences l).
Proof.
  induction l as [| x l IH]; simpl; [constructor |].
  apply NoDup_cons. split.
  - intros [Hne _]%list_elem_of_filter. by apply Hne.
  - by apply NoDup_filter.
Qed.

Lemma elem_of_firstOccurrences x l : x ∈ firstOccurrences l <-> x ∈ l.
Proof.
  induction l as [| y l IH]; simpl; [reflexivity |].
  rewrite !elem_of_cons, list_elem_of_filter, IH.
  destruct (decide (x = y)); tauto.
Qed.

(** Dropping one word from a duplicate-free list needs one entry more of it. *)
Lemma take_filter_ne word (l : list gostring) n :
  NoDup l ->
  take n (filter (fun w => w <> word) l)
  = take n (filter (fun w => w <> word) (take (S n) l)).
Proof.
  intros Hnd. revert n. induction Hnd as [| x l Hx Hnd IH]; intros n; [reflexivity |].
  rewrite firstn_cons, !filter_cons. destruct (decide (x = word)) as [-> | Hne].
  - rewrite decide_False by (intros Hc; by apply Hc).
    assert (Hx' : word ∉ take n l).
    { intros Hin. apply Hx. eapply elem_of_sublist; [exact Hin | apply sublist_take]. }
    rewrite (filter_ne_absent word l Hx), (filter_ne_absent word (take n l) Hx').
    rewrite decide_False by (intros Hc; by apply Hc).
    by rewrite take_take, Nat.min_id.
  - rewrite !decide_True by exact Hne.
    destruct n as [| n]; [reflexivity |]. rewrite !firstn_cons. by rewrite <- IH.
Qed.

(** The history is most recent first: after any sequence of calls it holds
    the words of the calls from the latest back, each once, cut at twenty. *)
Lemma historyAfter_recent_first words :
  historyAfter words = take maxHistorySize (firstOccurrences (rev words)).
Proof.
  induction words as [| w words IH] using rev_ind; [reflexivity |].
  unfold historyAfter in *. rewrite foldl_snoc, IH, rev_unit. clear IH.
  set (l := firstOccurrences (rev words)).
  assert (Hnd : NoDup l) by apply NoDup_firstOccurrences.
  rewrite addToHistory_unfold, spliceOut_filter
    by (eapply sublist_NoDup; [exact Hnd | apply sublist_take]).
  unfold maxHistorySize. simpl. fold l. f_equal.
  symmetry. by apply take_filter_ne.
Qed.

(** ** The tiered search *)

Section ScanRows.
Implicit Types (found results : list gostring) (seen : gset gostring).

(** What one scan adds: keys of [found] that were not seen, each once. *)
Lemma scanRows_spec found results seen :
  exists new,
    scanRows found results seen = (results ++ new, seen ∪ list_to_set new)
    /\ NoDup new
    /\ (forall k, k ∈ new -> k ∈ found /\ k ∉ seen)
    /\ length new <= length found.
Proof.
  revert results seen. induction found as [| word found IH]; intros results seen.
  - exists []. simpl. rewrite app_nil_r. split; [f_equal; set_solver |].
    split; [constructor |]. split; [intros k Hk; by apply elem_of_nil in Hk | lia].
  - simpl. destruct (decide (word ∈ seen)) as [Hin | Hout].
    + destruct (IH results seen) as (new & -> & Hnd & Hsub & Hlen).
      exists new. split; [reflexivity |]. split; [exact Hnd |].
      split; [| lia]. intros k Hk. destruct (Hsub k Hk). split; [by right | done].
    + destruct (IH (results ++ [word]) ({[word]} ∪ seen)) as (new & -> & Hnd & Hsub & Hlen).
      exists (word :: new). split.
      { rewrite <- app_assoc. simpl. f_equal. set_solver. }
      split.
      { apply NoDup_cons. split; [| exact Hnd].
        intros Hk. destruct (Hsub _ Hk) as [_ Hn]. set_solver. }
      split; [| simpl; lia].
      intros k [-> | Hk]%elem_of_cons; [split; [by left | done] |].
      destruct (Hsub k Hk) as [? Hn]. split; [by right | set_solver].
Qed.
End ScanRows.

Lemma query_spec db distinct tier cond limit found :
  query db distinct tier cond limit = Some found ->
  Forall (fun k => cond k = true) found /\ length found <= limit.
Proof.
  unfold query. destruct (queryFails db tier); [discriminate |].
  intros [= <-]. split; [| rewrite length_take; lia].
  apply Forall_forall. intros k Hk.
  pose proof (elem_of_sublist _ _ _ Hk (sublist_take _ limit)) as Hk'.
  destruct distinct.
  - apply elem_of_firstOccurrences, list_elem_of_filter in Hk'. tauto.
  - apply list_elem_of_filter in Hk'. tauto.
Qed.

(** One tier appends at most [limit] new keys, all satisfying the tier's
    condition, and keeps the invariant. *)
Lemma runTier_spec db distinct tier cond limit st :
  searchInv st ->
  exists new,
    (runTier (query db distinct tier cond limit) st).1 = st.1 ++ new
    /\ searchInv (runTier (query db distinct tier cond limit) st)
    /\ Forall (fun k => cond k = true) new
    /\ length new <= limit.
Proof.
  intros [Hnd Hseen]. destruct st as [results seen]. simpl in *. subst seen.
  destruct (query db distinct tier cond limit) as [found |] eqn:Eq; simpl.
  - destruct (query_spec _ _ _ _ _ _ Eq) as [Hc Hl].
    destruct (scanRows_spec found results (list_to_set results)) as (new & -> & Hn & Hsub & Hlen).
    exists new. simpl. split; [reflexivity |]. split; [split |].
    + simpl. apply NoDup_app. split; [exact Hnd |]. split; [| exact Hn].
      intros k Hk Hk'. destruct (Hsub k Hk') as [_ Ho]. set_solver.
    + simpl. rewrite list_to_set_app_L. reflexivity.
    + split; [| lia]. apply Forall_forall. intros k Hk.
      destruct (Hsub k Hk) as [Hf _]. rewrite Forall_forall in Hc. by apply Hc.
  - exists []. rewrite app_nil_r. split; [reflexivity |].
    split; [by split |]. split; [constructor | simpl; lia].
Qed.

(** The result is three segments, one per tier, each made of keys that
    passed the tier's condition. *)
Lemma tieredSearch_shape db distinct keyword :
  exists t1 t2 t3,
    tieredSearch db distinct keyword = t1 ++ t2 ++ t3
    /\ NoDup (t1 ++ t2 ++ t3)
    /\ length (t1 ++ t2 ++ t3) <= 100
    /\ Forall (fun k => k = keyword) t1
    /\ Forall (fun k => like (keyword ++ [37%Z]) k = true /\ k <> keyword) t2
    /\ Forall (fun k => like (37%Z :: keyword ++ [37%Z]) k = true
                        /\ like (keyword ++ [37%Z]) k = false) t3.
Proof.
  unfold tieredSearch. cbv zeta.
  set (c1 := fun k : gostring => bool_decide (k = keyword)).
  set (c2 := fun k : gostring => like (keyword ++ [37%Z]) k && negb (bool_decide (k = keyword))).
  set (c3 := fun k : gostring => like (37%Z :: keyword ++ [37%Z]) k && negb (like (keyword ++ [37%Z]) k)).
  assert (H0 : searchInv ([], ∅)) by (split; [constructor | reflexivity]).
  destruct (runTier_spec db distinct 1 c1 100 _ H0) as (t1 & E1 & I1 & F1 & L1).
  set (st1 := runTier (query db distinct 1 c1 100) ([], ∅)) in *.
  simpl in E1.
  assert (F1' : Forall (fun k => k = keyword) t1).
  { eapply Forall_impl; [exact F1 |]. intros k Hk. by apply bool_decide_eq_true in Hk. }
  case_decide as D1.
  { exists t1, [], []. rewrite E1, !app_nil_r. destruct I1 as [N1 _]. rewrite E1 in N1.
    split_and!; try done; constructor. }
  destruct (runTier_spec db distinct 2 c2 (100 - length st1.1) _ I1) as (t2 & E2 & I2 & F2 & L2).
  set (st2 := runTier (query db distinct 2 c2 (100 - length st1.1)) st1) in *.
  assert (F2' : Forall (fun k => like (keyword ++ [37%Z]) k = true /\ k <> keyword) t2).
  { eapply Forall_impl; [exact F2 |]. intros k Hk. unfold c2 in Hk.
    apply andb_true_iff in Hk as [? Hk]. apply negb_true_iff, bool_decide_eq_false in Hk. done. }
  rewrite E1 in E2, L2.
  case_decide as D2.
  { exists t1, t2, []. rewrite E2, !app_nil_r. destruct I2 as [N2 _]. rewrite E2 in N2.
    split_and!; try done. rewrite !length_app in *. lia. }
  destruct (runTier_spec db distinct 3 c3 (100 - length st2.1) _ I2) as (t3 & E3 & I3 & F3 & L3).
  set (st3 := runTier (query db distinct 3 c3 (100 - length st2.1)) st2) in *.
  rewrite E2 in E3, L3.
  exists t1, t2, t3. rewrite E3, <- app_assoc. destruct I3 as [N3 _].
  rewrite E3, <- app_assoc in N3.
  split_and!; try done.
  - rewrite !length_app in *. lia.
  - eapply Forall_impl; [exact F3 |]. intros k Hk. unfold c3 in Hk.
    apply andb_true_iff in Hk as [? Hk]. apply negb_true_iff in Hk. done.
Qed.

(** *** LIKE on a keyword that is matched rune for rune *)

(** Case analysis on the comparisons of runes in the goal. *)
Ltac split_comparison :=
  match goal with
  | |- context [(?x <=? ?y)%Z] => destruct (Z.leb_spec0 x y)
  | |- context [(?x <? ?y)%Z] => destruct (Z.ltb_spec0 x y)
  | |- context [(?x =? ?y)%Z] => destruct (Z.eqb_spec x y)
  end.

Ltac rune_cases :=
  unfold likeRune, utf8Read, toLowerASCII;
  repeat (split_comparison; simpl);
  try reflexivity; try lia; try (exfalso; lia).

Lemma likeRune_refl c : likeRune c c = true.
Proof. unfold likeRune. by rewrite Z.eqb_refl. Qed.

Lemma likeRune_zero c : c <> 0%Z -> likeRune c 0 = false.
Proof. intros Hc. rune_cases. Qed.

Lemma likeRune_utf8Read c d :
  ~ (65533 <= c <= 65535)%Z -> likeRune c (utf8Read d) = likeRune c d.
Proof.
  intros Hc. unfold utf8Read.
  destruct (Z.eqb_spec d 65534) as [-> |]; [| destruct (Z.eqb_spec d 65535) as [-> |]];
    simpl; rune_cases.
Qed.

Lemma likeRune_high c d : (128 <= d)%Z -> likeRune c d = (c =? d)%Z.
Proof. intros Hd. rune_cases. Qed.

Lemma patternCompare_percent pattern s :
  patternCompare (37%Z :: pattern) s
  = patternCompare pattern s
    || match s with [] => false | _ :: s' => patternCompare (37%Z :: pattern) s' end.
Proof. destruct s; reflexivity. Qed.

Lemma patternCompare_percent_end s : patternCompare [37%Z] s = true.
Proof.
  induction s as [| d s IH]; rewrite patternCompare_percent; [reflexivity | exact IH].
Qed.

Lemma patternCompare_prefix q k :
  Forall (fun c => c <> 37%Z /\ c <> 95%Z) q ->
  patternCompare (q ++ [37%Z]) k = startsWithFold q k.
Proof.
  intros Hq. revert k. induction Hq as [| c q [Hc1 Hc2] Hq IH]; intros k.
  - destruct k; apply patternCompare_percent_end.
  - simpl. apply Z.eqb_neq in Hc1, Hc2. rewrite Hc1, Hc2.
    destruct k as [| d k]; [reflexivity |]. by rewrite orb_false_r, IH.
Qed.

Lemma patternCompare_substring q k :
  Forall (fun c => c <> 37%Z /\ c <> 95%Z) q ->
  patternCompare (37%Z :: q ++ [37%Z]) k = containsFold q k.
Proof.
  intros Hq.
  induction k as [| d k IH]; rewrite patternCompare_percent, patternCompare_prefix by exact Hq.
  - reflexivity.
  - by rewrite IH.
Qed.

(** Every pattern matches itself, its wildcards standing for themselves,
    also with a '%' at its end. *)
Lemma patternCompare_self p t :
  patternCompare t [] = true -> patternCompare (p ++ t) p = true.
Proof.
  intros Ht. induction p as [| c p IH]; [exact Ht |].
  change ((c :: p) ++ t) with (c :: (p ++ t)).
  destruct (Z.eqb_spec c 37) as [-> | Hc].
  - rewrite patternCompare_percent. apply orb_true_iff. right.
    rewrite patternCompare_percent, IH. reflexivity.
  - simpl. apply Z.eqb_neq in Hc. rewrite Hc, likeRune_refl, IH. reflexivity.
Qed.

Lemma literalKeyword_wildcards q :
  literalKeyword q -> Forall (fun c => c <> 37%Z /\ c <> 95%Z) q.
Proof. intros Hq. eapply Forall_impl; [exact Hq |]. simpl. tauto. Qed.

Lemma cString_literal q p : literalKeyword q -> cString (q ++ p) = q ++ cString p.
Proof.
  induction 1 as [| c q (_ & _ & H0 & Hr) _ IH]; [reflexivity |].
  cbn [app cString]. rewrite IH, (proj2 (Z.eqb_neq c 0) H0). f_equal.
  unfold utf8Read. rune_cases.
Qed.

Lemma cString_plain k : plainKey k -> cString k = k.
Proof.
  induction 1 as [| d k [Hd Hr] _ IH]; [reflexivity |].
  cbn [cString]. rewrite IH, (proj2 (Z.eqb_neq d 0)) by lia. f_equal.
  unfold utf8Read. rune_cases.
Qed.

Lemma cString_cons_percent p : cString (37%Z :: p) = 37%Z :: cString p.
Proof. reflexivity. Qed.

Lemma startsWithFold_cString q k :
  literalKeyword q -> startsWithFold q (cString k) = startsWithFold q k.
Proof.
  intros Hq. revert k. induction Hq as [| c q (_ & _ & H0 & Hr) _ IH]; intros k.
  - by destruct k; [| cbn [cString]; destruct (_ =? _)%Z].
  - destruct k as [| d k]; [reflexivity |]. cbn [cString].
    destruct (Z.eqb_spec d 0) as [-> | Hd]; cbn [startsWithFold].
    + by rewrite likeRune_zero.
    + by rewrite IH, likeRune_utf8Read.
Qed.

Lemma startsWithFold_contains q k : startsWithFold q k = true -> containsFold q k = true.
Proof. intros Hk. destruct k; simpl; by rewrite Hk. Qed.

Lemma containsFold_cString q k :
  literalKeyword q -> containsFold q (cString k) = true -> containsFold q k = true.
Proof.
  intros Hq. induction k as [| d k IH]; [done |].
  cbn [cString]. destruct (Z.eqb_spec d 0) as [-> | Hd].
  - destruct q; [done | discriminate].
  - cbn [containsFold]. intros [Hs | Hc]%orb_true_iff; apply orb_true_iff.
    + left. rewrite <- Hs. symmetry.
      pose proof (startsWithFold_cString q (d :: k) Hq) as E.
      cbn [cString] in E. by rewrite (proj2 (Z.eqb_neq d 0) Hd) in E.
    + right. by apply IH.
Qed.

Lemma like_prefix q k : literalKeyword q -> like (q ++ [37%Z]) k = startsWithFold q k.
Proof.
  intros Hq. unfold like. rewrite cString_literal by exact Hq.
  change (cString [37%Z]) with [37%Z].
  rewrite patternCompare_prefix by (by apply literalKeyword_wildcards).
  by apply startsWithFold_cString.
Qed.

Lemma like_substring q k :
  literalKeyword q -> like (37%Z :: q ++ [37%Z]) k = containsFold q (cString k).
Proof.
  intros Hq. unfold like. rewrite cString_cons_percent, cString_literal by exact Hq.
  change (cString [37%Z]) with [37%Z].
  by rewrite patternCompare_substring by (by apply literalKeyword_wildcards).
Qed.

(** Every string matches itself followed by anything, whatever it holds. *)
Lemma like_self q : like (q ++ [37%Z]) q = true.
Proof.
  unfold like. induction q as [| c q IH]; [reflexivity |].
  cbn [app cString]. destruct (c =? 0)%Z; [reflexivity |].
  destruct (Z.eqb_spec (utf8Read c) 37) as [-> | Hc].
  - rewrite patternCompare_percent. apply orb_true_iff. right.
    rewrite patternCompare_percent, IH. reflexivity.
  - simpl. apply Z.eqb_neq in Hc. rewrite Hc, likeRune_refl, IH. reflexivity.
Qed.

Lemma like_anywhere pattern s : like pattern s = true -> like (37%Z :: pattern) s = true.
Proof.
  unfold like. intros Hl. rewrite cString_cons_percent, patternCompare_percent, Hl.
  reflexivity.
Qed.

Lemma startsWithFold_refl q : startsWithFold q q = true.
Proof. induction q as [| c q IH]; [reflexivity |]. simpl. by rewrite likeRune_refl, IH. Qed.

Lemma startsWith_fold q k : startsWith q k = true -> startsWithFold q k = true.
Proof.
  revert k. induction q as [| c q IH]; intros [| d k]; simpl; try done.
  intros [Hc Hq]%andb_true_iff. unfold likeRune. rewrite Hc. simpl. by apply IH.
Qed.

(** *** Keys without a rune of ASCII *)

Lemma startsWithFold_plain q k : plainKey k -> startsWithFold q k = startsWith q k.
Proof.
  intros Hk. revert q. induction Hk as [| d k [Hd _] _ IH]; intros [| c q]; try reflexivity.
  cbn [startsWithFold startsWith]. by rewrite IH, likeRune_high.
Qed.

Lemma containsFold_plain q k : plainKey k -> containsFold q k = containsStr q k.
Proof.
  intros Hk. induction Hk as [| d k Hd Hk IH].
  - by destruct q.
  - cbn [containsFold containsStr]. rewrite IH. f_equal.
    apply startsWithFold_plain. by constructor.
Qed.

Lemma startsWith_plain q k : plainKey k -> startsWith q k = true -> plainKey q.
Proof.
  intros Hk. revert q.
  induction Hk as [| d k Hd _ IH]; intros [| c q] Hs;
    [constructor | discriminate | constructor |].
  cbn [startsWith] in Hs. apply andb_true_iff in Hs as [->%Z.eqb_eq Hq].
  constructor; [exact Hd | by apply IH].
Qed.

Lemma containsStr_plain q k : plainKey k -> containsStr q k = true -> plainKey q.
Proof.
  intros Hk. induction Hk as [| d k Hd Hk IH].
  - destruct q; [constructor | discriminate].
  - cbn [containsStr]. intros [Hs | Hc]%orb_true_iff; [| by apply IH].
    eapply startsWith_plain; [| exact Hs]. by constructor.
Qed.

Lemma plainKey_literal q : plainKey q -> literalKeyword q.
Proof.
  intros Hq. eapply Forall_impl; [exact Hq |].
  intros c [? ?]. split_and!; [lia | lia | lia | done].
Qed.

(** A plain key starts with the keyword exactly when the prefix query
    matches it, as long as the keyword is matched rune for rune; and when
    the key starts with the keyword, the keyword is. *)
Lemma like_prefix_plain q k :
  plainKey k -> startsWith q k = true -> like (q ++ [37%Z]) k = true.
Proof.
  intros Hk Hs.
  rewrite like_prefix by (eapply plainKey_literal, startsWith_plain; eauto).
  by apply startsWith_fold.
Qed.

(** *** Order of the tiers *)

Lemma allBefore_split (P Q : gostring -> Prop) (l1 l2 : list gostring) :
  Forall (fun k => ~ Q k) l1 -> Forall (fun k => ~ P k) l2 -> allBefore P Q (l1 ++ l2).
Proof.
  intros H1 H2 i j ki kj Hi Hj HP HQ.
  rewrite Forall_forall in H1. rewrite Forall_forall in H2.
  apply lookup_app_Some in Hi as [Hi | [Hl Hi]].
  - apply lookup_app_Some in Hj as [Hj | [Hl' Hj]].
    + exfalso. apply (H1 kj); [by eapply list_elem_of_lookup_2 | exact HQ].
    + apply lookup_lt_Some in Hi. lia.
  - exfalso. apply (H2 ki); [by eapply list_elem_of_lookup_2 | exact HP].
Qed.

Lemma tieredSearch_ordered db distinct q :
  literalKeyword q -> tierOrderedFold q (tieredSearch db distinct q).
Proof.
  intros Hq.
  destruct (tieredSearch_shape db distinct q) as (t1 & t2 & t3 & -> & _ & _ & F1 & F2 & F3).
  assert (F2' : Forall (fun k => startsWithFold q k = true /\ k <> q) t2).
  { eapply Forall_impl; [exact F2 |]. intros k [Hk ?]. by rewrite like_prefix in Hk. }
  assert (F3' : Forall (fun k => startsWithFold q k = false) t3).
  { eapply Forall_impl; [exact F3 |]. intros k [_ Hk]. by rewrite like_prefix in Hk. }
  unfold tierOrderedFold, exactMatch, prefixOnlyFold, substringOnlyFold. split_and!.
  - apply allBefore_split.
    + eapply Forall_impl; [exact F1 |]. intros k -> [_ Hne]. by apply Hne.
    + apply Forall_app. split.
      * eapply Forall_impl; [exact F2' |]. intros k [_ Hne] ->. by apply Hne.
      * eapply Forall_impl; [exact F3' |]. intros k Hk ->.
        rewrite startsWithFold_refl in Hk. discriminate.
  - rewrite app_assoc. apply allBefore_split.
    + apply Forall_app. split.
      * eapply Forall_impl; [exact F1 |]. intros k -> [_ Hk].
        rewrite startsWithFold_refl in Hk. discriminate.
      * eapply Forall_impl; [exact F2' |]. intros k [Hk _] [_ Hk']. congruence.
    + eapply Forall_impl; [exact F3' |]. intros k Hk [Hk' _]. congruence.
  - apply allBefore_split.
    + eapply Forall_impl; [exact F1 |]. intros k -> [_ Hk].
      rewrite startsWithFold_refl in Hk. discriminate.
    + apply Forall_app. split.
      * eapply Forall_impl; [exact F2' |]. intros k [_ Hne] ->. by apply Hne.
      * eapply Forall_impl; [exact F3' |]. intros k Hk ->.
        rewrite startsWithFold_refl in Hk. discriminate.
Qed.

Lemma tieredSearch_matches db distinct q :
  literalKeyword q ->
  Forall (fun k => containsFold q k = true) (tieredSearch db distinct q).
Proof.
  intros Hq.
  destruct (tieredSearch_shape db distinct q) as (t1 & t2 & t3 & -> & _ & _ & F1 & F2 & F3).
  assert (Hpre : forall k, startsWithFold q k = true -> containsFold q k = true).
  { intros [| d k] Hk; simpl; by rewrite Hk. }
  rewrite !Forall_app. split_and!.
  - eapply Forall_impl; [exact F1 |]. intros k ->. apply Hpre, startsWithFold_refl.
  - eapply Forall_impl; [exact F2 |]. intros k [Hk _].
    rewrite like_prefix in Hk by exact Hq. by apply Hpre.
  - eapply Forall_impl; [exact F3 |]. intros k [Hk _].
    rewrite like_substring in Hk by exact Hq. by apply containsFold_cString.
Qed.

(** *** Where the results come from *)

Lemma scanRows_seen (found results : list gostring) (seen : gset gostring) :
  (scanRows found results seen).2 = seen ∪ list_to_set found.
Proof.
  revert results seen. induction found as [| w found IH]; intros results seen; simpl.
  - set_solver.
  - case_decide; rewrite IH; set_solver.
Qed.

(** Rows that are pairwise different and not yet seen are all appended, in
    their order. *)
Lemma scanRows_fresh (found results : list gostring) (seen : gset gostring) :
  NoDup found -> (forall k, k ∈ found -> k ∉ seen) ->
  (scanRows found results seen).1 = results ++ found.
Proof.
  intros Hnd. revert results seen.
  induction Hnd as [| w found Hw Hnd IH]; intros results seen Hfresh; simpl.
  - by rewrite app_nil_r.
  - rewrite decide_False by (apply Hfresh; by left).
    rewrite IH; [by rewrite <- app_assoc |].
    intros k Hk. specialize (Hfresh k (list_elem_of_further _ _ _ Hk)).
    assert (k <> w) by (intros ->; done). set_solver.
Qed.

Lemma query_ok db distinct tier cond limit :
  queryFails db tier = false ->
  query db distinct tier cond limit = Some (take limit (matching db distinct cond)).
Proof. unfold query, matching. by intros ->. Qed.

Lemma elem_of_matching db distinct cond k :
  k ∈ matching db distinct cond <-> k ∈ rows db /\ cond k = true.
Proof.
  unfold matching. destruct distinct.
  - rewrite elem_of_firstOccurrences, list_elem_of_filter. tauto.
  - rewrite list_elem_of_filter. tauto.
Qed.

Lemma NoDup_matching db distinct cond :
  distinct = true \/ NoDup (rows db) -> NoDup (matching db distinct cond).
Proof.
  unfold matching. intros [-> | Hnd].
  - apply NoDup_firstOccurrences.
  - destruct distinct; [apply NoDup_firstOccurrences | by apply NoDup_filter].
Qed.

Lemma runTier_elem db distinct tier cond limit st k :
  k ∈ (runTier (query db distinct tier cond limit) st).1 ->
  k ∈ st.1 \/ (k ∈ rows db /\ cond k = true).
Proof.
  unfold query. destruct (queryFails db tier); simpl; [by left |].
  destruct (scanRows_spec
              (take limit (if distinct
                           then firstOccurrences (filter (fun k => cond k = true) (rows db))
                           else filter (fun k => cond k = true) (rows db)))
              st.1 st.2) as (new & -> & _ & Hsub & _).
  simpl. intros [Hk | Hk]%elem_of_app; [by left | right].
  destruct (Hsub k Hk) as [Hf _].
  apply (elem_of_matching db distinct cond).
  eapply elem_of_sublist; [exact Hf | apply sublist_take].
Qed.

Lemma tieredSearch_elem db distinct keyword k :
  k ∈ tieredSearch db distinct keyword ->
  k ∈ rows db /\ like (37%Z :: keyword ++ [37%Z]) k = true.
Proof.
  unfold tieredSearch. cbv zeta.
  set (c1 := fun k : gostring => bool_decide (k = keyword)).
  set (c2 := fun k : gostring => like (keyword ++ [37%Z]) k && negb (bool_decide (k = keyword))).
  set (c3 := fun k : gostring => like (37%Z :: keyword ++ [37%Z]) k && negb (like (keyword ++ [37%Z]) k)).
  set (st1 := runTier (query db distinct 1 c1 100) ([], ∅)).
  set (st2 := runTier (query db distinct 2 c2 (100 - length st1.1)) st1).
  set (st3 := runTier (query db distinct 3 c3 (100 - length st2.1)) st2).
  assert (H1 : k ∈ st1.1 -> k ∈ rows db /\ like (37%Z :: keyword ++ [37%Z]) k = true).
  { intros [Hk | [Hr Hc]]%runTier_elem; [by apply elem_of_nil in Hk |].
    split; [done |]. apply bool_decide_eq_true in Hc as ->.
    apply like_anywhere, like_self. }
  assert (H2 : k ∈ st2.1 -> k ∈ rows db /\ like (37%Z :: keyword ++ [37%Z]) k = true).
  { intros [Hk | [Hr Hc]]%runTier_elem; [by apply H1 |].
    split; [done |]. apply andb_true_iff in Hc as [Hc _]. by apply like_anywhere. }
  assert (H3 : k ∈ st3.1 -> k ∈ rows db /\ like (37%Z :: keyword ++ [37%Z]) k = true).
  { intros [Hk | [Hr Hc]]%runTier_elem; [by apply H2 |].
    split; [done |]. by apply andb_true_iff in Hc as [Hc _]. }
  repeat case_decide; done.
Qed.

(** *** Tables whose keys hold no rune of ASCII *)

Lemma startsWith_refl q : startsWith q q = true.
Proof. induction q as [| c q IH]; [reflexivity |]. simpl. by rewrite Z.eqb_refl, IH. Qed.

(** On such a table the tiers are those of the claim, rune for rune, for
    every keyword: a keyword with a wildcard, a U+0000 or a rune that LIKE
    reads as another one is part of no key. *)
Lemma tieredSearch_ordered_plain db distinct q :
  Forall plainKey (rows db) -> tierOrdered q (tieredSearch db distinct q).
Proof.
  intros Hrows.
  assert (Hplain : Forall plainKey (tieredSearch db distinct q)).
  { apply Forall_forall. intros k [Hk _]%tieredSearch_elem.
    rewrite Forall_forall in Hrows. by apply Hrows. }
  destruct (tieredSearch_shape db distinct q) as (t1 & t2 & t3 & E & _ & _ & F1 & F2 & F3).
  rewrite E in *. apply Forall_app in Hplain as [_ [P2 P3]%Forall_app].
  assert (N1 : Forall (fun k => ~ substringOnly q k) t1).
  { eapply Forall_impl; [exact F1 |]. intros k -> [_ Hk].
    rewrite startsWith_refl in Hk. discriminate. }
  assert (N2 : Forall (fun k => ~ exactMatch q k) (t2 ++ t3)).
  { apply Forall_app. split.
    - eapply Forall_impl; [exact F2 |]. intros k [_ Hne] ->. by apply Hne.
    - eapply Forall_impl; [exact F3 |]. intros k [_ Hk] ->.
      rewrite like_self in Hk. discriminate. }
  unfold tierOrdered. split_and!.
  - apply allBefore_split; [| exact N2].
    eapply Forall_impl; [exact F1 |]. intros k -> [_ Hne]. by apply Hne.
  - rewrite app_assoc. apply allBefore_split.
    + apply Forall_app. split; [exact N1 |].
      apply Forall_forall. intros k Hk [Hc Hs].
      rewrite Forall_forall in F2, P2.
      destruct (F2 k Hk) as [Hl _]. pose proof (P2 k Hk) as Hp.
      rewrite like_prefix in Hl by (eapply plainKey_literal, containsStr_plain; eauto).
      rewrite startsWithFold_plain in Hl by exact Hp. congruence.
    + apply Forall_forall. intros k Hk [Hs _].
      rewrite Forall_forall in F3, P3.
      destruct (F3 k Hk) as [_ Hl].
      rewrite (like_prefix_plain q k (P3 k Hk) Hs) in Hl. discriminate.
  - by apply allBefore_split.
Qed.

Lemma tieredSearch_contains_plain db distinct q :
  literalKeyword q -> Forall plainKey (rows db) ->
  Forall (fun k => containsStr q k = true) (tieredSearch db distinct q).
Proof.
  intros Hq Hrows. apply Forall_forall. intros k Hk.
  pose proof (tieredSearch_matches db distinct q Hq) as Hm.
  rewrite Forall_forall in Hm, Hrows.
  rewrite <- containsFold_plain; [by apply Hm |].
  apply Hrows. by apply tieredSearch_elem in Hk as [Hk _].
Qed.

(** A gloss is such a key: the table of Han holds no rune of ASCII,
    and '·' and '—' are none. *)
Lemma isAllChinese_plainKey `{UnicodeTables} k :
  (forall r, Han r = true -> (128 <= r)%Z /\ ~ (65533 <= r <= 65535)%Z) ->
  isAllChinese k = true -> plainKey k.
Proof.
  intros HHan [_ Hk]%isAllChinese_spec.
  eapply Forall_impl; [exact Hk |]. intros r Hr. unfold glossRune in Hr.
  apply orb_true_iff in Hr as [[Hr | ->%Z.eqb_eq]%orb_true_iff | ->%Z.eqb_eq];
    [by apply HHan | lia | lia].
Qed.

(** C1, as stated, fails on the word index.  For the keyword "a" the prefix
    query also returns "Aa", since LIKE ignores the case of ASCII letters;
    "Aa" contains "a" without starting with it, and comes before "ab", which
    starts with "a". *)
Lemma search_not_tierOrdered :
  searchEnglish tableAaab [97]%Z = [[65; 97]; [97; 98]]%Z
  /\ substringOnly [97]%Z [65; 97]%Z
  /\ prefixOnly [97]%Z [97; 98]%Z
  /\ ~ tierOrdered [97]%Z (searchEnglish tableAaab [97]%Z).
Proof.
  assert (E : searchEnglish tableAaab [97]%Z = [[65; 97]; [97; 98]]%Z) by (vm_compute; reflexivity).
  assert (S : substringOnly [97]%Z [65; 97]%Z) by (split; reflexivity).
  assert (P : prefixOnly [97]%Z [97; 98]%Z) by (split; [reflexivity | discriminate]).
  assert (N : ~ tierOrdered [97]%Z [[65; 97]; [97; 98]]%Z).
  { intros (_ & Hps & _).
    specialize (Hps 1 0 [97; 98]%Z [65; 97]%Z eq_refl eq_refl P S). lia. }
  rewrite E. split_and!; done.
Qed.

(** C1, amended.  Both searches return no key twice and at most 100 keys.
    On the gloss index, whose keys are glosses, the result is in tier order
    as the claim words it, for every keyword: every key equal to the keyword
    comes before every other key that starts with it, which comes before
    every key that contains it without starting with it.  On the word index
    the tiers are those of LIKE, which compares the letters of ASCII without
    regard to case: when the keyword holds no wildcard, no U+0000 and none
    of U+FFFD, U+FFFE and U+FFFF, every returned key contains the keyword up
    to the case of ASCII letters, and the keys are in tier order with
    starting and containing read up to that case.  The table of Han is taken
    to hold no rune below U+0080 and none of U+FFFD, U+FFFE and U+FFFF. *)
Theorem search_results `{UnicodeTables} (englishDB chineseDB : Table) keyword :
  (NoDup (searchEnglish englishDB keyword)
   /\ length (searchEnglish englishDB keyword) <= 100
   /\ (literalKeyword keyword ->
         tierOrderedFold keyword (searchEnglish englishDB keyword)
         /\ Forall (fun k => containsFold keyword k = true)
              (searchEnglish englishDB keyword)))
  /\ (NoDup (searchChinese chineseDB keyword)
      /\ length (searchChinese chineseDB keyword) <= 100
      /\ (literalKeyword keyword ->
            tierOrderedFold keyword (searchChinese chineseDB keyword)
            /\ Forall (fun k => containsFold keyword k = true)
                 (searchChinese chineseDB keyword))
      /\ ((forall r, Han r = true -> (128 <= r)%Z /\ ~ (65533 <= r <= 65535)%Z) ->
          Forall (fun k => isAllChinese k = true) (rows chineseDB) ->
          tierOrdered keyword (searchChinese chineseDB keyword)
          /\ (literalKeyword keyword ->
                Forall (fun k => containsStr keyword k = true)
                  (searchChinese chineseDB keyword)))).
Proof.
  unfold searchEnglish, searchChinese.
  assert (G : forall db distinct,
    NoDup (tieredSearch db distinct keyword)
    /\ length (tieredSearch db distinct keyword) <= 100
    /\ (literalKeyword keyword ->
          tierOrderedFold keyword (tieredSearch db distinct keyword)
          /\ Forall (fun k => containsFold keyword k = true) (tieredSearch db distinct keyword))).
  { intros db distinct. split_and!.
    - by destruct (tieredSearch_shape db distinct keyword) as (t1 & t2 & t3 & -> & ? & _).
    - by destruct (tieredSearch_shape db distinct keyword) as (t1 & t2 & t3 & -> & _ & ? & _).
    - intros Hq. split; [by apply tieredSearch_ordered | by apply tieredSearch_matches]. }
  split; [apply G |].
  destruct (G chineseDB true) as (Hnd & Hlen & Hfold). split_and!; [done | done | done |].
  intros HHan Hkeys.
  assert (Hplain : Forall plainKey (rows chineseDB)).
  { eapply Forall_impl; [exact Hkeys |]. intros k. by apply isAllChinese_plainKey. }
  split; [by apply tieredSearch_ordered_plain |].
  intros Hq. by apply tieredSearch_contains_plain.
Qed.

Lemma search_results_witness :
  (tierOrderedFold [108; 105; 107]%Z (searchEnglish tableLike [108; 105; 107]%Z)
   /\ Forall (fun k => containsFold [108; 105; 107]%Z k = true)
        (searchEnglish tableLike [108; 105; 107]%Z))
  /\ (tierOrdered [22909]%Z (searchChinese tableAB [22909]%Z)
      /\ Forall (fun k => containsStr [22909]%Z k = true) (searchChinese tableAB [22909]%Z)).
Proof.
  split.
  - apply (proj1 (@search_results coreHan tableLike tableAB [108; 105; 107]%Z)).
    unfold literalKeyword. repeat constructor; lia.
  - destruct (proj2 (proj2 (proj2 (proj2
                (@search_results coreHan tableLike tableAB [22909]%Z)))))
      as [Hord Hin].
    + intros r Hr. simpl in Hr.
      rewrite orb_true_iff, !andb_true_iff, !Z.leb_le in Hr. lia.
    + apply (bool_decide_unpack _). vm_compute. exact I.
    + split; [exact Hord |]. apply Hin.
      unfold literalKeyword. repeat constructor; lia.
Defined.

(** "lik" finds no exact match, then like and likely, then dislike. *)
Example searchEnglish_lik :
  searchEnglish tableLike [108; 105; 107]%Z
  = [[108; 105; 107; 101]; [108; 105; 107; 101; 108; 121]; [100; 105; 115; 108; 105; 107; 101]]%Z.
Proof. vm_compute. reflexivity. Qed.

(** LIKE takes its operands as C strings.  The keyword "a", U+0000, "b" is
    matched as "a": it finds "A", "a" and then "xa".  The key "a", U+0000,
    "b" is matched as "a": a search for "b" does not find it. *)
Example searchEnglish_nul :
  searchEnglish {| rows := [[65]; [97]; [120; 97]]%Z; queryFails := fun _ => false |}
    [97; 0; 98]%Z
  = [[65]; [97]; [120; 97]]%Z
  /\ searchEnglish {| rows := [[97]; [97; 0; 98]; [97; 98]]%Z; queryFails := fun _ => false |}
       [98]%Z
     = [[97; 98]]%Z.
Proof. vm_compute. split; reflexivity. Qed.

(** LIKE reads U+FFFE as U+FFFD. *)
Example like_replacement : like [65534]%Z [65533]%Z = true.
Proof. reflexivity. Qed.

(** A failing query leaves its tier empty and the search goes on. *)
Example searchEnglish_tier2_fails :
  searchEnglish {| rows := rows tableLike; queryFails := fun t => bool_decide (t = 2) |}
    [108; 105; 107]%Z
  = [[100; 105; 115; 108; 105; 107; 101]]%Z.
Proof. vm_compute. reflexivity. Qed.

(** ** Reading the corpus *)

Lemma readEnglish_acc input acc :
  readEnglish input acc
  = acc ++ filter (fun record => 13 <= length record) (recordsOf input).
Proof.
  revert acc. induction input as [| [record |] input IH]; intros acc; simpl.
  - by rewrite app_nil_r.
  - rewrite filter_cons. case_decide; rewrite IH; [by rewrite <- app_assoc | done].
  - apply IH.
Qed.

Lemma readChinese_acc input acc :
  readChinese input acc
  = acc ++ filter (fun record => 13 <= length record /\ field record 3 <> [])
             (recordsOf input).
Proof.
  revert acc. induction input as [| [record |] input IH]; intros acc; simpl.
  - by rewrite app_nil_r.
  - rewrite filter_cons. case_decide; rewrite IH; [by rewrite <- app_assoc | done].
  - apply IH.
Qed.

Lemma field_lookup (record : list gostring) i :
  i < length record -> record !! i = Some (field record i).
Proof.
  intros Hi. unfold field. destruct (lookup_lt_is_Some_2 record i Hi) as [x ->]. reflexivity.
Qed.

(** C8, as stated, fails for the corpus of the reverse index: a row of 13
    fields with an empty translation is read without error and left out. *)
Lemma readChinese_skips_untranslated :
  let input := [ReadRecord untranslated] in
  ReadRecord untranslated ∈ input
  /\ 13 <= length untranslated
  /\ (untranslated ∉ readChinese input [])
  /\ (untranslated ∈ readEnglish input []).
Proof.
  cbv zeta. split; [by left |]. split; [vm_compute; lia |].
  split; [vm_compute; by intros ?%elem_of_nil | vm_compute; by left].
Qed.

(** C8, amended.  The corpus of [CreateEnglishDB] is the rows read without
    error that have 13 fields or more, in order; the corpus of
    [CreateChineseDB] is those of them whose translation, field 3, is not
    empty.  Rows with fewer fields and failed reads are left out, and neither
    ends the reading.  Every row of the forward corpus is inserted with its
    fields 0, 1, 2, 3 and 8 as word, phonetic, definition, translation and
    frequency. *)
Theorem corpus_rows input :
  readEnglish input [] = filter (fun record => 13 <= length record) (recordsOf input)
  /\ readChinese input []
     = filter (fun record => 13 <= length record /\ field record 3 <> []) (recordsOf input)
  /\ englishRows input = map insertArgs (readEnglish input [])
  /\ (forall record, record ∈ readEnglish input [] ->
        record !! 0 = Some (Word_ (insertArgs record))
        /\ record !! 1 = Some (Phonetic (insertArgs record))
        /\ record !! 2 = Some (Definition_ (insertArgs record))
        /\ record !! 3 = Some (Translation (insertArgs record))
        /\ record !! 8 = Some (Bnc (insertArgs record))).
Proof.
  split; [apply (readEnglish_acc input []) |].
  split; [apply (readChinese_acc input []) |].
  split; [reflexivity |].
  intros record Hin. rewrite (readEnglish_acc input []) in Hin. simpl in Hin.
  apply list_elem_of_filter in Hin as [Hlen _].
  simpl. split_and!; apply field_lookup; lia.
Qed.

Lemma corpus_rows_witness :
  untranslated !! 0 = Some (Word_ (insertArgs untranslated))
  /\ untranslated !! 1 = Some (Phonetic (insertArgs untranslated))
  /\ untranslated !! 2 = Some (Definition_ (insertArgs untranslated))
  /\ untranslated !! 3 = Some (Translation (insertArgs untranslated))
  /\ untranslated !! 8 = Some (Bnc (insertArgs untranslated)).
Proof.
  apply (proj2 (proj2 (proj2 (corpus_rows [ReadRecord untranslated]))) untranslated).
  apply (bool_decide_unpack _). vm_compute. exact I.
Defined.

Example readEnglish_run :
  readEnglish [ReadRecord [[97]; [98]]; ReadError; ReadRecord untranslated]%Z []
  = [untranslated].
Proof. reflexivity. Qed.

(** ** Iteration order and sorting *)

Section OrderFacts.
Context {A : Type}.
Implicit Types (l : list A) (x : A).

Lemma insertAt_Permutation n x l : insertAt n x l ≡ₚ x :: l.
Proof.
  revert n. induction l as [| y l IH]; intros [| n]; simpl; try reflexivity.
  rewrite IH. apply Permutation_swap.
Qed.

Lemma reorder_Permutation choices l : reorder choices l ≡ₚ l.
Proof.
  revert choices. induction l as [| x l IH]; intros choices; simpl; [reflexivity |].
  by rewrite insertAt_Permutation, IH.
Qed.

Lemma reorder_plain l : reorder [] l = l.
Proof. induction l as [| x l IH]; simpl; [reflexivity | by rewrite IH]. Qed.

(** Every order of the elements is the result of some choices. *)
Lemma reorder_complete l l' : l ≡ₚ l' -> exists choices, reorder choices l = l'.
Proof.
  revert l'. induction l as [| x l IH]; intros l' Hp.
  - apply Permutation_nil_l in Hp. subst l'. exists (@nil nat). reflexivity.
  - apply Permutation_cons_inv_l in Hp as (l1 & l2 & -> & Hp).
    destruct (IH _ Hp) as [choices Hc].
    exists (length l1 :: choices). simpl. rewrite Hc.
    clear. induction l1 as [| y l1 IH1]; simpl; [by destruct l2 | by rewrite IH1].
Qed.

Variable key : A -> Z.
Let less (a b : A) : bool := (key a <? key b)%Z.
Let byKey (a b : A) : Prop := (key a <= key b)%Z.

Lemma insertSorted_Permutation x l : insertSorted less x l ≡ₚ x :: l.
Proof.
  induction l as [| y l IH]; simpl; [reflexivity |].
  destruct (less y x); [| reflexivity]. rewrite IH. apply Permutation_swap.
Qed.

Lemma insertSorted_sorted x l :
  StronglySorted byKey l -> StronglySorted byKey (insertSorted less x l).
Proof.
  induction 1 as [| y l Hs IH Hy]; simpl.
  - repeat constructor.
  - unfold less at 1. destruct (Z.ltb_spec (key y) (key x)) as [Hlt | Hge].
    + constructor; [exact IH |].
      rewrite insertSorted_Permutation. constructor; [unfold byKey; lia | exact Hy].
    + constructor; [by constructor |]. constructor; [exact Hge |].
      eapply Forall_impl; [exact Hy |]. unfold byKey. intros z Hz. lia.
Qed.

(** A list in order is left as it is: the insertion is stable. *)
Lemma insertSorted_head x l :
  Forall (byKey x) l -> insertSorted less x l = x :: l.
Proof.
  destruct l as [| y l]; [reflexivity |]. intros Hx. simpl.
  apply Forall_cons in Hx as [Hxy _]. unfold less, byKey in *.
  destruct (Z.ltb_spec (key y) (key x)); [lia | reflexivity].
Qed.

Lemma sortSlice_Permutation choices l : sortSlice less choices l ≡ₚ l.
Proof.
  unfold sortSlice. rewrite <- (reorder_Permutation choices l) at 2.
  induction (reorder choices l) as [| x l' IH]; simpl; [reflexivity |].
  by rewrite insertSorted_Permutation, IH.
Qed.

Lemma sortSlice_sorted choices l : StronglySorted byKey (sortSlice less choices l).
Proof.
  unfold sortSlice. induction (reorder choices l) as [| x l' IH]; simpl.
  - constructor.
  - by apply insertSorted_sorted.
Qed.

Lemma sortSlice_plain l : StronglySorted byKey l -> sortSlice less [] l = l.
Proof.
  unfold sortSlice. rewrite reorder_plain.
  induction 1 as [| x l Hs IH Hx]; simpl; [reflexivity |].
  rewrite IH. by apply insertSorted_head.
Qed.

(** In a sorted list a strictly smaller key stands strictly earlier. *)
Lemma sorted_lookup_lt l i j a b :
  StronglySorted byKey l -> l !! i = Some a -> l !! j = Some b ->
  (key a < key b)%Z -> i < j.
Proof.
  intros Hs. revert i j. induction Hs as [| x l Hs IH Hx]; intros i j Hi Hj Hlt.
  - by rewrite lookup_nil in Hi.
  - destruct i as [| i], j as [| j]; simpl in *.
    + injection Hi as ->. injection Hj as ->. lia.
    + lia.
    + injection Hj as ->. rewrite Forall_forall in Hx.
      apply list_elem_of_lookup_2 in Hi. specialize (Hx _ Hi). unfold byKey in Hx. lia.
    + specialize (IH i j Hi Hj Hlt). lia.
Qed.
End OrderFacts.

(** ** The reverse index *)

Section ReverseIndexFacts.
Context `{UnicodeTables}.
Implicit Types (chineseMap : gmap (list Z) (gmap (list Z) (list Z))).
Implicit Types (allRecords : list (list gostring)) (record : list gostring).

Lemma addGloss_stored w t chineseMap g g' w' :
  stored (addGloss w t chineseMap g) g' w'
  = if decide (g' = g /\ w' = w)
    then Some (default t (stored chineseMap g w))
    else stored chineseMap g' w'.
Proof.
  unfold stored, addGloss.
  destruct (chineseMap !! g) as [engMap |] eqn:Eg; simpl.
  - rewrite Eg. simpl. destruct (engMap !! w) as [x |] eqn:Ew.
    + case_decide as Hd; [destruct Hd as [-> ->]; by rewrite Eg; simpl; rewrite Ew | done].
    + case_decide as Hd.
      * destruct Hd as [-> ->]. rewrite lookup_insert_eq. simpl. by rewrite lookup_insert_eq.
      * destruct (decide (g' = g)) as [-> | Hg].
        -- rewrite lookup_insert_eq, Eg. simpl.
           rewrite lookup_insert_ne; [done | intros ->; by apply Hd].
        -- by rewrite lookup_insert_ne.
  - rewrite lookup_insert_eq. simpl. rewrite lookup_empty.
    case_decide as Hd.
    * destruct Hd as [-> ->]. rewrite lookup_insert_eq. simpl. by rewrite lookup_insert_eq.
    * destruct (decide (g' = g)) as [-> | Hg].
      -- rewrite lookup_insert_eq, Eg. simpl.
         rewrite lookup_insert_ne; [by rewrite lookup_empty | intros ->; by apply Hd].
      -- rewrite !lookup_insert_ne by done. done.
Qed.

Lemma addGloss_is_Some w t chineseMap g g' :
  is_Some (addGloss w t chineseMap g !! g') <-> g' = g \/ is_Some (chineseMap !! g').
Proof.
  unfold addGloss.
  destruct (chineseMap !! g) as [engMap |] eqn:Eg; simpl.
  - rewrite Eg. simpl. destruct (engMap !! w).
    + split; [by right | intros [-> | ?]; [by rewrite Eg | done]].
    + rewrite lookup_insert_is_Some. split.
      * intros [-> | [_ ?]]; [by left | by right].
      * intros [-> | ?]; [by left |]. destruct (decide (g = g')); [by left | by right].
  - rewrite lookup_insert_eq. simpl. rewrite lookup_empty.
    rewrite !lookup_insert_is_Some. split.
    + intros [-> | [_ [-> | [_ ?]]]]; [by left | by left | by right].
    + intros [-> | ?]; [by left |]. destruct (decide (g = g')); [by left | right].
      split; [done |]. by right.
Qed.

Lemma addRecord_stored chineseMap record g w :
  stored (addRecord chineseMap record) g w
  = match stored chineseMap g w with
    | Some x => Some x
    | None => if decide (observes g w record) then Some (field record 3) else None
    end.
Proof.
  unfold addRecord, observes.
  generalize (extractChineseWords (field record 3)) as gs.
  generalize (field record 0) as w0. generalize (field record 3) as t.
  intros t w0 gs. revert chineseMap.
  induction gs as [| g0 gs IH]; intros chineseMap; simpl.
  - destruct (stored chineseMap g w); [done |].
    rewrite decide_False; [done | intros [_ ?%elem_of_nil]; done].
  - rewrite IH, addGloss_stored. clear IH.
    destruct (decide (g = g0 /\ w = w0)) as [[-> ->] | Hd]; simpl.
    + destruct (stored chineseMap g0 w0); simpl; [done |].
      rewrite decide_True; [done | split; [done | by left]].
    + destruct (stored chineseMap g w); [done |].
      destruct (decide (w0 = w /\ g ∈ gs)) as [[-> Hg] | Hn].
      * rewrite decide_True; [done | split; [done | by right]].
      * rewrite decide_False; [done |].
        intros [-> [-> | Hg]%elem_of_cons]; [by apply Hd | by apply Hn].
Qed.

Lemma addRecord_is_Some chineseMap record g :
  is_Some (addRecord chineseMap record !! g)
  <-> g ∈ extractChineseWords (field record 3) \/ is_Some (chineseMap !! g).
Proof.
  unfold addRecord.
  generalize (extractChineseWords (field record 3)) as gs.
  generalize (field record 0) as w0. generalize (field record 3) as t.
  intros t w0 gs. revert chineseMap.
  induction gs as [| g0 gs IH]; intros chineseMap; simpl.
  - split; [by right | intros [?%elem_of_nil | ?]; done].
  - rewrite IH, addGloss_is_Some, elem_of_cons. tauto.
Qed.

Lemma head_app_option {B : Type} (l k : list B) :
  head (l ++ k) = match head l with Some x => Some x | None => head k end.
Proof. by destruct l. Qed.

Lemma buildChineseMap_snoc allRecords record :
  buildChineseMap (allRecords ++ [record]) = addRecord (buildChineseMap allRecords) record.
Proof. unfold buildChineseMap. by rewrite foldl_snoc. Qed.

(** First write wins: the translation stored for a pair is the first one
    observed for it. *)
Lemma buildChineseMap_stored allRecords g w :
  stored (buildChineseMap allRecords) g w = head (observations allRecords g w).
Proof.
  induction allRecords as [| record allRecords IH] using rev_ind; [done |].
  rewrite buildChineseMap_snoc, addRecord_stored, IH. unfold observations.
  rewrite filter_app, map_app, head_app_option.
  destruct (head _); [done |]. rewrite filter_cons, filter_nil.
  by case_decide.
Qed.

Lemma buildChineseMap_is_Some allRecords g :
  is_Some (buildChineseMap allRecords !! g)
  <-> exists record, record ∈ allRecords /\ g ∈ extractChineseWords (field record 3).
Proof.
  induction allRecords as [| record allRecords IH] using rev_ind.
  - unfold buildChineseMap. simpl. rewrite lookup_empty. split.
    + by intros [? ?].
    + by intros (? & ?%elem_of_nil & _).
  - rewrite buildChineseMap_snoc, addRecord_is_Some, IH. split.
    + intros [Hg | (r & Hr & Hg)].
      * exists record. split; [apply elem_of_app; right; by left | done].
      * exists r. split; [apply elem_of_app; by left | done].
    + intros (r & [Hr | Hr%list_elem_of_singleton]%elem_of_app & Hg).
      * right. by exists r.
      * left. by subst r.
Qed.

Lemma buildBncMap_lookup allRecords w :
  buildBncMap allRecords !! w = frequencyRank allRecords w.
Proof.
  unfold frequencyRank.
  induction allRecords as [| record allRecords IH] using rev_ind; [done |].
  unfold buildBncMap in *. rewrite foldl_snoc, filter_app, head_app_option.
  set (bncMap := foldl addBnc ∅ allRecords) in *.
  rewrite filter_cons, filter_nil.
  destruct (head (filter (fun r => field r 0 = w) allRecords)) as [r0 |]; simpl in *.
  - unfold addBnc. destruct (decide (field record 0 = w)) as [Hw | Hne].
    + by rewrite Hw, IH.
    + destruct (bncMap !! field record 0); [done | by rewrite lookup_insert_ne].
  - unfold addBnc. destruct (decide (field record 0 = w)) as [Hw | Hne].
    + rewrite Hw, IH. by rewrite lookup_insert_eq.
    + destruct (bncMap !! field record 0); [done | by rewrite lookup_insert_ne].
Qed.
End ReverseIndexFacts.

Lemma map_fmap {A B : Type} (f : A -> B) (l : list A) : map f l = f <$> l.
Proof. induction l as [| x l IH]; simpl; [done | by rewrite IH]. Qed.

Section ReverseIndexRows.
Context `{UnicodeTables}.
Implicit Types (allRecords : list (list gostring)) (record : list gostring).
Implicit Types (engMap : gmap (list Z) (list Z)) (bncMap : gmap (list Z) Z).

Lemma rangeMap_Permutation {V : Type} (choices : list nat) (m : gmap (list Z) V) :
  rangeMap choices m ≡ₚ map_to_list m.
Proof. apply reorder_Permutation. Qed.

Lemma rankedWords_Permutation sched bncMap g engMap :
  rankedWords sched bncMap g engMap ≡ₚ mkInfo bncMap <$> map_to_list engMap.
Proof.
  unfold rankedWords. rewrite (sortSlice_Permutation bnc), map_fmap.
  by rewrite rangeMap_Permutation.
Qed.

Lemma rankedWords_sorted sched bncMap g engMap :
  StronglySorted (fun a b => (bnc a <= bnc b)%Z) (rankedWords sched bncMap g engMap).
Proof. apply (sortSlice_sorted bnc). Qed.

Lemma elem_of_rankedWords sched bncMap g engMap info :
  info ∈ rankedWords sched bncMap g engMap
  <-> engMap !! word info = Some (def info)
      /\ bnc info = default unranked (bncMap !! word info).
Proof.
  rewrite rankedWords_Permutation, list_elem_of_fmap. split.
  - intros ([w d] & -> & Hin). apply elem_of_map_to_list in Hin. by simpl.
  - intros [Hl Hb]. exists (word info, def info). split.
    + destruct info. simpl in *. by subst.
    + by apply elem_of_map_to_list.
Qed.

Lemma rankedWords_words sched bncMap g engMap :
  word <$> rankedWords sched bncMap g engMap ≡ₚ (map_to_list engMap).*1.
Proof.
  rewrite rankedWords_Permutation, <- list_fmap_compose.
  erewrite list_fmap_ext; [reflexivity |]. by intros i [w d] _.
Qed.

(** The rows written: one per gloss of the map, holding the joined
    segments of its ranked words. *)
Lemma CreateChineseDB_row input sched g s :
  (g, s) ∈ CreateChineseDB input sched
  <-> is_Some (buildChineseMap (readChinese input []) !! g)
      /\ s = Join (map formatEntry (indexEntries input sched g)) [10%Z].
Proof.
  unfold CreateChineseDB, indexEntries. cbv zeta.
  rewrite map_fmap, list_elem_of_fmap. split.
  - intros ([g' engMap] & Heq & Hin). rewrite rangeMap_Permutation in Hin.
    apply elem_of_map_to_list in Hin. simpl in Heq. injection Heq as Hg Hs. subst g' s.
    rewrite Hin. by split.
  - intros [[engMap Hg] ->]. exists (g, engMap). rewrite Hg. split; [done |].
    rewrite rangeMap_Permutation. by apply elem_of_map_to_list.
Qed.

Lemma observations_nonempty allRecords g w :
  is_Some (head (observations allRecords g w))
  <-> exists record, record ∈ allRecords /\ observes g w record.
Proof.
  rewrite head_is_Some. unfold observations. split.
  - intros Hne. destruct (filter (observes g w) allRecords) as [| r l] eqn:E; [done |].
    assert (Hr : r ∈ filter (observes g w) allRecords) by (rewrite E; by left).
    apply list_elem_of_filter in Hr as [? ?]. by exists r.
  - intros (r & Hr & Ho) Hnil. rewrite map_fmap in Hnil. apply fmap_nil_inv in Hnil.
    assert (Hin : r ∈ filter (observes g w) allRecords) by by apply list_elem_of_filter.
    rewrite Hnil in Hin. by apply elem_of_nil in Hin.
Qed.

Lemma elem_of_firstObserved allRecords g w :
  w ∈ firstObserved allRecords g
  <-> exists record, record ∈ allRecords /\ observes g w record.
Proof.
  unfold firstObserved, observes.
  rewrite elem_of_firstOccurrences, map_fmap, list_elem_of_fmap.
  setoid_rewrite list_elem_of_filter. naive_solver.
Qed.

(** The ranked words of a gloss are its observed words, each once. *)
Lemma indexEntries_words input sched g :
  word <$> indexEntries input sched g ≡ₚ firstObserved (readChinese input []) g.
Proof.
  unfold indexEntries. cbv zeta.
  set (allRecords := readChinese input []).
  destruct (buildChineseMap allRecords !! g) as [engMap |] eqn:Eg.
  - rewrite rankedWords_words. apply NoDup_Permutation.
    + apply NoDup_fst_map_to_list.
    + apply NoDup_firstOccurrences.
    + intros w. rewrite elem_of_firstObserved, <- observations_nonempty.
      rewrite <- buildChineseMap_stored. unfold stored. rewrite Eg. simpl.
      rewrite list_elem_of_fmap. split.
      * intros ([w' d] & -> & Hin). apply elem_of_map_to_list in Hin. by exists d.
      * intros [d Hd]. exists (w, d). split; [done | by apply elem_of_map_to_list].
  - simpl. symmetry. apply Permutation_nil_r.
    destruct (firstObserved allRecords g) as [| w l] eqn:E; [done |].
    assert (Hw : w ∈ firstObserved allRecords g) by (rewrite E; by left).
    apply elem_of_firstObserved in Hw as (r & Hr & _ & Hg).
    assert (Hs : is_Some (buildChineseMap allRecords !! g)).
    { apply buildChineseMap_is_Some. by exists r. }
    rewrite Eg in Hs. by destruct Hs.
Qed.

(** What an entry of the index holds: the first translation observed for
    its pair and the rank of its word. *)
Lemma elem_of_indexEntries input sched g info :
  info ∈ indexEntries input sched g ->
  head (observations (readChinese input []) g (word info)) = Some (def info)
  /\ frequencyRank (readChinese input []) (word info) = Some (bnc info).
Proof.
  unfold indexEntries. cbv zeta.
  set (allRecords := readChinese input []).
  destruct (buildChineseMap allRecords !! g) as [engMap |] eqn:Eg;
    [| by intros ?%elem_of_nil].
  intros [Hl Hb]%elem_of_rankedWords.
  assert (Ho : head (observations allRecords g (word info)) = Some (def info)).
  { rewrite <- buildChineseMap_stored. unfold stored. by rewrite Eg. }
  split; [exact Ho |].
  rewrite buildBncMap_lookup in Hb.
  assert (Hs : is_Some (head (observations allRecords g (word info)))) by by rewrite Ho.
  apply observations_nonempty in Hs as (r & Hr & Hw & _).
  unfold frequencyRank in *.
  destruct (head (filter (fun record => field record 0 = word info) allRecords)) as [r0 |] eqn:E.
  - simpl in *. by rewrite Hb.
  - exfalso. apply head_None in E.
    assert (Hin : r ∈ filter (fun record => field record 0 = word info) allRecords)
      by by apply list_elem_of_filter.
    rewrite E in Hin. by apply elem_of_nil in Hin.
Qed.
End ReverseIndexRows.

Lemma filter_unique {A B : Type} `{EqDecision B} (f : A -> B) (l : list A) (x : A) :
  NoDup (f <$> l) -> x ∈ l -> filter (fun y => f y = f x) l = [x].
Proof.
  induction l as [| y l IH]; [by intros _ ?%elem_of_nil |].
  rewrite fmap_cons, NoDup_cons, filter_cons. intros [Hy Hnd] [-> | Hx]%elem_of_cons.
  - rewrite decide_True by done. f_equal.
    clear IH Hnd. induction l as [| z l IH]; [done |].
    rewrite fmap_cons, not_elem_of_cons in Hy. destruct Hy as [Hne Hy].
    rewrite filter_cons, decide_False by congruence. by apply IH.
  - rewrite decide_False; [by apply IH |].
    intros Heq. apply Hy. rewrite Heq. by apply list_elem_of_fmap_2.
Qed.

Lemma sorted_distinct_strict {A : Type} (key : A -> Z) (l : list A) :
  StronglySorted (fun a b => (key a <= key b)%Z) l -> NoDup (key <$> l) ->
  StronglySorted (fun a b => (key a < key b)%Z) l.
Proof.
  induction 1 as [| x l Hs IH Hx]; [constructor |].
  rewrite fmap_cons, NoDup_cons. intros [Hn Hnd]. constructor; [by apply IH |].
  rewrite Forall_forall in Hx. apply Forall_forall. intros y Hy.
  specialize (Hx y Hy). simpl in Hx.
  assert (key x <> key y) by (intros Heq; apply Hn; rewrite Heq; by apply list_elem_of_fmap_2).
  lia.
Qed.

Section ReverseIndexOrder.
Context `{UnicodeTables}.

Lemma indexEntries_sorted input sched g :
  StronglySorted (fun a b => (bnc a <= bnc b)%Z) (indexEntries input sched g).
Proof.
  unfold indexEntries. cbv zeta.
  destruct (_ !! g); [apply rankedWords_sorted | constructor].
Qed.

(** Two runs rank the same entries for a gloss, *)
Lemma indexEntries_Permutation input sched sched' g :
  indexEntries input sched g ≡ₚ indexEntries input sched' g.
Proof.
  unfold indexEntries. cbv zeta. destruct (_ !! g); [| done].
  by rewrite !rankedWords_Permutation.
Qed.

(** and the ranks along the row are the same in both. *)
Lemma indexEntries_ranks input sched sched' g :
  bnc <$> indexEntries input sched g = bnc <$> indexEntries input sched' g.
Proof.
  apply (StronglySorted_unique Z.le).
  - apply (StronglySorted_fmap bnc (fun a b => (bnc a <= bnc b)%Z)); [done |].
    apply indexEntries_sorted.
  - apply (StronglySorted_fmap bnc (fun a b => (bnc a <= bnc b)%Z)); [done |].
    apply indexEntries_sorted.
  - by rewrite (indexEntries_Permutation input sched sched' g).
Qed.
End ReverseIndexOrder.

Lemma sorted_lookup_le (entries : list engInfo) i j a b :
  StronglySorted (fun a b => (bnc a <= bnc b)%Z) entries ->
  entries !! i = Some a -> entries !! j = Some b -> i <= j -> (bnc a <= bnc b)%Z.
Proof.
  intros Hs Hi Hj Hij. destruct (Z.le_gt_cases (bnc a) (bnc b)) as [| Hlt]; [done |].
  pose proof (sorted_lookup_lt bnc entries j i b a Hs Hj Hi Hlt). lia.
Qed.

Lemma strict_sorted_NoDup {A : Type} (key : A -> Z) (l : list A) :
  StronglySorted (fun a b => (key a < key b)%Z) l -> NoDup (key <$> l).
Proof.
  induction 1 as [| x l Hs IH Hx]; [constructor |].
  rewrite fmap_cons. apply NoDup_cons. split; [| exact IH].
  intros (y & Hxy & Hy)%list_elem_of_fmap.
  rewrite Forall_forall in Hx. specialize (Hx y Hy). simpl in Hx. lia.
Qed.

(** C2, as stated, fails.  "a" is observed before "b" and both have rank 5.
    When the iteration over the two words of the gloss starts at "b", a
    rotation of the other order, the segments come out as "b" then "a",
    against the order of first observation; the sort is left no choice (its
    choices are all 0, where it keeps equal ranks in the order it is
    given). *)
Lemma ties_not_in_observed_order :
  let allRecords := readChinese corpusTie [] in
  let a := {| word := [97]; def := [22909]; bnc := 5 |}%Z in
  let b := {| word := [98]; def := [22909]; bnc := 5 |}%Z in
  @firstObserved coreHan allRecords [22909]%Z = [[97]; [98]]%Z
  /\ frequencyRank allRecords [97]%Z = Some 5%Z
  /\ frequencyRank allRecords [98]%Z = Some 5%Z
  /\ @indexEntries coreHan corpusTie scheduleAB [22909]%Z = [a; b]
  /\ @indexEntries coreHan corpusTie scheduleBA [22909]%Z = [b; a]
  /\ @CreateChineseDB coreHan corpusTie scheduleBA = [([22909]%Z, rowTie)]
  /\ ~ @tiesInObservedOrder coreHan allRecords [22909]%Z
        (@indexEntries coreHan corpusTie scheduleBA [22909]%Z).
Proof.
  cbv zeta. split_and!; try (vm_compute; reflexivity).
  intros Hties.
  specialize (Hties 1 0 {| word := [97]; def := [22909]; bnc := 5 |}%Z
                        {| word := [98]; def := [22909]; bnc := 5 |}%Z).
  assert (Hlt : 1 < 0); [| lia].
  apply Hties; vm_compute; (reflexivity || lia).
Qed.

(** C3, as stated, fails.  The words of 好 have two different ranks, 3 and
    5, and two of them share the rank 5: in every run the ranks along the row
    are 3, 5, 5, which is ascending but not strictly so. *)
Lemma englishEntries_not_strict :
  let allRecords := readChinese corpusRanks [] in
  @firstObserved coreHan allRecords [22909]%Z = [[97]; [98]; [99]]%Z
  /\ frequencyRank allRecords [97]%Z = Some 3%Z
  /\ frequencyRank allRecords [98]%Z = Some 5%Z
  /\ frequencyRank allRecords [99]%Z = Some 5%Z
  /\ (forall sched,
        bnc <$> @indexEntries coreHan corpusRanks sched [22909]%Z = [3; 5; 5]%Z)
  /\ (forall sched,
        ~ StronglySorted (fun a b => (bnc a < bnc b)%Z)
            (@indexEntries coreHan corpusRanks sched [22909]%Z)).
Proof.
  cbv zeta.
  assert (R : forall sched,
             bnc <$> @indexEntries coreHan corpusRanks sched [22909]%Z = [3; 5; 5]%Z).
  { intros sched. rewrite (@indexEntries_ranks coreHan corpusRanks sched plainSchedule).
    vm_compute. reflexivity. }
  split_and!; try (vm_compute; reflexivity); [exact R |].
  intros sched Hs%(strict_sorted_NoDup bnc). rewrite R in Hs.
  apply NoDup_cons in Hs as [_ Hs]. apply NoDup_cons in Hs as [Hn _].
  apply Hn. by left.
Qed.

Section ReverseIndexResults.
Context `{UnicodeTables}.

(** C2, amended.  The row of a gloss holds one segment for each of its
    observed words, each once.  Words of equal rank stand next to each other,
    in an order that the program does not fix: the row of another run holds
    the same entries with the same ranks from first to last, so it differs at
    most in the order among words of equal rank, and an entry whose rank no
    other entry shares stands at the same place in every run. *)
Theorem englishEntries_ties input sched g s :
  (g, s) ∈ CreateChineseDB input sched ->
  s = Join (map formatEntry (indexEntries input sched g)) [10%Z]
  /\ word <$> indexEntries input sched g ≡ₚ firstObserved (readChinese input []) g
  /\ (forall i j k a b c,
        indexEntries input sched g !! i = Some a ->
        indexEntries input sched g !! j = Some b ->
        indexEntries input sched g !! k = Some c ->
        i <= j <= k -> bnc a = bnc c -> bnc b = bnc a)
  /\ (forall sched',
        ((g, Join (map formatEntry (indexEntries input sched' g)) [10%Z])
           ∈ CreateChineseDB input sched')
        /\ indexEntries input sched' g ≡ₚ indexEntries input sched g
        /\ bnc <$> indexEntries input sched' g = bnc <$> indexEntries input sched g
        /\ (forall i a,
              indexEntries input sched g !! i = Some a ->
              (forall b, b ∈ indexEntries input sched g -> bnc b = bnc a -> b = a) ->
              indexEntries input sched' g !! i = Some a)).
Proof.
  intros [Hsome ->]%CreateChineseDB_row. split_and!.
  - reflexivity.
  - apply indexEntries_words.
  - intros i j k a b c Hi Hj Hk [Hij Hjk] Hac.
    pose proof (indexEntries_sorted input sched g) as Hs.
    pose proof (sorted_lookup_le _ i j a b Hs Hi Hj Hij).
    pose proof (sorted_lookup_le _ j k b c Hs Hj Hk Hjk). lia.
  - intros sched'. split_and!.
    + by apply CreateChineseDB_row.
    + apply indexEntries_Permutation.
    + apply indexEntries_ranks.
    + intros i a Hi Huniq.
      pose proof (indexEntries_ranks input sched' sched g) as Hr.
      assert (Hb : (bnc <$> indexEntries input sched' g) !! i = Some (bnc a)).
      { by rewrite Hr, list_lookup_fmap, Hi. }
      rewrite list_lookup_fmap in Hb.
      destruct (indexEntries input sched' g !! i) as [a' |] eqn:Hi'; [| done].
      injection Hb as Hb. f_equal. apply Huniq; [| exact Hb].
      rewrite <- (indexEntries_Permutation input sched' sched g).
      by eapply list_elem_of_lookup_2.
Qed.

(** C3, amended.  The segments of a gloss are those of its observed words,
    each with the rank of its word, in ascending order of rank: a word of
    smaller rank stands before every word of larger rank.  The order is
    strictly ascending throughout exactly when no two words of the gloss
    share a rank. *)
Theorem englishEntries_ascending input sched g s :
  (g, s) ∈ CreateChineseDB input sched ->
  s = Join (map formatEntry (indexEntries input sched g)) [10%Z]
  /\ word <$> indexEntries input sched g ≡ₚ firstObserved (readChinese input []) g
  /\ Forall (fun info =>
               frequencyRank (readChinese input []) (word info) = Some (bnc info))
       (indexEntries input sched g)
  /\ StronglySorted (fun a b => (bnc a <= bnc b)%Z) (indexEntries input sched g)
  /\ (forall i j a b,
        indexEntries input sched g !! i = Some a ->
        indexEntries input sched g !! j = Some b ->
        (bnc a < bnc b)%Z -> i < j)
  /\ (StronglySorted (fun a b => (bnc a < bnc b)%Z) (indexEntries input sched g)
      <-> NoDup (bnc <$> indexEntries input sched g)).
Proof.
  intros [Hsome ->]%CreateChineseDB_row.
  pose proof (indexEntries_sorted input sched g) as Hs.
  split_and!.
  - reflexivity.
  - apply indexEntries_words.
  - apply Forall_forall. intros info Hin. by apply elem_of_indexEntries in Hin as [_ ?].
  - exact Hs.
  - intros i j a b. by apply (sorted_lookup_lt bnc).
  - split; [apply strict_sorted_NoDup | by apply sorted_distinct_strict].
Qed.

(** C6.  The translation stored for a pair of gloss and source word is the
    first one observed for the pair in corpus order, whatever is observed
    later; it is the translation of the one segment that the row of the
    gloss holds for the word. *)
Theorem first_translation_wins input sched g w t :
  head (observations (readChinese input []) g w) = Some t ->
  stored (buildChineseMap (readChinese input [])) g w = Some t
  /\ (forall later,
        stored (buildChineseMap (readChinese input [] ++ later)) g w = Some t)
  /\ exists s entries rank,
       (g, s) ∈ CreateChineseDB input sched
       /\ s = Join (map formatEntry entries) [10%Z]
       /\ filter (fun info => word info = w) entries
          = [{| word := w; def := t; bnc := rank |}].
Proof.
  intros Hfirst. set (allRecords := readChinese input []) in *.
  split; [by rewrite buildChineseMap_stored |].
  split.
  { intros later. rewrite buildChineseMap_stored. unfold observations.
    rewrite filter_app, map_app, head_app_option.
    unfold observations in Hfirst. by rewrite Hfirst. }
  assert (Hobs : exists record, record ∈ allRecords /\ observes g w record).
  { apply observations_nonempty. by rewrite Hfirst. }
  assert (Hw : w ∈ word <$> indexEntries input sched g).
  { rewrite indexEntries_words. by apply elem_of_firstObserved. }
  apply list_elem_of_fmap in Hw as (info & -> & Hinfo).
  destruct (elem_of_indexEntries _ _ _ _ Hinfo) as [Hdef _].
  fold allRecords in Hdef. rewrite Hfirst in Hdef. injection Hdef as ->.
  exists (Join (map formatEntry (indexEntries input sched g)) [10%Z]),
    (indexEntries input sched g), (bnc info).
  split.
  { apply CreateChineseDB_row. split; [| done].
    destruct Hobs as (r & Hr & _ & Hg). apply buildChineseMap_is_Some. by exists r. }
  split; [done |].
  rewrite (filter_unique word _ info); [by destruct info | | exact Hinfo].
  rewrite indexEntries_words. apply NoDup_firstOccurrences.
Qed.

(** C10.  The extractor emits no empty fragment, and every gloss written
    to the reverse index is a non-empty string of Han runes, '·' and '—'. *)
Theorem gloss_keys input sched :
  (forall translation,
     ([] ∉ extractChineseWords translation)
     /\ Forall (fun g => isAllChinese g = true) (extractChineseWords translation))
  /\ (forall g s,
        (g, s) ∈ CreateChineseDB input sched ->
        g <> []
        /\ Forall (fun r => Han r = true \/ r = 183%Z \/ r = 8212%Z) g).
Proof.
  split.
  - intros translation. split; [| apply extractChineseWords_all].
    intros Hin. pose proof (extractChineseWords_all translation) as Hall.
    rewrite Forall_forall in Hall. by specialize (Hall _ Hin).
  - intros g s [Hsome _]%CreateChineseDB_row.
    apply buildChineseMap_is_Some in Hsome as (r & _ & Hg).
    pose proof (extractChineseWords_all (field r 3)) as Hall.
    rewrite Forall_forall in Hall. specialize (Hall _ Hg).
    apply isAllChinese_spec in Hall as [Hne Hall]. split; [exact Hne |].
    eapply Forall_impl; [exact Hall |]. intros c Hc. unfold glossRune in Hc.
    apply orb_true_iff in Hc as [Hc | Hc%Z.eqb_eq]; [| by right; right].
    apply orb_true_iff in Hc as [Hc | Hc%Z.eqb_eq]; [by left | by right; left].
Qed.
End ReverseIndexResults.

Example CreateChineseDB_run :
  @CreateChineseDB coreHan corpusAB plainSchedule
  = [([32654], [98; 65288; 22909; 44; 32654; 65289]);
     ([32654; 22909], [97; 65288; 32654; 22909; 65289]);
     ([22909], rowHao)]%Z.
Proof. vm_compute. reflexivity. Qed.

Lemma englishEntries_ties_witness :
  let entries sched := @indexEntries coreHan corpusTie sched [22909]%Z in
  rowTie = Join (map formatEntry (entries scheduleBA)) [10%Z]
  /\ word <$> entries scheduleBA ≡ₚ @firstObserved coreHan (readChinese corpusTie []) [22909]%Z
  /\ (forall i j k a b c,
        entries scheduleBA !! i = Some a ->
        entries scheduleBA !! j = Some b ->
        entries scheduleBA !! k = Some c ->
        i <= j <= k -> bnc a = bnc c -> bnc b = bnc a)
  /\ (forall sched',
        (([22909]%Z, Join (map formatEntry (entries sched')) [10%Z])
           ∈ @CreateChineseDB coreHan corpusTie sched')
        /\ entries sched' ≡ₚ entries scheduleBA
        /\ bnc <$> entries sched' = bnc <$> entries scheduleBA
        /\ (forall i a,
              entries scheduleBA !! i = Some a ->
              (forall b, b ∈ entries scheduleBA -> bnc b = bnc a -> b = a) ->
              entries sched' !! i = Some a)).
Proof.
  apply (@englishEntries_ties coreHan corpusTie scheduleBA [22909]%Z rowTie).
  apply (bool_decide_unpack _). vm_compute. exact I.
Defined.

Lemma englishEntries_ascending_witness :
  let entries := @indexEntries coreHan corpusAB plainSchedule [22909]%Z in
  rowHao = Join (map formatEntry entries) [10%Z]
  /\ word <$> entries ≡ₚ @firstObserved coreHan (readChinese corpusAB []) [22909]%Z
  /\ Forall (fun info =>
               frequencyRank (readChinese corpusAB []) (word info) = Some (bnc info)) entries
  /\ StronglySorted (fun a b => (bnc a <= bnc b)%Z) entries
  /\ (forall i j a b,
        entries !! i = Some a -> entries !! j = Some b -> (bnc a < bnc b)%Z -> i < j)
  /\ (StronglySorted (fun a b => (bnc a < bnc b)%Z) entries <-> NoDup (bnc <$> entries)).
Proof.
  apply (@englishEntries_ascending coreHan corpusAB plainSchedule [22909]%Z rowHao).
  apply (bool_decide_unpack _). vm_compute. exact I.
Defined.

Lemma first_translation_wins_witness :
  @stored (@buildChineseMap coreHan (readChinese corpusAB [])) [22909]%Z [97]%Z
  = Some [22909]%Z
  /\ (forall later,
        @stored (@buildChineseMap coreHan (readChinese corpusAB [] ++ later)) [22909]%Z [97]%Z
        = Some [22909]%Z)
  /\ exists s entries rank,
       (([22909]%Z, s) ∈ @CreateChineseDB coreHan corpusAB plainSchedule)
       /\ s = Join (map formatEntry entries) [10%Z]
       /\ filter (fun info => word info = [97]%Z) entries
          = [{| word := [97]%Z; def := [22909]%Z; bnc := rank |}].
Proof.
  apply (@first_translation_wins coreHan corpusAB plainSchedule [22909]%Z [97]%Z [22909]%Z).
  vm_compute. reflexivity.
Defined.

Lemma gloss_keys_witness :
  [22909]%Z <> []
  /\ Forall (fun r => @Han coreHan r = true \/ r = 183%Z \/ r = 8212%Z) [22909]%Z.
Proof.
  apply (proj2 (@gloss_keys coreHan corpusAB plainSchedule) [22909]%Z rowHao).
  apply (bool_decide_unpack _). vm_compute. exact I.
Defined.

(** * Further results *)

(** ** The search history *)

(** X1.  Adding the word that was added last changes nothing, whatever the
    history holds. *)
Theorem addToHistory_idempotent word (h : list gostring) :
  addToHistory word (addToHistory word h) = addToHistory word h.
Proof.
  rewrite !addToHistory_unfold. unfold maxHistorySize.
  change (take 20 (word :: spliceOut word h)) with (word :: take 19 (spliceOut word h)).
  simpl spliceOut. rewrite decide_True by reflexivity.
  change (take 20 (word :: take 19 (spliceOut word h)))
    with (word :: take 19 (take 19 (spliceOut word h))).
  by rewrite take_take, Nat.min_id.
Qed.

(** X2.  After any sequence of additions to the empty history the program
    starts with, the history holds the added words from the latest back, each
    once at its latest addition, cut at twenty: it keeps the invariant, holds
    only added words, has the word added last in front, and holds every added
    word as long as no more than twenty different words were added. *)
Theorem history_of_session (words : list gostring) :
  historyAfter words = take maxHistorySize (firstOccurrences (rev words))
  /\ historyInv (historyAfter words)
  /\ (forall w, w ∈ historyAfter words -> w ∈ words)
  /\ head (rev words) = head (historyAfter words)
  /\ (length (firstOccurrences (rev words)) <= maxHistorySize ->
        forall w, w ∈ words -> w ∈ historyAfter words).
Proof.
  rewrite historyAfter_recent_first. split_and!.
  - reflexivity.
  - split.
    + eapply sublist_NoDup; [apply NoDup_firstOccurrences | apply sublist_take].
    + rewrite length_take. lia.
  - intros w (i & Hi & _)%elem_of_take.
    apply list_elem_of_lookup_2 in Hi.
    apply (proj1 (elem_of_firstOccurrences _ _)) in Hi.
    by rewrite list_elem_of_In, <- in_rev, <- list_elem_of_In in Hi.
  - by destruct (rev words).
  - intros Hlen w Hin. rewrite take_ge by exact Hlen.
    apply (proj2 (elem_of_firstOccurrences _ _)).
    by rewrite list_elem_of_In, <- in_rev, <- list_elem_of_In.
Qed.

(** ** The tiered search *)

(** X3.  A search returns only keys of its table, and only keys that the
    store's LIKE matches against the keyword with a '%' before and after it;
    this holds for every keyword, wildcards and U+0000 included, and
    whichever queries fail. *)
Theorem search_sound db keyword :
  Forall (fun k => k ∈ rows db /\ like (37%Z :: keyword ++ [37%Z]) k = true)
    (searchEnglish db keyword)
  /\ Forall (fun k => k ∈ rows db /\ like (37%Z :: keyword ++ [37%Z]) k = true)
       (searchChinese db keyword).
Proof.
  split; apply Forall_forall; intros k Hk; by eapply tieredSearch_elem.
Qed.

Lemma runTier_prefix db distinct tier cond limit st :
  searchInv st ->
  st.1 `prefix_of` (runTier (query db distinct tier cond limit) st).1
  /\ searchInv (runTier (query db distinct tier cond limit) st).
Proof.
  intros Hinv. destruct (runTier_spec db distinct tier cond limit st Hinv)
    as (new & -> & Hinv' & _). split; [by exists new | done].
Qed.

Lemma scanRows_first (w : gostring) (found : list gostring) :
  exists new, (scanRows (w :: found) [] ∅).1 = w :: new.
Proof.
  simpl. rewrite decide_False by set_solver.
  destruct (scanRows_spec found [w] ({[w]} ∪ ∅)) as (new & -> & _).
  by exists new.
Qed.

Lemma tieredSearch_head db distinct keyword :
  keyword ∈ rows db -> queryFails db 1 = false ->
  head (tieredSearch db distinct keyword) = Some keyword.
Proof.
  intros Hin Hok. unfold tieredSearch. cbv zeta.
  set (c1 := fun k : gostring => bool_decide (k = keyword)).
  set (c2 := fun k : gostring => like (keyword ++ [37%Z]) k && negb (bool_decide (k = keyword))).
  set (c3 := fun k : gostring => like (37%Z :: keyword ++ [37%Z]) k && negb (like (keyword ++ [37%Z]) k)).
  set (st1 := runTier (query db distinct 1 c1 100) ([], ∅)).
  set (st2 := runTier (query db distinct 2 c2 (100 - length st1.1)) st1).
  set (st3 := runTier (query db distinct 3 c3 (100 - length st2.1)) st2).
  assert (H0 : searchInv ([], ∅)) by (split; [constructor | reflexivity]).
  assert (H1 : exists rest, st1.1 = keyword :: rest).
  { unfold st1. rewrite query_ok by done. simpl.
    assert (Hm : keyword ∈ matching db distinct c1).
    { apply elem_of_matching. split; [done | by apply bool_decide_eq_true]. }
    assert (Hall : Forall (fun k => k = keyword) (matching db distinct c1)).
    { apply Forall_forall. intros k [_ Hk]%elem_of_matching. by apply bool_decide_eq_true in Hk. }
    destruct (matching db distinct c1) as [| k l]; [by apply elem_of_nil in Hm |].
    apply Forall_cons in Hall as [-> _].
    change (take 100 (keyword :: l)) with (keyword :: take 99 l).
    apply scanRows_first. }
  destruct H1 as [rest1 E1].
  destruct (runTier_prefix db distinct 1 c1 100 _ H0) as [_ I1]. fold st1 in I1.
  destruct (runTier_prefix db distinct 2 c2 (100 - length st1.1) _ I1) as [[n2 E2] I2].
  fold st2 in E2, I2.
  destruct (runTier_prefix db distinct 3 c3 (100 - length st2.1) _ I2) as [[n3 E3] _].
  fold st3 in E3.
  repeat case_decide.
  - by rewrite E1.
  - by rewrite E2, E1.
  - by rewrite E3, E2, E1.
Qed.

(** X4.  A keyword that is itself a key of the table comes first in the
    result, provided the first query does not fail. *)
Theorem search_exact_first db keyword :
  keyword ∈ rows db -> queryFails db 1 = false ->
  head (searchEnglish db keyword) = Some keyword
  /\ head (searchChinese db keyword) = Some keyword.
Proof. intros Hin Hok. split; by apply tieredSearch_head. Qed.

Lemma search_exact_first_witness :
  head (searchEnglish {| rows := [[97; 98]; [97]]%Z; queryFails := fun _ => false |} [97]%Z)
  = Some [97]%Z
  /\ head (searchChinese {| rows := [[97; 98]; [97]]%Z; queryFails := fun _ => false |} [97]%Z)
     = Some [97]%Z.
Proof.
  apply (search_exact_first {| rows := [[97; 98]; [97]]%Z; queryFails := fun _ => false |} [97]%Z).
  - apply (bool_decide_unpack _). vm_compute. exact I.
  - reflexivity.
Defined.

Lemma NoDup_all_equal {A : Type} (x : A) (l : list A) :
  NoDup l -> Forall (fun y => y = x) l -> length l <= 1.
Proof.
  intros Hnd Hall. destruct l as [| a [| b l]]; simpl; [lia | lia |].
  apply Forall_cons in Hall as [-> Hall]. apply Forall_cons in Hall as [-> _].
  apply NoDup_cons in Hnd as [Hn _]. exfalso. apply Hn. by left.
Qed.

(** A tier whose matching keys are pairwise different and new appends as
    many of them as the limit allows, in their order. *)
Lemma runTier_fresh db distinct tier cond limit st :
  searchInv st -> queryFails db tier = false ->
  NoDup (matching db distinct cond) ->
  (forall k, k ∈ matching db distinct cond -> k ∉ st.1) ->
  (runTier (query db distinct tier cond limit) st).1
  = st.1 ++ take limit (matching db distinct cond).
Proof.
  intros [_ Hseen] Hok Hnd Hfresh. rewrite query_ok by done. simpl.
  apply scanRows_fresh.
  - eapply sublist_NoDup; [exact Hnd | apply sublist_take].
  - intros k Hk. rewrite Hseen, elem_of_list_to_set. apply Hfresh.
    eapply elem_of_sublist; [exact Hk | apply sublist_take].
Qed.

Lemma take_short {A : Type} (l k : list A) n :
  length (k ++ take (n - length k) l) < n -> take (n - length k) l = l.
Proof.
  rewrite length_app, length_take. intros Hlen. apply take_ge. lia.
Qed.

(** Without a failing query, and with keys that the queries return once
    each, the result is the uncapped answer cut at 100. *)
Lemma tieredSearch_take db distinct keyword :
  distinct = true \/ NoDup (rows db) ->
  (forall tier, queryFails db tier = false) ->
  tieredSearch db distinct keyword = take 100 (uncapped db distinct keyword).
Proof.
  intros Hd Hok. unfold tieredSearch, uncapped. cbv zeta.
  set (c1 := fun k : gostring => bool_decide (k = keyword)).
  set (c2 := fun k : gostring => like (keyword ++ [37%Z]) k && negb (bool_decide (k = keyword))).
  set (c3 := fun k : gostring => like (37%Z :: keyword ++ [37%Z]) k && negb (like (keyword ++ [37%Z]) k)).
  set (st1 := runTier (query db distinct 1 c1 100) ([], ∅)).
  set (st2 := runTier (query db distinct 2 c2 (100 - length st1.1)) st1).
  set (st3 := runTier (query db distinct 3 c3 (100 - length st2.1)) st2).
  set (L1 := matching db distinct c1). set (L2 := matching db distinct c2).
  set (L3 := matching db distinct c3).
  assert (H0 : searchInv ([], ∅)) by (split; [constructor | reflexivity]).
  destruct (runTier_prefix db distinct 1 c1 100 _ H0) as [_ I1]. fold st1 in I1.
  destruct (runTier_prefix db distinct 2 c2 (100 - length st1.1) _ I1) as [_ I2].
  fold st2 in I2.
  assert (A1 : forall k, k ∈ L1 -> k = keyword).
  { intros k [_ Hk]%elem_of_matching. by apply bool_decide_eq_true in Hk. }
  assert (A2 : forall k, k ∈ L2 -> like (keyword ++ [37%Z]) k = true /\ k <> keyword).
  { intros k [_ Hk]%elem_of_matching. apply andb_true_iff in Hk as [? Hk].
    by apply negb_true_iff, bool_decide_eq_false in Hk. }
  assert (A3 : forall k, k ∈ L3 -> like (keyword ++ [37%Z]) k = false).
  { intros k [_ Hk]%elem_of_matching. apply andb_true_iff in Hk as [_ Hk].
    by apply negb_true_iff in Hk. }
  assert (Hone : length L1 <= 1).
  { pose proof (NoDup_all_equal keyword L1 (NoDup_matching db distinct c1 Hd)) as Hle.
    rewrite Forall_forall in Hle. by apply Hle. }
  assert (E1 : st1.1 = L1).
  { unfold st1. rewrite runTier_fresh; try done.
    - simpl. apply take_ge. fold L1. lia.
    - by apply NoDup_matching.
    - intros k _ Hk. by apply elem_of_nil in Hk. }
  assert (E2 : st2.1 = L1 ++ take (100 - length L1) L2).
  { unfold st2. rewrite runTier_fresh; try done; [by rewrite E1 | by apply NoDup_matching |].
    intros k Hk Hk1. rewrite E1 in Hk1. destruct (A2 k Hk) as [_ Hne]. by apply Hne, A1. }
  assert (E3 : st3.1 = st2.1 ++ take (100 - length st2.1) L3).
  { unfold st3. apply runTier_fresh; try done; [by apply NoDup_matching |].
    intros k Hk Hk2. pose proof (A3 k Hk) as Hno.
    rewrite E2 in Hk2. apply elem_of_app in Hk2 as [Hk2 | Hk2].
    - apply A1 in Hk2 as ->. by rewrite like_self in Hno.
    - pose proof (elem_of_sublist _ _ _ Hk2 (sublist_take _ _)) as Hk2'.
      destruct (A2 k Hk2') as [Hyes _]. congruence. }
  rewrite !take_app.
  case_decide as D1; [rewrite E1 in D1; lia |].
  case_decide as D2.
  - rewrite E2 in *. rewrite length_app, length_take in D2.
    rewrite (take_ge L1) by lia.
    replace (100 - length L1 - length L2) with 0 by lia. by rewrite take_0, app_nil_r.
  - rewrite E3, E2. rewrite E2, length_app, length_take in D2.
    rewrite (take_ge L1) by lia. rewrite (take_ge L2) by lia.
    rewrite <- app_assoc. do 2 f_equal. rewrite length_app. f_equal. lia.
Qed.

Lemma tieredSearch_below_cap db distinct keyword :
  distinct = true \/ NoDup (rows db) ->
  (forall tier, queryFails db tier = false) ->
  length (tieredSearch db distinct keyword) < 100 ->
  tieredSearch db distinct keyword = uncapped db distinct keyword.
Proof.
  intros Hd Hok. rewrite (tieredSearch_take db distinct keyword Hd Hok).
  rewrite length_take. intros Hlen. apply take_ge. lia.
Qed.

Lemma elem_of_uncapped db distinct keyword k :
  k ∈ uncapped db distinct keyword
  <-> k ∈ rows db /\ like (37%Z :: keyword ++ [37%Z]) k = true.
Proof.
  unfold uncapped. rewrite !elem_of_app, !elem_of_matching. split.
  - intros [[Hr Hc] | [[Hr Hc] | [Hr Hc]]]; (split; [done |]).
    + apply bool_decide_eq_true in Hc as ->. apply like_anywhere, like_self.
    + apply andb_true_iff in Hc as [Hc _]. by apply like_anywhere.
    + by apply andb_true_iff in Hc as [Hc _].
  - intros [Hr Hl]. destruct (decide (k = keyword)) as [-> | Hne].
    + left. split; [done | by apply bool_decide_eq_true].
    + right. destruct (like (keyword ++ [37%Z]) k) eqn:Hp.
      * left. split; [done |]. simpl.
        by apply negb_true_iff, bool_decide_eq_false.
      * right. split; [done |]. by rewrite Hl.
Qed.

(** X5.  When no query fails, the gloss search returns the first 100 keys
    of the uncapped answer: the keys equal to the keyword, then the other keys
    that LIKE matches against the keyword followed by '%', then the keys that
    LIKE matches only with a '%' before the keyword too, in the store's
    order.  So a result of fewer than 100 keys holds every key of the table
    that LIKE matches against the keyword between two '%'.  The word search
    does the same when the keys of its table are pairwise different. *)
Theorem search_capped_answer db keyword :
  (forall tier, queryFails db tier = false) ->
  (searchChinese db keyword = take 100 (uncapped db true keyword)
   /\ (length (searchChinese db keyword) < 100 ->
         forall k, k ∈ rows db -> like (37%Z :: keyword ++ [37%Z]) k = true ->
                   k ∈ searchChinese db keyword))
  /\ (NoDup (rows db) ->
        searchEnglish db keyword = take 100 (uncapped db false keyword)
        /\ (length (searchEnglish db keyword) < 100 ->
              forall k, k ∈ rows db -> like (37%Z :: keyword ++ [37%Z]) k = true ->
                        k ∈ searchEnglish db keyword)).
Proof.
  intros Hok. unfold searchChinese, searchEnglish. split.
  - split; [apply tieredSearch_take; auto |].
    intros Hlen k Hr Hl.
    rewrite (tieredSearch_below_cap db true keyword) by auto.
    by apply elem_of_uncapped.
  - intros Hnd. split; [apply tieredSearch_take; auto |].
    intros Hlen k Hr Hl.
    rewrite (tieredSearch_below_cap db false keyword) by auto.
    by apply elem_of_uncapped.
Qed.

Lemma search_capped_answer_witness :
  searchChinese tableLike [108; 105; 107]%Z = take 100 (uncapped tableLike true [108; 105; 107]%Z)
  /\ (length (searchChinese tableLike [108; 105; 107]%Z) < 100 ->
        forall k, k ∈ rows tableLike -> like (37%Z :: [108; 105; 107]%Z ++ [37%Z]) k = true ->
                  k ∈ searchChinese tableLike [108; 105; 107]%Z).
Proof.
  apply (proj1 (search_capped_answer tableLike [108; 105; 107]%Z (fun _ => eq_refl))).
Defined.

(** ** Trimming *)

Lemma sublist_rev {A : Type} (l1 l2 : list A) :
  l1 `sublist_of` l2 -> rev l1 `sublist_of` rev l2.
Proof.
  induction 1 as [| x l1 l2 _ IH | x l1 l2 _ IH]; simpl.
  - constructor.
  - by apply sublist_app.
  - by apply sublist_inserts_r.
Qed.

Lemma TrimLeft_sublist f (s : gostring) : TrimLeft f s `sublist_of` s.
Proof.
  induction s as [| c s IH]; simpl; [constructor |].
  destruct (f c); [by apply sublist_cons | reflexivity].
Qed.

Lemma TrimRight_sublist f (s : gostring) : TrimRight f s `sublist_of` s.
Proof.
  unfold TrimRight. rewrite <- (rev_involutive s) at 2.
  apply sublist_rev, TrimLeft_sublist.
Qed.

Lemma TrimSpace_sublist (s : gostring) : TrimSpace s `sublist_of` s.
Proof.
  unfold TrimSpace. etransitivity; [apply TrimRight_sublist | apply TrimLeft_sublist].
Qed.

Lemma TrimLeft_spaces f (ws s : gostring) :
  Forall (fun c => f c = true) ws -> TrimLeft f (ws ++ s) = TrimLeft f s.
Proof. induction 1 as [| c ws Hc _ IH]; simpl; [done | by rewrite Hc]. Qed.

Lemma TrimLeft_snoc f (s : gostring) x :
  TrimLeft f (s ++ [x])
  = match TrimLeft f s with
    | [] => if f x then [] else [x]
    | _ :: _ => TrimLeft f s ++ [x]
    end.
Proof.
  induction s as [| c s IH]; simpl; [done |].
  destruct (f c); [exact IH | reflexivity].
Qed.

Lemma TrimRight_cons f (s : gostring) x :
  TrimRight f (x :: s)
  = match TrimRight f s with
    | [] => if f x then [] else [x]
    | _ :: _ => x :: TrimRight f s
    end.
Proof.
  unfold TrimRight. simpl. rewrite TrimLeft_snoc.
  destruct (TrimLeft f (rev s)) as [| c l] eqn:E; simpl.
  - by destruct (f x).
  - rewrite rev_app_distr. simpl. destruct (rev l ++ [c]) eqn:E'; [| done].
    by destruct (rev l).
Qed.

Lemma Trim_comm f (s : gostring) :
  TrimRight f (TrimLeft f s) = TrimLeft f (TrimRight f s).
Proof.
  induction s as [| x s IH]; [reflexivity |].
  simpl. rewrite TrimRight_cons. destruct (f x) eqn:Hx.
  - rewrite IH. destruct (TrimRight f s); simpl; [done | by rewrite Hx].
  - rewrite TrimRight_cons. destruct (TrimRight f s); simpl; by rewrite Hx.
Qed.

Lemma TrimRight_spaces f (s ws : gostring) :
  Forall (fun c => f c = true) ws -> TrimRight f (s ++ ws) = TrimRight f s.
Proof.
  intros Hws. unfold TrimRight. rewrite rev_app_distr, TrimLeft_spaces; [done |].
  apply Forall_forall. intros c Hc. rewrite Forall_forall in Hws.
  apply Hws. apply list_elem_of_In. apply in_rev. by apply list_elem_of_In.
Qed.

(** White space around a string does not change what trimming gives. *)
Lemma TrimSpace_padded (ws1 s ws2 : gostring) :
  Forall (fun c => IsSpace c = true) ws1 -> Forall (fun c => IsSpace c = true) ws2 ->
  TrimSpace (ws1 ++ s ++ ws2) = TrimSpace s.
Proof.
  intros H1 H2. unfold TrimSpace.
  rewrite TrimLeft_spaces by done.
  by rewrite !Trim_comm, TrimRight_spaces.
Qed.

Lemma TrimSpace_fixed (s : gostring) :
  Forall (fun c => IsSpace c = false) s -> TrimSpace s = s.
Proof.
  intros Hs. assert (Hl : forall t : gostring,
    Forall (fun c => IsSpace c = false) t -> TrimLeft IsSpace t = t).
  { intros [| c t] Ht; [done |]. apply Forall_cons in Ht as [Hc _]. simpl. by rewrite Hc. }
  unfold TrimSpace, TrimRight. rewrite (Hl s Hs), Hl; [apply rev_involutive |].
  apply Forall_forall. intros c Hc. rewrite Forall_forall in Hs.
  apply Hs. apply list_elem_of_In. apply in_rev. by apply list_elem_of_In.
Qed.

(** ** Frequency parsing *)

Lemma Atoi_range s n : Atoi s = Some n -> (minInt <= n <= maxInt)%Z.
Proof.
  unfold Atoi.
  destruct (match s with
            | [] => (false, s)
            | c :: s' =>
                if (c =? 43)%Z then (false, s')
                else if (c =? 45)%Z then (true, s') else (false, s)
            end) as [neg body].
  destruct body as [| d body]; [discriminate |].
  destruct (digitsVal 0 (d :: body)) as [v |]; [| discriminate].
  destruct (_ && _) eqn:E; [| discriminate]. intros [= <-].
  apply andb_true_iff in E as [E1 E2]. lia.
Qed.

(** X6.  [parseBNC] never returns 0 and never a value outside [int];
    white space before and after the digits does not change the rank. *)
Theorem parseBNC_total bnc (ws1 ws2 : gostring) :
  Forall (fun c => IsSpace c = true) ws1 -> Forall (fun c => IsSpace c = true) ws2 ->
  parseBNC bnc <> 0%Z
  /\ (minInt <= parseBNC bnc <= maxInt)%Z
  /\ parseBNC (ws1 ++ bnc ++ ws2) = parseBNC bnc.
Proof.
  intros H1 H2.
  assert (Hrange : parseBNC bnc <> 0%Z /\ (minInt <= parseBNC bnc <= maxInt)%Z).
  { unfold parseBNC. destruct (TrimSpace bnc) as [| c t] eqn:Et.
    - rewrite unranked_value. unfold minInt, maxInt. lia.
    - destruct (Atoi (c :: t)) as [n |] eqn:Ea.
      + destruct (Z.eqb_spec n 0) as [-> | Hn].
        * rewrite unranked_value. unfold minInt, maxInt. lia.
        * split; [exact Hn | by apply (Atoi_range (c :: t))].
      + rewrite unranked_value. unfold minInt, maxInt. lia. }
  destruct Hrange as [Hz Hr]. split; [exact Hz |]. split; [exact Hr |].
  unfold parseBNC. by rewrite TrimSpace_padded.
Qed.

Lemma parseBNC_total_witness :
  parseBNC [50; 53]%Z <> 0%Z
  /\ (minInt <= parseBNC [50; 53]%Z <= maxInt)%Z
  /\ parseBNC ([32; 9]%Z ++ [50; 53]%Z ++ [13; 10]%Z) = parseBNC [50; 53]%Z.
Proof.
  apply (parseBNC_total [50; 53]%Z [32; 9]%Z [13; 10]%Z);
    apply (bool_decide_unpack _); vm_compute; exact I.
Defined.

(** ** The gloss extractor *)

Lemma existsb_eqb_true close (s : gostring) :
  existsb (Z.eqb close) s = true -> close ∈ s.
Proof.
  induction s as [| c s IH]; simpl; [discriminate |].
  intros [Hc%Z.eqb_eq | Hs]%orb_true_iff; [subst; by left | right; by apply IH].
Qed.

Lemma hasAnnotation_span s :
  hasAnnotation s = true ->
  exists l1 l2 open close,
    ((open = 91%Z /\ close = 93%Z) \/ (open = 40%Z /\ close = 41%Z))
    /\ s = l1 ++ open :: l2 /\ close ∈ l2.
Proof.
  induction s as [| c s IH]; simpl; [discriminate |].
  intros [[H1 | H2]%orb_true_iff | H3]%orb_true_iff.
  - apply andb_true_iff in H1 as [->%Z.eqb_eq Hc%existsb_eqb_true].
    exists [], s, 91%Z, 93%Z. split; [by left | done].
  - apply andb_true_iff in H2 as [->%Z.eqb_eq Hc%existsb_eqb_true].
    exists [], s, 40%Z, 41%Z. split; [by right | done].
  - destruct (IH H3) as (l1 & l2 & open & close & Hk & -> & Hc).
    exists (c :: l1), l2, open, close. done.
Qed.

Lemma bracketReplace_clean st s : hasAnnotation (bracketReplace st s) = false.
Proof.
  destruct (hasAnnotation (bracketReplace st s)) eqn:E; [| done].
  apply hasAnnotation_span in E as (l1 & l2 & open & close & Hk & Heq & Hc).
  exfalso. by apply (bracketReplace_no_span st s l1 l2 open close Hk Heq).
Qed.

Lemma bracketReplace_unchanged s :
  hasAnnotation s = false -> bracketReplace Outside s = s.
Proof.
  induction s as [| c s IH]; [done |]. simpl.
  intros [[H1 H2]%orb_false_iff H3]%orb_false_iff.
  rewrite H1, H2. by rewrite IH.
Qed.

(** X7.  Removing the annotations only deletes runes, leaves no span that
    the expression would match, and changes a string exactly when it has
    such a span; doing it twice is the same as doing it once. *)
Theorem bracketReplace_removes_all s :
  bracketReplace Outside s `sublist_of` s
  /\ hasAnnotation (bracketReplace Outside s) = false
  /\ (bracketReplace Outside s = s <-> hasAnnotation s = false)
  /\ bracketReplace Outside (bracketReplace Outside s) = bracketReplace Outside s.
Proof.
  split; [apply bracketReplace_sublist |].
  split; [apply bracketReplace_clean |].
  split.
  - split; [| apply bracketReplace_unchanged].
    intros Heq. rewrite <- Heq. apply bracketReplace_clean.
  - apply bracketReplace_unchanged, bracketReplace_clean.
Qed.

Lemma splitRuns_sublist sep inRun (s : gostring) :
  Forall (fun piece => piece `sublist_of` s) (splitRuns sep inRun s).
Proof.
  revert inRun. induction s as [| c s IH]; intros inRun; simpl.
  - repeat constructor.
  - destruct (sep c).
    + assert (Hs : Forall (fun piece => piece `sublist_of` c :: s) (splitRuns sep true s)).
      { eapply Forall_impl; [apply IH |]. intros p Hp. by apply sublist_cons. }
      destruct inRun; [exact Hs |]. constructor; [apply sublist_nil_l | exact Hs].
    + specialize (IH false). destruct (splitRuns sep false s) as [| piece pieces].
      * repeat constructor. apply sublist_nil_l.
      * apply Forall_cons in IH as [Hp Hps]. constructor; [by apply sublist_skip |].
        eapply Forall_impl; [exact Hps |]. intros p Hp'. by apply sublist_cons.
Qed.

(** X8.  Splitting at the separators loses the separators and nothing else:
    there is always at least one piece, no piece holds a separator, and the
    pieces put together are the string without its separators. *)
Theorem separators_split (s : gostring) :
  splitRuns isSeparator false s <> []
  /\ Forall (Forall (fun c => isSeparator c = false)) (splitRuns isSeparator false s)
  /\ concat (splitRuns isSeparator false s) = filter (fun c => isSeparator c = false) s.
Proof.
  split; [| apply splitRuns_pieces].
  destruct s as [| c s]; simpl; [done |].
  destruct (isSeparator c); [done |]. by destruct (splitRuns isSeparator false s).
Qed.

Section ExtractorMore.
Context `{UnicodeTables}.

Lemma elem_of_extractChineseWords translation g :
  g ∈ extractChineseWords translation ->
  isAllChinese g = true
  /\ exists piece,
       piece ∈ splitRuns isSeparator false (bracketReplace Outside translation)
       /\ g = TrimSpace piece.
Proof.
  unfold extractChineseWords. rewrite collectChinese_filter. simpl.
  intros [Hk Hin]%list_elem_of_filter. rewrite isAllChinese_kept. split; [done |].
  rewrite map_fmap in Hin. apply list_elem_of_fmap in Hin as (piece & -> & Hp).
  by exists piece.
Qed.

(** X9.  Every gloss is made of runes of the translation in their order (a
    subsequence: an annotation in between is skipped), and a translation
    without any Han rune, middle dot or dash yields no gloss. *)
Theorem extractChineseWords_subsequence translation :
  Forall (fun g => g `sublist_of` translation) (extractChineseWords translation)
  /\ (existsb glossRune translation = false -> extractChineseWords translation = []).
Proof.
  assert (Hsub : Forall (fun g => g `sublist_of` translation) (extractChineseWords translation)).
  { apply Forall_forall. intros g (_ & piece & Hp & ->)%elem_of_extractChineseWords.
    pose proof (splitRuns_sublist isSeparator false (bracketReplace Outside translation)) as Hs.
    rewrite Forall_forall in Hs. specialize (Hs _ Hp).
    etransitivity; [apply TrimSpace_sublist |].
    etransitivity; [exact Hs | apply bracketReplace_sublist]. }
  split; [exact Hsub |].
  intros Hnone. destruct (extractChineseWords translation) as [| g gs] eqn:E; [done |].
  exfalso.
  assert (Hg : g ∈ extractChineseWords translation) by (rewrite E; by left).
  apply Forall_cons in Hsub as [Hgsub _].
  apply elem_of_extractChineseWords in Hg as [Hall _].
  apply isAllChinese_spec in Hall as [Hne Hall].
  destruct g as [| r g]; [done |]. apply Forall_cons in Hall as [Hr _].
  assert (Hin : r ∈ translation).
  { eapply elem_of_sublist; [| exact Hgsub]. by left. }
  assert (Hex : existsb glossRune translation = true).
  { apply existsb_exists. exists r. split; [by apply list_elem_of_In | done]. }
  congruence.
Qed.
End ExtractorMore.

Lemma extractChineseWords_subsequence_witness :
  @extractChineseWords coreHan [111; 107; 44; 32; 40; 120; 41]%Z = [].
Proof.
  apply (@extractChineseWords_subsequence coreHan [111; 107; 44; 32; 40; 120; 41]%Z).
  vm_compute. reflexivity.
Defined.

(** ** The reverse index *)

Lemma Join_nonempty (e : gostring) (rest : list gostring) sep :
  e <> [] -> Join (e :: rest) sep <> [].
Proof.
  intros He. simpl. destruct rest; [done |].
  destruct e; [done | discriminate].
Qed.

Lemma coreHan_no_space r : IsSpace r = true -> @Han coreHan r = false.
Proof.
  unfold IsSpace. simpl. intros Hs. apply not_true_is_false. intros E.
  rewrite ?orb_true_iff, ?andb_true_iff, ?Z.leb_le, ?Z.eqb_eq in Hs.
  rewrite ?orb_true_iff, ?andb_true_iff, ?Z.leb_le in E.
  lia.
Qed.

Section ReverseIndexMore.
Context `{UnicodeTables}.

Lemma CreateChineseDB_keys input sched :
  (CreateChineseDB input sched).*1
  ≡ₚ (map_to_list (buildChineseMap (readChinese input []))).*1.
Proof.
  assert (E : forall bncMap (l : list (list Z * gmap (list Z) (list Z))),
             (map (glossRow sched bncMap) l).*1 = l.*1).
  { intros bncMap l. induction l as [| [g m] l IH]; [done |].
    cbn [map]. by rewrite !fmap_cons, IH. }
  unfold CreateChineseDB. cbv zeta. rewrite E. by rewrite rangeMap_Permutation.
Qed.

Lemma indexEntries_nonempty input sched g :
  is_Some (buildChineseMap (readChinese input []) !! g) ->
  indexEntries input sched g <> [].
Proof.
  intros (record & Hr & Hg)%buildChineseMap_is_Some Hnil.
  assert (Hw : field record 0 ∈ firstObserved (readChinese input []) g).
  { apply elem_of_firstObserved. by exists record. }
  rewrite <- indexEntries_words, Hnil in Hw. by apply elem_of_nil in Hw.
Qed.

(** X10.  The builder writes exactly one row for every gloss that the
    extractor finds in some translation of the corpus, no gloss twice (so its
    own rows never violate the uniqueness of the column), and no row with an
    empty list of words. *)
Theorem CreateChineseDB_rows input sched :
  NoDup (CreateChineseDB input sched).*1
  /\ (forall g,
        g ∈ (CreateChineseDB input sched).*1
        <-> exists record,
              record ∈ readChinese input []
              /\ g ∈ extractChineseWords (field record 3))
  /\ Forall (fun row => row.2 <> []) (CreateChineseDB input sched).
Proof.
  split; [rewrite CreateChineseDB_keys; apply NoDup_fst_map_to_list |].
  split.
  - intros g. rewrite <- buildChineseMap_is_Some, list_elem_of_fmap. split.
    + intros ([g' s] & -> & Hin). by apply CreateChineseDB_row in Hin as [? _].
    + intros Hs. exists (g, Join (map formatEntry (indexEntries input sched g)) [10%Z]).
      split; [done |]. by apply CreateChineseDB_row.
  - apply Forall_forall. intros [g s] [Hsome ->]%CreateChineseDB_row. simpl.
    pose proof (indexEntries_nonempty input sched g Hsome) as Hne.
    destruct (indexEntries input sched g) as [| info entries]; [done |].
    apply (Join_nonempty (formatEntry info)). unfold formatEntry.
    by destruct (word info).
Qed.

(** X11.  The rank of a source word is parsed from the frequency field of
    its first record in the corpus, whatever later records of the word hold,
    and every word that is ranked for a gloss has such a rank: the sentinel
    for a word without an entry is never needed. *)
Theorem word_rank_first_record input sched g w :
  buildBncMap (readChinese input []) !! w = frequencyRank (readChinese input []) w
  /\ Forall (fun info => buildBncMap (readChinese input []) !! word info = Some (bnc info))
       (indexEntries input sched g).
Proof.
  split; [apply buildBncMap_lookup |].
  apply Forall_forall. intros info [_ Hr]%elem_of_indexEntries.
  by rewrite buildBncMap_lookup.
Qed.

Lemma isChinese_existsb text : isChinese text = existsb Han text.
Proof.
  induction text as [| r text IH]; [done |]. simpl. rewrite IH. by destruct (Han r).
Qed.

(** X12.  A gloss of the index that holds a Han rune is found: typed into
    the search field, it is sent to the gloss index and comes back first.  A
    gloss without a Han rune consists of '·' and '—' only and is sent to the
    word index instead.  White space is taken not to be Han. *)
Theorem gloss_found input sched (englishDB chineseDB : Table) g s :
  (forall r, IsSpace r = true -> Han r = false) ->
  (g, s) ∈ CreateChineseDB input sched ->
  rows chineseDB ≡ₚ (CreateChineseDB input sched).*1 ->
  queryFails chineseDB 1 = false ->
  (isChinese g = true ->
     exists rest, searchResultsFor englishDB chineseDB g = Some (g :: rest))
  /\ (isChinese g = false ->
        Forall (fun r => r = 183%Z \/ r = 8212%Z) g
        /\ searchResultsFor englishDB chineseDB g = Some (searchEnglish englishDB g)).
Proof.
  intros Hspace Hrow Hrows Hok.
  assert (Hkey : g ∈ rows chineseDB).
  { rewrite Hrows. apply list_elem_of_fmap. by exists (g, s). }
  assert (Hall : g <> [] /\ Forall (fun r => glossRune r = true) g).
  { apply CreateChineseDB_row in Hrow as [Hsome _].
    apply buildChineseMap_is_Some in Hsome as (record & _ & Hg).
    pose proof (extractChineseWords_all (field record 3)) as Ha.
    rewrite Forall_forall in Ha. by apply isAllChinese_spec, Ha. }
  destruct Hall as [Hne Hall].
  assert (Htrim : TrimSpace g = g).
  { apply TrimSpace_fixed. eapply Forall_impl; [exact Hall |].
    intros r Hr. destruct (IsSpace r) eqn:Es; [| done].
    unfold glossRune in Hr. rewrite (Hspace r Es) in Hr. simpl in Hr.
    apply orb_true_iff in Hr as [->%Z.eqb_eq | ->%Z.eqb_eq]; discriminate. }
  unfold searchResultsFor. cbv zeta. rewrite Htrim.
  destruct g as [| r0 g0] eqn:Eg; [done |]. rewrite <- Eg in *. split.
  - intros ->.
    pose proof (tieredSearch_head chineseDB true g Hkey Hok) as Hhead.
    unfold searchChinese. destruct (tieredSearch chineseDB true g) as [| k rest]; [done |].
    injection Hhead as ->. by exists rest.
  - intros Hno. rewrite Hno. split; [| done].
    rewrite isChinese_existsb in Hno.
    apply Forall_forall. intros r Hin. rewrite Forall_forall in Hall.
    pose proof (Hall r Hin) as Hr. unfold glossRune in Hr.
    destruct (Han r) eqn:Eh.
    + exfalso.
      assert (Hex : existsb Han g = true).
      { apply existsb_exists. exists r. split; [by apply list_elem_of_In | done]. }
      congruence.
    + simpl in Hr. apply orb_true_iff in Hr as [->%Z.eqb_eq | ->%Z.eqb_eq]; auto.
Qed.
End ReverseIndexMore.

Lemma gloss_found_witness :
  (@isChinese coreHan [22909]%Z = true ->
     exists rest, @searchResultsFor coreHan tableLike tableAB [22909]%Z
                  = Some ([22909]%Z :: rest))
  /\ (@isChinese coreHan [22909]%Z = false ->
        Forall (fun r => r = 183%Z \/ r = 8212%Z) [22909]%Z
        /\ @searchResultsFor coreHan tableLike tableAB [22909]%Z
           = Some (searchEnglish tableLike [22909]%Z)).
Proof.
  apply (@gloss_found coreHan corpusAB plainSchedule tableLike tableAB [22909]%Z rowHao).
  - exact coreHan_no_space.
  - apply (bool_decide_unpack _). vm_compute. exact I.
  - reflexivity.
  - reflexivity.
Defined.

Example searchResultsFor_run :
  @searchResultsFor coreHan tableLike tableAB [32; 32654; 32]%Z
  = Some [[32654]; [32654; 22909]]%Z
  /\ @searchResultsFor coreHan tableLike tableAB [32; 9]%Z = None.
Proof. vm_compute. split; reflexivity. Qed.

(** ** The forward index *)

Lemma sendBatches_spec fuel batchSize i (allRecords : list (list gostring)) :
  0 < batchSize -> length allRecords - i <= fuel ->
  concat (sendBatches fuel batchSize i allRecords) = drop i allRecords
  /\ Forall (fun batch => 0 < length batch <= batchSize)
       (sendBatches fuel batchSize i allRecords)
  /\ (forall n batch,
        sendBatches fuel batchSize i allRecords !! n = Some batch ->
        S n < length (sendBatches fuel batchSize i allRecords) ->
        length batch = batchSize).
Proof.
  intros Hpos. revert i. induction fuel as [| fuel IH]; intros i Hfuel; simpl.
  - split; [symmetry; apply drop_ge; lia |]. split; [constructor |].
    intros n batch Hn. by rewrite lookup_nil in Hn.
  - case_decide as Hi.
    + destruct (IH (i + batchSize)) as (Hc & Hf & Hfull); [lia |].
      assert (Hlen : length (take ((if decide (length allRecords < i + batchSize)
                                    then length allRecords else i + batchSize) - i)
                               (drop i allRecords))
                     = Nat.min batchSize (length allRecords - i)).
      { rewrite length_take, length_drop. case_decide; lia. }
      split; [| split].
      * simpl. rewrite Hc. case_decide as He.
        -- rewrite (drop_ge allRecords (i + batchSize)) by lia.
           rewrite app_nil_r. apply take_ge. rewrite length_drop. lia.
        -- replace (i + batchSize - i) with batchSize by lia.
           rewrite <- drop_drop. apply take_drop.
      * constructor; [rewrite Hlen; lia | exact Hf].
      * intros [| n] batch Hn Hmore; simpl in *.
        -- injection Hn as <-. rewrite Hlen.
           destruct fuel as [| fuel']; simpl in Hmore; [lia |].
           destruct (decide (i + batchSize < length allRecords)); [lia |].
           simpl in Hmore. lia.
        -- apply (Hfull n batch Hn). lia.
    + split; [symmetry; apply drop_ge; lia |]. split; [constructor |].
      intros n batch Hn. by rewrite lookup_nil in Hn.
Qed.

Lemma recordBatches_part (allRecords : list (list gostring)) :
  concat (recordBatches 1000 allRecords) = allRecords.
Proof.
  unfold recordBatches.
  destruct (sendBatches_spec (length allRecords) 1000 0 allRecords) as (Hc & _); [lia | lia |].
  exact Hc.
Qed.

(** X13.  The batches sent to the workers are the corpus cut into pieces:
    put together in order they are the corpus, none is empty or longer than
    the batch size, and all but the last have exactly that size. *)
Theorem recordBatches_partition batchSize (allRecords : list (list gostring)) :
  0 < batchSize ->
  concat (recordBatches batchSize allRecords) = allRecords
  /\ Forall (fun batch => 0 < length batch <= batchSize) (recordBatches batchSize allRecords)
  /\ (forall n batch,
        recordBatches batchSize allRecords !! n = Some batch ->
        S n < length (recordBatches batchSize allRecords) ->
        length batch = batchSize).
Proof.
  intros Hpos. unfold recordBatches.
  destruct (sendBatches_spec (length allRecords) batchSize 0 allRecords Hpos) as (Hc & Hf & Hn);
    [lia |].
  split; [by rewrite Hc | by split].
Qed.

Lemma recordBatches_partition_witness :
  concat (recordBatches 2 [[[97]]; [[98]]; [[99]]]%Z) = [[[97]]; [[98]]; [[99]]]%Z
  /\ Forall (fun batch => 0 < length batch <= 2) (recordBatches 2 [[[97]]; [[98]]; [[99]]]%Z)
  /\ (forall n batch,
        recordBatches 2 [[[97]]; [[98]]; [[99]]]%Z !! n = Some batch ->
        S n < length (recordBatches 2 [[[97]]; [[98]]; [[99]]]%Z) ->
        length batch = 2).
Proof. apply (recordBatches_partition 2 [[[97]]; [[98]]; [[99]]]%Z). lia. Defined.

Example recordBatches_run :
  recordBatches 2 [[[97]]; [[98]]; [[99]]]%Z = [[[[97]]; [[98]]]; [[[99]]]]%Z.
Proof. reflexivity. Qed.

Lemma concat_Permutation {A : Type} (l k : list (list A)) :
  l ≡ₚ k -> concat l ≡ₚ concat k.
Proof.
  induction 1 as [| x l k _ IH | x y l | l k m _ IH1 _ IH2]; simpl.
  - reflexivity.
  - by rewrite IH.
  - rewrite !app_assoc. by rewrite (Permutation_app_comm y x).
  - by rewrite IH1.
Qed.

Lemma foldr_add_Permutation (l k : list nat) :
  l ≡ₚ k -> foldr Nat.add 0 l = foldr Nat.add 0 k.
Proof.
  induction 1 as [| x l k _ IH | x y l | l k m _ IH1 _ IH2]; simpl; lia.
Qed.

Lemma execRows_sublist ok i (batch : list (list gostring)) :
  execRows ok i batch `sublist_of` map insertArgs batch.
Proof.
  revert i. induction batch as [| record batch IH]; intros i; simpl; [constructor |].
  destruct (ok i); [by apply sublist_skip | by apply sublist_cons].
Qed.

Lemma execRows_all ok i (batch : list (list gostring)) :
  (forall j, ok j = true) -> execRows ok i batch = map insertArgs batch.
Proof.
  intros Hok. revert i. induction batch as [| record batch IH]; intros i; simpl; [done |].
  by rewrite Hok, IH.
Qed.

Lemma insertBatch_spec store n (batch : list (list gostring)) :
  (insertBatch store n batch).1 `sublist_of` map insertArgs batch
  /\ length (insertBatch store n batch).1 <= (insertBatch store n batch).2
  /\ (insertBatch store n batch).2 <= length batch.
Proof.
  unfold insertBatch.
  pose proof (execRows_sublist (rowInserts store n) 0 batch) as Hs.
  pose proof (sublist_length _ _ Hs) as Hl. rewrite length_map in Hl.
  destruct (batchOpens store n); simpl.
  - destruct (batchCommits store n); simpl.
    + split; [done | lia].
    + split; [apply sublist_nil_l | lia].
  - split; [apply sublist_nil_l | lia].
Qed.

Lemma workBatches_spec store n (batches : list (list (list gostring))) :
  concat (map fst (workBatches store n batches)) `sublist_of` map insertArgs (concat batches)
  /\ length (concat (map fst (workBatches store n batches)))
     <= foldr Nat.add 0 (map snd (workBatches store n batches))
  /\ foldr Nat.add 0 (map snd (workBatches store n batches)) <= length (concat batches).
Proof.
  revert n. induction batches as [| batch batches IH]; intros n; simpl.
  - split; [constructor | lia].
  - destruct (IH (S n)) as (Hs & Hl & Hu).
    destruct (insertBatch_spec store n batch) as (Hs' & Hl' & Hu').
    rewrite map_app, !length_app. split; [by apply sublist_app | lia].
Qed.

Lemma workBatches_sound store n (batches : list (list (list gostring))) :
  (forall m, batchOpens store m = true) ->
  (forall m i, rowInserts store m i = true) ->
  (forall m, batchCommits store m = true) ->
  concat (map fst (workBatches store n batches)) = map insertArgs (concat batches)
  /\ foldr Nat.add 0 (map snd (workBatches store n batches)) = length (concat batches).
Proof.
  intros Ho Hr Hc. revert n. induction batches as [| batch batches IH]; intros n; simpl.
  - done.
  - destruct (IH (S n)) as [E1 E2]. unfold insertBatch.
    rewrite Ho, Hc, execRows_all by done. simpl.
    rewrite E1, E2, map_app, length_app, length_map. done.
Qed.

Lemma CreateEnglishDB_rows_sound words input store commitOrder :
  (forall m, batchOpens store m = true) ->
  (forall m i, rowInserts store m i = true) ->
  (forall m, batchCommits store m = true) ->
  (CreateEnglishDB words input store commitOrder).1 ≡ₚ words ++ englishRows input
  /\ (CreateEnglishDB words input store commitOrder).2 = length (readEnglish input []).
Proof.
  intros Ho Hr Hc. unfold CreateEnglishDB, englishRows. cbv zeta. simpl.
  set (work := workBatches store 0 (recordBatches 1000 (readEnglish input []))).
  assert (P1 : concat (map fst (reorder commitOrder work)) ≡ₚ concat (map fst work)).
  { apply concat_Permutation. rewrite !map_fmap. by rewrite reorder_Permutation. }
  assert (P2 : foldr Nat.add 0 (map snd (reorder commitOrder work))
               = foldr Nat.add 0 (map snd work)).
  { apply foldr_add_Permutation. rewrite !map_fmap. by rewrite reorder_Permutation. }
  destruct (workBatches_sound store 0 (recordBatches 1000 (readEnglish input [])) Ho Hr Hc)
    as [E1 E2]. fold work in E1, E2.
  rewrite recordBatches_part in E1, E2.
  split; [by rewrite P1, E1 | by rewrite P2, E2].
Qed.

(** X14.  The build adds to the table and never clears it.  Whatever the
    table held before, whatever fails in the store and in whatever order the
    workers commit, the table afterwards is the table of before followed by
    the added rows; these are rows of the corpus, none more often than the
    corpus, and [totalCount] is at least their number and at most the size
    of the corpus.  When nothing fails, the added rows are the rows of the
    corpus, each once, and [totalCount] is the size of the corpus: a table
    that was empty then holds exactly the corpus, and a second build over the
    result holds every row of the corpus twice. *)
Theorem CreateEnglishDB_inserts words input store commitOrder :
  let table := (CreateEnglishDB words input store commitOrder).1 in
  let totalCount := (CreateEnglishDB words input store commitOrder).2 in
  let added := drop (length words) table in
  table = words ++ added
  /\ added ⊆+ englishRows input
  /\ length added <= totalCount
  /\ totalCount <= length (readEnglish input [])
  /\ ((forall n, batchOpens store n = true) ->
      (forall n i, rowInserts store n i = true) ->
      (forall n, batchCommits store n = true) ->
      added ≡ₚ englishRows input
      /\ totalCount = length (readEnglish input [])
      /\ (words = [] -> table ≡ₚ englishRows input)
      /\ (forall commitOrder',
            (CreateEnglishDB table input store commitOrder').1
            ≡ₚ words ++ englishRows input ++ englishRows input)).
Proof.
  cbv zeta.
  set (allRecords := readEnglish input []).
  set (batches := recordBatches 1000 allRecords).
  set (work := workBatches store 0 batches).
  assert (Htable : (CreateEnglishDB words input store commitOrder).1
                   = words ++ concat (map fst (reorder commitOrder work))) by reflexivity.
  assert (Hcount : (CreateEnglishDB words input store commitOrder).2
                   = foldr Nat.add 0 (map snd (reorder commitOrder work))) by reflexivity.
  rewrite Htable, Hcount, drop_app_length. clear Htable Hcount.
  unfold englishRows. fold allRecords.
  assert (Hcat : concat batches = allRecords).
  { apply (recordBatches_part allRecords). }
  assert (P1 : concat (map fst (reorder commitOrder work)) ≡ₚ concat (map fst work)).
  { apply concat_Permutation. rewrite !map_fmap. by rewrite reorder_Permutation. }
  assert (P2 : foldr Nat.add 0 (map snd (reorder commitOrder work))
               = foldr Nat.add 0 (map snd work)).
  { apply foldr_add_Permutation. rewrite !map_fmap. by rewrite reorder_Permutation. }
  destruct (workBatches_spec store 0 batches) as (Hs & Hl & Hu). fold work in Hs, Hl, Hu.
  rewrite Hcat in Hs, Hu.
  split_and!.
  - reflexivity.
  - rewrite P1. by apply sublist_submseteq.
  - rewrite P1, P2. exact Hl.
  - rewrite P2. exact Hu.
  - intros Ho Hr Hc.
    destruct (workBatches_sound store 0 batches Ho Hr Hc) as [E1 E2]. fold work in E1, E2.
    rewrite Hcat in E1, E2. split_and!.
    + by rewrite P1, E1.
    + by rewrite P2, E2.
    + intros ->. by rewrite P1, E1.
    + intros commitOrder'.
      destruct (CreateEnglishDB_rows_sound (words ++ concat (map fst (reorder commitOrder work)))
                  input store commitOrder' Ho Hr Hc) as [Hp _].
      rewrite Hp, P1, E1. unfold englishRows. fold allRecords. by rewrite <- app_assoc.
Qed.

Lemma CreateEnglishDB_inserts_witness :
  drop 0 (CreateEnglishDB [] corpusAB soundStore []).1 ≡ₚ englishRows corpusAB
  /\ (CreateEnglishDB [] corpusAB soundStore []).2 = length (readEnglish corpusAB [])
  /\ (CreateEnglishDB [] corpusAB soundStore []).1 ≡ₚ englishRows corpusAB
  /\ (CreateEnglishDB (CreateEnglishDB [] corpusAB soundStore []).1 corpusAB soundStore []).1
     ≡ₚ englishRows corpusAB ++ englishRows corpusAB.
Proof.
  destruct (CreateEnglishDB_inserts [] corpusAB soundStore []) as (_ & _ & _ & _ & Hok).
  destruct Hok as (Ha & Hc & He & Htwice); try reflexivity.
  split_and!; [exact Ha | exact Hc | by apply He | apply (Htwice [])].
Defined.

(** The table does double: of a corpus of three rows, the second build
    leaves six. *)
Example CreateEnglishDB_twice :
  length (CreateEnglishDB [] corpusAB soundStore []).1 = 3
  /\ length (CreateEnglishDB (CreateEnglishDB [] corpusAB soundStore []).1
               corpusAB soundStore []).1 = 6.
Proof. vm_compute. split; reflexivity. Qed.



(** ** The detail view *)

Lemma containsStr_cons p c (s : gostring) :
  containsStr p (c :: s) = startsWith p (c :: s) || containsStr p s.
Proof. reflexivity. Qed.

Lemma containsStr_nil_l (s : gostring) : containsStr [] s = true.
Proof. by destruct s. Qed.

(** A prefix of the replaced string that does not hold the replacing rune
    is a prefix of the string before. *)
Lemma replaceFrom_startsWith old c p (s : gostring) :
  c ∉ p -> startsWith p (replaceFrom old [c] 0 s) = true -> startsWith p s = true.
Proof.
  revert s. induction p as [| d p IH]; intros s Hc; [by destruct s |].
  apply not_elem_of_cons in Hc as [Hd Hc].
  destruct s as [| e s]; [done |]. cbn [replaceFrom].
  destruct (startsWith old (e :: s)).
  - simpl. intros [Hde _]%andb_true_iff. apply Z.eqb_eq in Hde. congruence.
  - simpl. intros [Hde Hp]%andb_true_iff. rewrite Hde. simpl. by apply IH.
Qed.

(** Replacing by one rune that the pattern does not hold creates no
    occurrence of the pattern. *)
Lemma replaceFrom_preserves old c p skip (s : gostring) :
  c ∉ p -> containsStr p s = false -> containsStr p (replaceFrom old [c] skip s) = false.
Proof.
  intros Hc. destruct p as [| d p]; [by rewrite containsStr_nil_l |].
  revert skip. induction s as [| e s IH]; intros skip Hno; [by destruct skip |].
  rewrite containsStr_cons in Hno. apply orb_false_iff in Hno as [Hst Hno].
  destruct skip as [| skip]; cbn [replaceFrom]; [| by apply IH].
  destruct (startsWith old (e :: s)).
  - simpl app. rewrite containsStr_cons. apply orb_false_iff. split; [| by apply IH].
    simpl. apply not_elem_of_cons in Hc as [Hd _].
    destruct (Z.eqb_spec d c); [congruence | done].
  - rewrite containsStr_cons. apply orb_false_iff. split; [| by apply IH].
    destruct (startsWith (d :: p) (e :: replaceFrom old [c] 0 s)) eqn:E; [| done].
    simpl in E. apply andb_true_iff in E as [Hde Hp].
    apply not_elem_of_cons in Hc as [_ Hc].
    apply (replaceFrom_startsWith old c p s Hc) in Hp.
    simpl in Hst. rewrite Hde, Hp in Hst. discriminate.
Qed.

(** After the replacement the pattern occurs nowhere. *)
Lemma replaceFrom_gone old c skip (s : gostring) :
  old <> [] -> c ∉ old -> containsStr old (replaceFrom old [c] skip s) = false.
Proof.
  intros Hne Hc. destruct old as [| d p]; [done |]. clear Hne.
  revert skip. induction s as [| e s IH]; intros skip; [by destruct skip |].
  destruct skip as [| skip]; cbn [replaceFrom]; [| by apply IH].
  destruct (startsWith (d :: p) (e :: s)) eqn:Hst.
  - simpl app. rewrite containsStr_cons. apply orb_false_iff. split; [| by apply IH].
    simpl. apply not_elem_of_cons in Hc as [Hd _].
    destruct (Z.eqb_spec d c); [congruence | done].
  - rewrite containsStr_cons. apply orb_false_iff. split; [| by apply IH].
    destruct (startsWith (d :: p) (e :: replaceFrom (d :: p) [c] 0 s)) eqn:E; [| done].
    simpl in E. apply andb_true_iff in E as [Hde Hp].
    apply not_elem_of_cons in Hc as [_ Hc].
    apply (replaceFrom_startsWith (d :: p) c p s Hc) in Hp.
    simpl in Hst. rewrite Hde, Hp in Hst. discriminate.
Qed.

(** Where the pattern does not occur, nothing is replaced. *)
Lemma replaceFrom_absent old new (s : gostring) :
  containsStr old s = false -> replaceFrom old new 0 s = s.
Proof.
  induction s as [| e s IH]; [done |].
  rewrite containsStr_cons. intros [Hst Hno]%orb_false_iff.
  cbn [replaceFrom]. rewrite Hst. by rewrite IH.
Qed.

Lemma startsWith_app p q (s : gostring) :
  startsWith (p ++ q) s = true -> startsWith p s = true.
Proof.
  revert s. induction p as [| d p IH]; intros s; [by destruct s |].
  destruct s as [| e s]; simpl; [done |].
  intros [Hde Hp]%andb_true_iff. rewrite Hde. simpl. by apply IH.
Qed.

Lemma containsStr_app_l p q (s : gostring) :
  containsStr p s = false -> containsStr (p ++ q) s = false.
Proof.
  induction s as [| e s IH].
  - simpl. rewrite !orb_false_r. intros Hp.
    destruct (startsWith (p ++ q) []) eqn:E; [| done].
    apply startsWith_app in E. congruence.
  - rewrite !containsStr_cons. intros [Hst Hno]%orb_false_iff.
    apply orb_false_iff. split; [| by apply IH].
    destruct (startsWith (p ++ q) (e :: s)) eqn:E; [| done].
    apply startsWith_app in E. congruence.
Qed.

Lemma startsWith_extend p (s t : gostring) :
  startsWith p s = true -> startsWith p (s ++ t) = true.
Proof.
  revert s. induction p as [| d p IH]; intros s; [by destruct s |].
  destruct s as [| e s]; simpl; [done |].
  intros [Hde Hp]%andb_true_iff. rewrite Hde. simpl. by apply IH.
Qed.

Lemma containsStr_prefix p (s t : gostring) :
  containsStr p (s ++ t) = false -> containsStr p s = false.
Proof.
  induction s as [| e s IH].
  - simpl. intros Hno. rewrite orb_false_r.
    destruct (startsWith p []) eqn:E; [| done].
    destruct p; [| done]. by rewrite containsStr_nil_l in Hno.
  - simpl app. rewrite !containsStr_cons. intros [Hst Hno]%orb_false_iff.
    apply orb_false_iff. split; [| by apply IH].
    destruct (startsWith p (e :: s)) eqn:E; [| done].
    apply (startsWith_extend p (e :: s) t) in E. simpl app in E. congruence.
Qed.

Lemma containsStr_TrimLeft f p (s : gostring) :
  containsStr p s = false -> containsStr p (TrimLeft f s) = false.
Proof.
  induction s as [| e s IH]; [done |]. simpl TrimLeft.
  destruct (f e); [| done].
  rewrite containsStr_cons. intros [_ Hno]%orb_false_iff. by apply IH.
Qed.

Lemma TrimLeft_suffix f (s : gostring) : exists ws, s = ws ++ TrimLeft f s.
Proof.
  induction s as [| e s [ws IH]]; [by exists [] |]. simpl.
  destruct (f e); [| by exists []]. exists (e :: ws). simpl. by rewrite <- IH.
Qed.

Lemma TrimRight_prefix f (s : gostring) : exists ws, s = TrimRight f s ++ ws.
Proof.
  unfold TrimRight. destruct (TrimLeft_suffix f (rev s)) as [ws Hws].
  exists (rev ws). rewrite <- rev_app_distr, <- Hws. by rewrite rev_involutive.
Qed.

Lemma containsStr_TrimSpace p (s : gostring) :
  containsStr p s = false -> containsStr p (TrimSpace s) = false.
Proof.
  intros Hno. unfold TrimSpace.
  destruct (TrimRight_prefix IsSpace (TrimLeft IsSpace s)) as [ws Hws].
  apply (containsStr_prefix p _ ws). rewrite <- Hws. by apply containsStr_TrimLeft.
Qed.

Lemma TrimLeft_idem f (s : gostring) : TrimLeft f (TrimLeft f s) = TrimLeft f s.
Proof.
  induction s as [| e s IH]; [done |]. simpl.
  destruct (f e) eqn:E; [done |]. simpl. by rewrite E.
Qed.

Lemma TrimSpace_idem (s : gostring) : TrimSpace (TrimSpace s) = TrimSpace s.
Proof.
  unfold TrimSpace.
  rewrite <- (Trim_comm IsSpace (TrimLeft IsSpace s)), TrimLeft_idem.
  unfold TrimRight. by rewrite rev_involutive, TrimLeft_idem.
Qed.

Lemma startsWith_head_ne d p e (s : gostring) :
  d <> e -> startsWith (d :: p) (e :: s) = false.
Proof. intros Hne. cbn [startsWith]. by destruct (Z.eqb_spec d e). Qed.

(** X16.  [cleanNewlines] leaves none of the escapes it replaces, neither
    backslash-n nor backslash-r; it leaves a string without a backslash as
    [strings.TrimSpace] does; and cleaning twice is cleaning once. *)
Theorem cleanNewlines_clean (s : gostring) :
  containsStr [92; 110]%Z (cleanNewlines s) = false
  /\ containsStr [92; 114]%Z (cleanNewlines s) = false
  /\ (92%Z ∉ s -> cleanNewlines s = TrimSpace s)
  /\ cleanNewlines (cleanNewlines s) = cleanNewlines s.
Proof.
  assert (Hn : containsStr [92; 110]%Z (cleanNewlines s) = false).
  { unfold cleanNewlines, ReplaceAll. cbv zeta.
    apply containsStr_TrimSpace, replaceFrom_preserves; [set_solver |].
    apply replaceFrom_gone; [done | set_solver]. }
  assert (Hr : containsStr [92; 114]%Z (cleanNewlines s) = false).
  { unfold cleanNewlines, ReplaceAll. cbv zeta.
    apply containsStr_TrimSpace, replaceFrom_gone; [done | set_solver]. }
  assert (Hsame : forall t : gostring,
            containsStr [92; 110]%Z t = false -> containsStr [92; 114]%Z t = false ->
            cleanNewlines t = TrimSpace t).
  { intros t Htn Htr. unfold cleanNewlines, ReplaceAll. cbv zeta.
    rewrite (replaceFrom_absent [92; 114; 92; 110]%Z);
      [| by apply (containsStr_app_l [92; 114]%Z [92; 110]%Z)].
    rewrite (replaceFrom_absent [92; 110]%Z) by exact Htn.
    rewrite (replaceFrom_absent [92; 114]%Z) by exact Htr. reflexivity. }
  split; [exact Hn |]. split; [exact Hr |]. split.
  - intros Hb. apply Hsame.
    + clear -Hb. induction s as [| e s IH]; [done |].
      apply not_elem_of_cons in Hb as [He Hb]. rewrite containsStr_cons, IH by done.
      rewrite orb_false_r. apply startsWith_head_ne. congruence.
    + clear -Hb. induction s as [| e s IH]; [done |].
      apply not_elem_of_cons in Hb as [He Hb]. rewrite containsStr_cons, IH by done.
      rewrite orb_false_r. apply startsWith_head_ne. congruence.
  - rewrite (Hsame (cleanNewlines s) Hn Hr).
    unfold cleanNewlines. cbv zeta. apply TrimSpace_idem.
Qed.

Lemma cleanNewlines_clean_witness : cleanNewlines [32; 97; 32]%Z = TrimSpace [32; 97; 32]%Z.
Proof.
  apply (proj1 (proj2 (proj2 (cleanNewlines_clean [32; 97; 32]%Z)))).
  apply (bool_decide_unpack _). vm_compute. exact I.
Defined.

(** "a", backslash-r, backslash-n, "b", backslash-n gives "a；b；". *)
Example cleanNewlines_run :
  cleanNewlines [97; 92; 114; 92; 110; 98; 92; 110]%Z = [97; 65307; 98; 65307]%Z.
Proof. reflexivity. Qed.

Example showChineseDetail_run :
  @showChineseDetail (@CreateChineseDB coreHan corpusAB plainSchedule) [22909]%Z
  = Join [titleOpen ++ [22909]%Z ++ tagClose; []; wordsHeading; [];
          numberedLine 1 [98; 65288; 22909; 44; 32654; 65289]%Z;
          numberedLine 2 [97; 65288; 22909; 65289]%Z] [10%Z].
Proof. vm_compute. reflexivity. Qed.

Example formatInt_run : formatInt 120 = [49; 50; 48]%Z.
Proof. reflexivity. Qed.

Lemma splitFrom_nonempty sep skip (s : gostring) : splitFrom sep skip s <> [].
Proof.
  revert skip. induction s as [| c s IH]; intros skip; [done |].
  destruct skip as [| skip]; cbn [splitFrom]; [| apply IH].
  destruct (startsWith sep (c :: s)); [done |]. by destruct (splitFrom sep 0 s).
Qed.

Lemma splitFrom_line (e rest : gostring) :
  10%Z ∉ e ->
  splitFrom [10%Z] 0 (e ++ rest)
  = match splitFrom [10%Z] 0 rest with
    | piece :: pieces => (e ++ piece) :: pieces
    | [] => [e]
    end.
Proof.
  induction e as [| c e IH]; intros Hno.
  - simpl. destruct (splitFrom [10%Z] 0 rest) eqn:E; [| done].
    by apply splitFrom_nonempty in E.
  - apply not_elem_of_cons in Hno as [Hc Hno]. simpl app. cbn [splitFrom].
    rewrite (startsWith_head_ne 10%Z [] c (e ++ rest) Hc), (IH Hno).
    by destruct (splitFrom [10%Z] 0 rest).
Qed.

(** Splitting the joined lines gives the lines back, when none of them
    holds a newline. *)
Lemma Split_Join (lines : list gostring) :
  lines <> [] -> Forall (fun line => 10%Z ∉ line) lines ->
  Split (Join lines [10%Z]) [10%Z] = lines.
Proof.
  unfold Split. induction lines as [| e lines IH]; [done |].
  intros _ [He Hl]%Forall_cons. destruct lines as [| e2 lines].
  - simpl Join. rewrite <- (app_nil_r e) at 1. rewrite splitFrom_line by done.
    simpl. by rewrite app_nil_r.
  - change (Join (e :: e2 :: lines) [10%Z]) with (e ++ 10%Z :: Join (e2 :: lines) [10%Z]).
    rewrite splitFrom_line by done.
    change (splitFrom [10%Z] 0 (10%Z :: Join (e2 :: lines) [10%Z]))
      with ([] :: splitFrom [10%Z] 0 (Join (e2 :: lines) [10%Z])).
    rewrite IH by done. by rewrite app_nil_r.
Qed.

Lemma TrimLeft_nil f (s : gostring) : TrimLeft f s = [] -> Forall (fun c => f c = true) s.
Proof.
  induction s as [| c s IH]; [constructor |]. simpl.
  destruct (f c) eqn:E; [| discriminate]. intros Hs. constructor; [done | by apply IH].
Qed.

Lemma TrimSpace_nonempty (s : gostring) x :
  x ∈ s -> IsSpace x = false -> TrimSpace s <> [].
Proof.
  intros Hx Hns Hnil. unfold TrimSpace in Hnil. rewrite Trim_comm in Hnil.
  apply TrimLeft_nil in Hnil.
  assert (Hr : TrimRight IsSpace s = []).
  { unfold TrimRight in *. destruct (TrimLeft IsSpace (rev s)) as [| c l] eqn:E; [done |].
    exfalso. assert (Hc : IsSpace c = false).
    { clear -E. induction (rev s) as [| d t IH]; [done |]. simpl in E.
      destruct (IsSpace d) eqn:Ed; [by apply IH | by injection E as -> _]. }
    rewrite Forall_forall in Hnil. specialize (Hnil c).
    rewrite Hnil in Hc; [done |]. apply list_elem_of_In, in_rev.
    rewrite rev_involutive. by left. }
  unfold TrimRight in Hr. apply (f_equal (@rev Z)) in Hr. rewrite rev_involutive in Hr.
  simpl in Hr. apply TrimLeft_nil in Hr. rewrite Forall_forall in Hr.
  specialize (Hr x). rewrite Hr in Hns; [done |].
  apply list_elem_of_In. rewrite <- in_rev. by apply list_elem_of_In.
Qed.

Lemma numberWords_all i (words details : list gostring) :
  Forall (fun w => TrimSpace w <> []) words ->
  numberWords i words details
  = details ++ imap (fun j w => numberedLine (i + j + 1) (cleanNewlines (TrimSpace w))) words.
Proof.
  revert i details. induction words as [| w words IH]; intros i details Hall.
  - simpl. by rewrite app_nil_r.
  - apply Forall_cons in Hall as [Hw Hall]. cbn [numberWords]. cbv zeta.
    destruct (TrimSpace w) as [| c t] eqn:E; [done |].
    rewrite IH by done. rewrite <- app_assoc. f_equal.
    rewrite imap_cons. cbn [app]. rewrite Nat.add_0_r, E. f_equal.
    apply imap_ext. intros j x _. cbv beta. unfold compose.
    by replace (S i + j + 1) with (i + S j + 1) by lia.
Qed.

Lemma numberWords_lines i (words details : list gostring) line :
  line ∈ numberWords i words details ->
  line ∈ details \/ exists n w, line = numberedLine n w.
Proof.
  revert i details. induction words as [| w words IH]; intros i details; [by left |].
  cbn [numberWords]. cbv zeta. destruct (TrimSpace w) as [| c t]; [apply IH |].
  intros [[Hd | Hn%list_elem_of_singleton]%elem_of_app | Hex]%IH; [by left | | by right].
  right. eauto.
Qed.

Lemma queryEnglishWords_unique (table : list (gostring * gostring)) g s :
  NoDup table.*1 -> (g, s) ∈ table -> queryEnglishWords table g = Some s.
Proof.
  intros Hnd Hin. unfold queryEnglishWords.
  by rewrite (filter_unique fst table (g, s) Hnd Hin).
Qed.

(** X17.  The detail view of a gloss of the index lists its source words in
    the order of the row, one numbered line each, from 1 on, after the four
    lines of the heading, provided no word and no translation holds a newline
    (the corpus writes its line breaks as backslash-n). *)
Theorem showChineseDetail_lists `{UnicodeTables}
    input sched (table : list (gostring * gostring)) g s :
  table ≡ₚ CreateChineseDB input sched ->
  (g, s) ∈ table ->
  Forall (fun info => (10%Z ∉ word info) /\ (10%Z ∉ def info)) (indexEntries input sched g) ->
  showChineseDetail table g
  = Join ([titleOpen ++ g ++ tagClose; []; wordsHeading; []]
          ++ imap (fun i info =>
                     numberedLine (S i) (cleanNewlines (TrimSpace (formatEntry info))))
               (indexEntries input sched g)) [10%Z].
Proof.
  intros Hperm Hin Hnl.
  assert (Hnd : NoDup table.*1).
  { rewrite Hperm, CreateChineseDB_keys. apply NoDup_fst_map_to_list. }
  unfold showChineseDetail. rewrite (queryEnglishWords_unique table g s Hnd Hin).
  rewrite Hperm in Hin. apply CreateChineseDB_row in Hin as [Hsome ->].
  pose proof (indexEntries_nonempty input sched g Hsome) as Hne.
  set (entries := indexEntries input sched g) in *.
  unfold chineseDetails. cbv zeta.
  rewrite Split_Join; cycle 1.
  { destruct entries; [done | discriminate]. }
  { rewrite map_fmap. apply Forall_fmap. eapply Forall_impl; [exact Hnl |].
    intros info [Hw Hd]. simpl. unfold formatEntry.
    rewrite !elem_of_app, !list_elem_of_singleton.
    intros [? | [? | [? | ?]]]; done. }
  rewrite decide_False by (rewrite length_map; destruct entries; [done | simpl; lia]).
  rewrite numberWords_all; cycle 1.
  { rewrite map_fmap. apply Forall_fmap, Forall_forall. intros info _. simpl.
    apply (TrimSpace_nonempty _ 65289%Z); [| reflexivity].
    unfold formatEntry. rewrite !elem_of_app, !list_elem_of_singleton. auto. }
  f_equal. f_equal. rewrite map_fmap, imap_fmap. apply imap_ext.
  intros i info _. simpl. f_equal. lia.
Qed.

Lemma showChineseDetail_lists_witness :
  showChineseDetail (@CreateChineseDB coreHan corpusAB plainSchedule) [22909]%Z
  = Join ([titleOpen ++ [22909]%Z ++ tagClose; []; wordsHeading; []]
          ++ imap (fun i info =>
                     numberedLine (S i) (cleanNewlines (TrimSpace (formatEntry info))))
               (@indexEntries coreHan corpusAB plainSchedule [22909]%Z)) [10%Z].
Proof.
  apply (@showChineseDetail_lists coreHan corpusAB plainSchedule
           (@CreateChineseDB coreHan corpusAB plainSchedule) [22909]%Z rowHao).
  - reflexivity.
  - apply (bool_decide_unpack _). vm_compute. exact I.
  - apply (bool_decide_unpack _). vm_compute. exact I.
Defined.

(** X18.  The line that says no word was found is never shown: a split has
    at least one piece, so the test that guards the line is never true, also
    for a row whose list of words is empty. *)
Theorem showChineseDetail_never_notFound (chinese englishWords : gostring) :
  (notFound ∉ chineseDetails chinese englishWords)
  /\ chineseDetails chinese englishWords
     = numberWords 0 (Split englishWords [10%Z])
         [titleOpen ++ chinese ++ tagClose; []; wordsHeading; []].
Proof.
  assert (E : chineseDetails chinese englishWords
              = numberWords 0 (Split englishWords [10%Z])
                  [titleOpen ++ chinese ++ tagClose; []; wordsHeading; []]).
  { unfold chineseDetails. cbv zeta. rewrite decide_False; [done |].
    unfold Split. pose proof (splitFrom_nonempty [10%Z] 0 englishWords) as Hne.
    destruct (splitFrom [10%Z] 0 englishWords); [done | simpl; lia]. }
  split; [| exact E]. rewrite E.
  intros [Hd | (n & w & Hn)]%numberWords_lines.
  - rewrite !elem_of_cons in Hd. destruct Hd as [Hd | [Hd | [Hd | [Hd | Hd]]]];
      try discriminate Hd. by apply elem_of_nil in Hd.
  - discriminate Hn.
Qed.

Lemma filter_Word_map (w : gostring) (records : list (list gostring)) :
  filter (fun row => Word_ row = w) (map insertArgs records)
  = map insertArgs (filter (fun record => field record 0 = w) records).
Proof.
  induction records as [| r records IH]; [done |].
  cbn [map]. rewrite !filter_cons. simpl Word_.
  destruct (decide (field r 0 = w)); cbn [map]; by rewrite IH.
Qed.

(** X19.  After a build into a new file on which nothing failed, the detail
    view of a word of the corpus shows the fields of a record of that word;
    when the word has one record only, it shows that record's word, phonetic,
    definition, translation and frequency.  A word that is not in the table
    gets the error text. *)
Theorem showEnglishDetail_record input store commitOrder (table : list Word) record :
  (forall n, batchOpens store n = true) ->
  (forall n i, rowInserts store n i = true) ->
  (forall n, batchCommits store n = true) ->
  table ≡ₚ (CreateEnglishDB [] input store commitOrder).1 ->
  record ∈ readEnglish input [] ->
  (exists record',
      (record' ∈ readEnglish input []) /\ field record' 0 = field record 0
      /\ showEnglishDetail table (field record 0)
         = Join (englishDetails (insertArgs record')) [10%Z])
  /\ (filter (fun r => field r 0 = field record 0) (readEnglish input []) = [record] ->
      showEnglishDetail table (field record 0)
      = Join (englishDetails (insertArgs record)) [10%Z])
  /\ (forall w, (forall r, r ∈ readEnglish input [] -> field r 0 <> w) ->
                showEnglishDetail table w = errPrefix ++ errNoRows).
Proof.
  intros Ho Hr Hc Htable Hin.
  destruct (CreateEnglishDB_rows_sound [] input store commitOrder Ho Hr Hc) as [Hp _].
  rewrite Hp in Htable. cbn [app] in Htable. unfold englishRows in Htable.
  set (allRecords := readEnglish input []) in *.
  assert (Hf : forall w, filter (fun row => Word_ row = w) table
                         ≡ₚ map insertArgs (filter (fun r => field r 0 = w) allRecords)).
  { intros w. rewrite <- filter_Word_map. by rewrite Htable. }
  unfold showEnglishDetail, queryWord. split_and!.
  - destruct (filter (fun row => Word_ row = field record 0) table) as [| row rows] eqn:E.
    + exfalso. specialize (Hf (field record 0)). rewrite E in Hf.
      apply Permutation_nil in Hf.
      assert (Hm : insertArgs record
                   ∈ map insertArgs (filter (fun r => field r 0 = field record 0) allRecords)).
      { rewrite map_fmap. apply list_elem_of_fmap_2. by apply list_elem_of_filter. }
      rewrite Hf in Hm. by apply elem_of_nil in Hm.
    + assert (Hrow : row ∈ map insertArgs
                             (filter (fun r => field r 0 = field record 0) allRecords)).
      { rewrite <- Hf, E. by left. }
      rewrite map_fmap in Hrow. apply list_elem_of_fmap in Hrow as (r' & -> & Hr').
      apply list_elem_of_filter in Hr' as [Hw Hr'].
      exists r'. by split_and!.
  - intros Hone. specialize (Hf (field record 0)). rewrite Hone in Hf.
    apply Permutation_singleton_r in Hf. by rewrite Hf.
  - intros w Hw. specialize (Hf w).
    assert (Hnil : filter (fun r => field r 0 = w) allRecords = []).
    { destruct (filter (fun r => field r 0 = w) allRecords) as [| r l] eqn:E; [done |].
      assert (Hr' : r ∈ filter (fun r => field r 0 = w) allRecords) by (rewrite E; by left).
      apply list_elem_of_filter in Hr' as [Hrw Hr']. by destruct (Hw r Hr'). }
    rewrite Hnil in Hf. symmetry in Hf. apply Permutation_nil in Hf. by rewrite Hf.
Qed.

Lemma showEnglishDetail_record_witness :
  exists record',
    (record' ∈ readEnglish corpusAB [])
    /\ field record' 0 = field (mkRecord [98] [22909; 44; 32654] [51])%Z 0
    /\ showEnglishDetail (CreateEnglishDB [] corpusAB soundStore []).1
         (field (mkRecord [98] [22909; 44; 32654] [51])%Z 0)
       = Join (englishDetails (insertArgs record')) [10%Z].
Proof.
  apply (showEnglishDetail_record corpusAB soundStore []
           (CreateEnglishDB [] corpusAB soundStore []).1
           (mkRecord [98] [22909; 44; 32654] [51])%Z); try reflexivity.
  apply (bool_decide_unpack _). vm_compute. exact I.
Defined.

(** A definition of two lines, written with the escape, gives two bullets. *)
Example englishDetails_run :
  englishDetails {| Word_ := [97]; Phonetic := []; Definition_ := [120; 92; 110; 121];
                    Translation := []; Bnc := [48] |}%Z
  = [wordOpen ++ [97]%Z ++ tagClose; []; definitionHeading;
     bullet ++ [120]%Z; bullet ++ [121]%Z; []].
Proof. vm_compute. reflexivity. Qed.

(** ** The search field *)

Lemma existsb_TrimLeft (f g : rune -> bool) (s : gostring) :
  (forall r, f r = true -> g r = false) ->
  existsb g (TrimLeft f s) = existsb g s.
Proof.
  intros Hfg. induction s as [| c s IH]; [done |]. cbn [TrimLeft].
  destruct (f c) eqn:Ec; [| done]. cbn [existsb]. by rewrite (Hfg c Ec), IH.
Qed.

Lemma existsb_reversed (g : rune -> bool) (s : gostring) :
  existsb g (rev s) = existsb g s.
Proof.
  induction s as [| c s IH]; [done |]. cbn [rev existsb].
  rewrite existsb_app, IH. cbn [existsb]. by rewrite orb_false_r, orb_comm.
Qed.

Lemma isChinese_TrimSpace `{UnicodeTables} (text : gostring) :
  (forall r, IsSpace r = true -> Han r = false) ->
  isChinese (TrimSpace text) = isChinese text.
Proof.
  intros Hspace. rewrite !isChinese_existsb. unfold TrimSpace, TrimRight.
  by rewrite existsb_reversed, existsb_TrimLeft, existsb_reversed, existsb_TrimLeft.
Qed.

(** X20.  White space around the text of the search field does not change
    the answer; a text of white space only starts no search at all; and the
    answer to any other text holds keys of one table only, the gloss table
    when the text holds a Han rune and the word table when it holds none.
    White space is taken not to be Han. *)
Theorem searchResultsFor_padding `{UnicodeTables} (englishDB chineseDB : Table)
    (ws1 text ws2 : gostring) :
  Forall (fun c => IsSpace c = true) ws1 ->
  Forall (fun c => IsSpace c = true) ws2 ->
  (forall r, IsSpace r = true -> Han r = false) ->
  searchResultsFor englishDB chineseDB (ws1 ++ text ++ ws2)
  = searchResultsFor englishDB chineseDB text
  /\ (searchResultsFor englishDB chineseDB text = None
      <-> Forall (fun c => IsSpace c = true) text)
  /\ (forall results,
        searchResultsFor englishDB chineseDB text = Some results ->
        Forall (fun k => k ∈ rows (if isChinese text then chineseDB else englishDB))
          results).
Proof.
  intros H1 H2 Hspace. split_and!.
  - unfold searchResultsFor. cbv zeta. by rewrite TrimSpace_padded.
  - unfold searchResultsFor. cbv zeta. split.
    + intros Hnone. apply Forall_forall. intros c Hc.
      destruct (IsSpace c) eqn:Ec; [done |].
      pose proof (TrimSpace_nonempty text c Hc Ec) as Hne.
      by destruct (TrimSpace text).
    + intros Hall.
      pose proof (TrimSpace_padded text [] [] Hall (Forall_nil_2 _)) as E.
      rewrite !app_nil_r in E. by rewrite E.
  - intros results. unfold searchResultsFor. cbv zeta.
    rewrite <- (isChinese_TrimSpace text Hspace).
    destruct (TrimSpace text) as [| c t] eqn:E; [done |]. rewrite <- E.
    intros [= <-]. apply Forall_forall. intros k Hk.
    destruct (isChinese (TrimSpace text));
      by apply tieredSearch_elem in Hk as [Hk _].
Qed.

Lemma searchResultsFor_padding_witness :
  @searchResultsFor coreHan tableLike tableAB ([32; 9] ++ [32654] ++ [10])%Z
  = @searchResultsFor coreHan tableLike tableAB [32654]%Z.
Proof.
  apply (@searchResultsFor_padding coreHan tableLike tableAB [32; 9]%Z [32654]%Z [10]%Z).
  - apply (bool_decide_unpack _). vm_compute. exact I.
  - apply (bool_decide_unpack _). vm_compute. exact I.
  - exact coreHan_no_space.
Defined.
